(** * Batch text-to-speech generation: the bounded-concurrency job runner

    A shallow embedding of [backend/src/routes/ttsRoutes.js]
    ([generateAudio], [parallelLimit], the [/generate-batch] handler) together
    with the part of the JavaScript run time the handler relies on: promises,
    reactions and the FIFO microtask queue. *)

From Stdlib Require Import List NArith ZArith Arith Lia Bool String Ascii.
Import ListNotations.

Set Warnings "-register-all".

(** ** JavaScript strings

    A JavaScript string is a sequence of UTF-16 code units.  Literals of the
    source are written as Rocq strings (UTF-8 bytes) and decoded by [js]. *)

Definition jsstring := list N.

Definition utf8_bytes (s : string) : list N :=
  map N_of_ascii (list_ascii_of_string s).

Definition surrogates (cp : N) : list N :=
  let v := (cp - 65536)%N in
  [(55296 + N.shiftr v 10)%N; (56320 + N.land v 1023)%N].

Fixpoint utf8_decode (bs : list N) : jsstring :=
  match bs with
  | [] => []
  | b :: r =>
      if (b <? 128)%N then b :: utf8_decode r
      else if (b <? 224)%N then
        match r with
        | c :: r' =>
            (N.shiftl (N.land b 31) 6 + N.land c 63)%N :: utf8_decode r'
        | _ => [65533%N]
        end
      else if (b <? 240)%N then
        match r with
        | c :: d :: r' =>
            (N.shiftl (N.land b 15) 12 + N.shiftl (N.land c 63) 6
             + N.land d 63)%N :: utf8_decode r'
        | _ => [65533%N]
        end
      else
        match r with
        | c :: d :: e :: r' =>
            surrogates (N.shiftl (N.land b 7) 18 + N.shiftl (N.land c 63) 12
                        + N.shiftl (N.land d 63) 6 + N.land e 63)%N
            ++ utf8_decode r'
        | _ => [65533%N]
        end
  end.

Definition js (s : string) : jsstring := utf8_decode (utf8_bytes s).

Definition jsstring_eqb (a b : jsstring) : bool :=
  if list_eq_dec N.eq_dec a b then true else false.

(** Code units the source names explicitly. *)
Definition QUOTE : N := 34.       (* the double quote *)
Definition APOSTROPHE : N := 39.
Definition LF : N := 10.
Definition CR : N := 13.
Definition SPACE : N := 32.
Definition DIGIT_ZERO : N := 48.

(** [String.prototype.trim] strips WhiteSpace and LineTerminator code points:
    TAB, LF, VT, FF, CR, SP, NBSP, U+1680, U+2000..U+200A, U+2028, U+2029,
    U+202F, U+205F, U+3000 and U+FEFF. *)
Definition isWhiteSpace (c : N) : bool :=
  existsb (N.eqb c)
    [9; 10; 11; 12; 13; 32; 160; 5760; 8232; 8233; 8239; 8287; 12288; 65279]%N
  || ((8192 <=? c)%N && (c <=? 8202)%N).

Fixpoint trimStart (s : jsstring) : jsstring :=
  match s with
  | [] => []
  | c :: r => if isWhiteSpace c then trimStart r else s
  end.

Definition trimEnd (s : jsstring) : jsstring := rev (trimStart (rev s)).

Definition trim (s : jsstring) : jsstring := trimEnd (trimStart s).

(** [s.replace(/x/g, y)] for a single code unit [x], and its deleting form. *)
Definition replaceAll (x y : N) (s : jsstring) : jsstring :=
  map (fun c => if (c =? x)%N then y else c) s.

Definition removeAll (x : N) (s : jsstring) : jsstring :=
  filter (fun c => negb (c =? x)%N) s.

(** [String(n)] for a non-negative integer: its decimal digits. *)
Fixpoint digits_from (fuel n : nat) (acc : jsstring) : jsstring :=
  match fuel with
  | 0 => acc
  | S fuel' =>
      let acc' := (DIGIT_ZERO + N.of_nat (n mod 10))%N :: acc in
      if n / 10 =? 0 then acc' else digits_from fuel' (n / 10) acc'
  end.

Definition String_of_nat (n : nat) : jsstring := digits_from (S n) n [].

(** [s.padStart(width, c)] with a one-unit filler. *)
Definition padStart (width : nat) (c : N) (s : jsstring) : jsstring :=
  repeat c (width - List.length s) ++ s.

(** The number a digit string denotes (leading zeros allowed). *)
Definition digits_value (s : jsstring) : nat :=
  fold_left (fun a c => a * 10 + N.to_nat (c - DIGIT_ZERO)) s 0.

(** ** Request values (parsed JSON) *)

Inductive JsValue :=
| JUndefined
| JNull
| JBool (b : bool)
| JNumber (n : Z)
| JString (s : jsstring)
| JArray (items : list JsValue)
| JObject (fields : list (jsstring * JsValue)).

Definition isString (v : JsValue) : bool :=
  match v with JString _ => true | _ => false end.

(** ** The external engine

    [execSync(command, {timeout: 60000})] either returns or throws (non-zero
    exit status, spawn failure, or the 60 s timeout); when it returns, the
    handler looks at the output file. *)

Inductive FileStat := FileMissing | FileSize (bytes : N).

Inductive ExecOutcome :=
| ExecThrows (message : jsstring)
| ExecReturns (output : FileStat).

Inductive ExecEvent :=
| ExecStart (job : nat) (command : jsstring)
| ExecEnd (job : nat).

(** ** The record a job returns *)

Record JobResult := {
  index : nat;
  text : JsValue;
  audioPath : option jsstring;   (* [None] is [null] *)
  success : bool;
  error : option jsstring        (* [None]: the property is absent *)
}.

(** The literals of the source. *)
Definition MSG_EMPTY_TEXT := js "空文本".
Definition MSG_EMPTY_CONTENT := js "文本内容为空".
Definition MSG_EMPTY_FILE := js "生成的音频文件为空".
Definition MSG_NO_FILE := js "音频文件未生成".
Definition MSG_EXEC_FAILED := js "edge-tts执行失败: ".
Definition MSG_UNKNOWN := js "未知错误".
Definition MSG_BAD_SENTENCES := js "请提供有效的句子数组".
Definition MSG_BAD_VOICE := js "无效的音色ID".
Definition MSG_NOT_INSTALLED := js "edge-tts 未安装".
Definition MSG_PLEASE_INSTALL := js "请运行: pip install edge-tts".
Definition MSG_BATCH_FAILED := js "批量TTS生成失败".

Definition MAX_CONCURRENT : nat := 5.

Definition DEFAULT_VOICE := js "en-US-JennyNeural".
Definition DEFAULT_RATE := js "+0%".

(** Keys of [VOICE_OPTIONS]. *)
Definition VOICE_OPTIONS : list jsstring :=
  map js ["en-US-JennyNeural"; "en-US-GuyNeural"; "en-US-AriaNeural";
          "en-US-DavisNeural"; "en-GB-SoniaNeural"; "en-GB-RyanNeural";
          "en-AU-NatashaNeural"; "en-AU-WilliamNeural"]%string.

(** [VOICE_OPTIONS[voice]] is a property read on an ordinary object: besides
    the eight own keys it finds the (truthy) members of [Object.prototype]. *)
Definition OBJECT_PROTOTYPE_KEYS : list jsstring :=
  map js ["constructor"; "__proto__"; "hasOwnProperty"; "isPrototypeOf";
          "propertyIsEnumerable"; "toLocaleString"; "toString"; "valueOf";
          "__defineGetter__"; "__defineSetter__"; "__lookupGetter__";
          "__lookupSetter__"]%string.

Definition voiceKnown (voice : jsstring) : bool :=
  existsb (jsstring_eqb voice) (VOICE_OPTIONS ++ OBJECT_PROTOTYPE_KEYS).

(** The three commands [checkEdgeTts] probes with [--version]. *)
Definition possiblePaths : list jsstring :=
  map js ["edge-tts"; "python -m edge_tts"; "python3 -m edge_tts"]%string.

Definition checkEdgeTts (probe : jsstring -> bool) : bool :=
  existsb probe possiblePaths.

(** ** Promises, reactions and the microtask queue

    Promises are named by the place of the source that creates them: for the
    [k]-th task, [PResult k] is [p], [PTask k] the promise of the [async]
    closure and [PExec k] is [e]; [PRace k] is the [Promise.race] awaited in
    iteration [k]; [PAll] is [Promise.allSettled(results)] and [PLimit] the
    promise of the call [parallelLimit(tasks, MAX_CONCURRENT)]. *)

Inductive pid :=
| PResult (k : nat)
| PTask (k : nat)
| PExec (k : nat)
| PRace (k : nat)
| PAll
| PLimit.

Definition pid_eq_dec (a b : pid) : {a = b} + {a <> b}.
Proof. decide equality; apply Nat.eq_dec. Defined.

Inductive value :=
| VUndefined
| VString (s : jsstring)
| VError (message : jsstring)
| VJob (r : JobResult)
| VPromise (p : pid)
| VArray (items : list value)
| VEntry (fulfilled : bool) (payload : value).
    (* [{status: 'fulfilled', value}] or [{status: 'rejected', reason}] *)

Inductive outcome :=
| Fulfilled (v : value)
| Rejected (reason : value).

(** A reaction is a handler registered by [then] (or by [await]) together with
    the promise it settles; the handlers of this program are:
    - [RCallTask k]: [() => task()] in [Promise.resolve().then(..)], for [p];
    - [RTaskResume k]: the rest of task [k] after [await generateAudio(..)];
    - [RAdopt x]: the resolving functions of [x], handed to [thenable.then]
      when [x] was resolved with a promise;
    - [RSplice k]: [() => executing.splice(executing.indexOf(e), 1)], for [e];
    - [RRace k]: the resolving functions of the race of iteration [k];
    - [RLimitResume next]: the rest of [parallelLimit] after
      [await Promise.race(executing)], the iterator standing at [next];
    - [RAllElement k]: the element functions of [Promise.allSettled];
    - [RHandlerResume]: the rest of the handler after [await parallelLimit]. *)
Inductive reaction :=
| RCallTask (k : nat)
| RTaskResume (k : nat)
| RAdopt (target : pid)
| RSplice (k : nat)
| RRace (k : nat)
| RLimitResume (next : nat)
| RAllElement (k : nat)
| RHandlerResume.

Inductive job :=
| JReaction (r : reaction) (o : outcome)        (* PromiseReactionJob *)
| JThenable (target thenable : pid).            (* NewPromiseResolveThenableJob *)

Inductive cell :=
| Pending (reactions : list reaction)
| Settled (o : outcome).

(** What the handler sends. *)
Inductive Response :=
| BadRequest (error : jsstring) (available : option (list jsstring))
| ServerError (error message : jsstring)
| BatchOk (batch : jsstring) (total successCount : nat)
          (results : list JobResult).

Record state := {
  heap : pid -> cell;
  queue : list job;
  results : list pid;              (* [results] of [parallelLimit] *)
  executing : list pid;            (* [executing] of [parallelLimit] *)
  allValues : list (option value); (* the values array of [allSettled] *)
  remaining : nat;                 (* its count of unsettled elements *)
  log : list ExecEvent;
  response : option Response
}.

Definition initial : state :=
  {| heap := fun _ => Pending []; queue := []; results := [];
     executing := []; allValues := []; remaining := 0; log := [];
     response := None |}.

Definition set_heap (x : pid) (c : cell) (st : state) : state :=
  {| heap := fun y => if pid_eq_dec x y then c else heap st y;
     queue := queue st; results := results st; executing := executing st;
     allValues := allValues st; remaining := remaining st; log := log st;
     response := response st |}.

Definition set_queue (q : list job) (st : state) : state :=
  {| heap := heap st; queue := q; results := results st;
     executing := executing st; allValues := allValues st;
     remaining := remaining st; log := log st; response := response st |}.

Definition set_results (l : list pid) (st : state) : state :=
  {| heap := heap st; queue := queue st; results := l;
     executing := executing st; allValues := allValues st;
     remaining := remaining st; log := log st; response := response st |}.

Definition set_executing (l : list pid) (st : state) : state :=
  {| heap := heap st; queue := queue st; results := results st;
     executing := l; allValues := allValues st;
     remaining := remaining st; log := log st; response := response st |}.

Definition set_all (vs : list (option value)) (n : nat) (st : state) : state :=
  {| heap := heap st; queue := queue st; results := results st;
     executing := executing st; allValues := vs; remaining := n;
     log := log st; response := response st |}.

Definition add_log (evs : list ExecEvent) (st : state) : state :=
  {| heap := heap st; queue := queue st; results := results st;
     executing := executing st; allValues := allValues st;
     remaining := remaining st; log := log st ++ evs;
     response := response st |}.

Definition set_response (r : Response) (st : state) : state :=
  {| heap := heap st; queue := queue st; results := results st;
     executing := executing st; allValues := allValues st;
     remaining := remaining st; log := log st; response := Some r |}.

Definition enqueue (j : job) (st : state) : state :=
  set_queue (queue st ++ [j]) st.

(** Settling a pending promise turns its reactions into jobs, in the order
    they were registered; a promise settles once. *)
Definition settle (x : pid) (o : outcome) (st : state) : state :=
  match heap st x with
  | Pending rs =>
      set_queue (queue st ++ map (fun r => JReaction r o) rs)
                (set_heap x (Settled o) st)
  | Settled _ => st
  end.

(** [x.then(..)] (PerformPromiseThen): on a pending promise the reaction is
    stored, on a settled one its job is queued at once. *)
Definition then_ (x : pid) (r : reaction) (st : state) : state :=
  match heap st x with
  | Pending rs => set_heap x (Pending (rs ++ [r])) st
  | Settled o => enqueue (JReaction r o) st
  end.

(** [await x] of a native promise is [then] with the continuation. *)
Definition await (x : pid) (k : reaction) (st : state) : state := then_ x k st.

(** [Promise.race(xs)]: [then] on every member with the race's functions. *)
Definition race (k : nat) (xs : list pid) (st : state) : state :=
  fold_left (fun s x => then_ x (RRace k) s) xs st.

(** [arr.indexOf(x)] and [arr.splice(start, 1)]; [None] is -1, and a start
    of -1 counts from the end. *)
Fixpoint indexOf (x : pid) (l : list pid) : option nat :=
  match l with
  | [] => None
  | y :: r =>
      if pid_eq_dec x y then Some 0
      else match indexOf x r with Some i => Some (S i) | None => None end
  end.

Definition splice1 (start : option nat) (l : list pid)
  : list pid * list pid :=
  let i := match start with
           | Some i => i
           | None => List.length l - 1
           end in
  (firstn i l ++ skipn (S i) l, firstn 1 (skipn i l)).

Fixpoint replace_nth {A : Type} (i : nat) (x : A) (l : list A) : list A :=
  match l, i with
  | [], _ => []
  | _ :: r, 0 => x :: r
  | y :: r, S i' => y :: replace_nth i' x r
  end.

(** [results.sort((a, b) => a.index - b.index)]: [Array.prototype.sort] is
    stable, so its result is the stable ascending arrangement; insertion from
    the right computes it. *)
Fixpoint insert_by_index (r : JobResult) (l : list JobResult)
  : list JobResult :=
  match l with
  | [] => [r]
  | x :: l' =>
      if index r <=? index x then r :: l else x :: insert_by_index r l'
  end.

Definition sort_by_index (l : list JobResult) : list JobResult :=
  fold_right insert_by_index [] l.

(** [err.message] of a caught value. *)
Definition message_of (reason : value) : option jsstring :=
  match reason with
  | VError m => Some m
  | _ => None
  end.

(** ** The world of one call

    What the handler reads from outside the source: the engine behind
    [execSync], the message of the TypeError that [sentence.trim()] raises on a
    value without that method, [path.join], the audio directory, the value
    [uuidv4()] returns, the module's [edgeTtsAvailable] flag and the probe of
    [checkEdgeTts]. *)

Record World := {
  execSync : jsstring -> ExecOutcome;
  typeErrorMessage : JsValue -> jsstring;
  pathJoin : jsstring -> jsstring -> jsstring;
  audioDir : jsstring;
  uuidv4 : jsstring;
  edgeTtsAvailable : bool;
  versionProbe : jsstring -> bool
}.

(** [req.body], destructured: [None] is an undefined property. *)
Record Request := {
  body_sentences : JsValue;
  body_voice : option jsstring;
  body_rate : option jsstring
}.

(** ** Running the queue to the end

    Every job and every stored reaction carries a weight bounding the work it
    can still cause; the sum over the queue and the heap is the fuel that
    [drain] gives the loop. *)

Definition loopCost (n m : nat) : nat := m * (n + 6) + n + 2.

Definition reactionWeight (n : nat) (r : reaction) : nat :=
  match r with
  | RCallTask _ => 4
  | RLimitResume next => 1 + loopCost n (n - next)
  | _ => 1
  end.

Definition jobWeight (n : nat) (j : job) : nat :=
  match j with
  | JReaction r _ => reactionWeight n r
  | JThenable _ _ => 2
  end.

Definition cellWeight (n : nat) (c : cell) : nat :=
  match c with
  | Pending rs => list_sum (map (reactionWeight n) rs)
  | Settled _ => 0
  end.

Definition taskWeight (n : nat) (h : pid -> cell) (k : nat) : nat :=
  cellWeight n (h (PResult k)) + cellWeight n (h (PTask k))
  + cellWeight n (h (PExec k)) + cellWeight n (h (PRace k)).

Definition heapWeight (n : nat) (h : pid -> cell) : nat :=
  list_sum (map (taskWeight n h) (seq 0 n))
  + cellWeight n (h PAll) + cellWeight n (h PLimit).

Definition potential (n : nat) (st : state) : nat :=
  list_sum (map (jobWeight n) (queue st)) + heapWeight n (heap st).

(** ** The program *)

Section Call.

Variable w : World.
Variable req : Request.

Definition sentences : list JsValue :=
  match body_sentences req with
  | JArray items => items
  | _ => []
  end.

Definition voice : jsstring :=
  match body_voice req with Some v => v | None => DEFAULT_VOICE end.

Definition rate : jsstring :=
  match body_rate req with Some r => r | None => DEFAULT_RATE end.

Definition batchId : jsstring := uuidv4 w.

(** *** generateAudio *)

Definition cleanText (text' : jsstring) : jsstring :=
  trim (removeAll CR (replaceAll LF SPACE
                        (replaceAll QUOTE APOSTROPHE text'))).

Definition commandLine (clean voice' rate' outputPath' : jsstring)
  : jsstring :=
  js "edge-tts --text " ++ [QUOTE] ++ clean ++ [QUOTE]
  ++ js " --voice " ++ voice' ++ js " --rate " ++ rate'
  ++ js " --write-media " ++ [QUOTE] ++ outputPath' ++ [QUOTE].

(** The executor runs synchronously, so the promise [generateAudio] returns
    is settled when the caller gets it; [job] only labels the log. *)
Definition generateAudio (job : nat) (text' voice' outputPath' rate' : jsstring)
  : list ExecEvent * outcome :=
  match cleanText text' with
  | [] => ([], Rejected (VError MSG_EMPTY_CONTENT))
  | clean =>
      let command := commandLine clean voice' rate' outputPath' in
      ([ExecStart job command; ExecEnd job],
       match execSync w command with
       | ExecReturns (FileSize size) =>
           if (0 <? size)%N then Fulfilled (VString outputPath')
           else Rejected (VError MSG_EMPTY_FILE)
       | ExecReturns FileMissing => Rejected (VError MSG_NO_FILE)
       | ExecThrows m => Rejected (VError (MSG_EXEC_FAILED ++ m))
       end)
  end.

(** *** The task closures of the handler *)

Definition sentence (i : nat) : JsValue := nth i sentences JUndefined.

Definition filename (i : nat) : jsstring :=
  batchId ++ js "_" ++ padStart 3 DIGIT_ZERO (String_of_nat (i + 1))
  ++ js ".mp3".

Definition outputPath (i : nat) : jsstring :=
  pathJoin w (audioDir w) (filename i).

Definition blankResult (i : nat) : JobResult :=
  {| index := i; text := JString []; audioPath := None; success := false;
     error := Some MSG_EMPTY_TEXT |}.

Definition successResult (i : nat) (text' : jsstring) : JobResult :=
  {| index := i; text := JString text';
     audioPath := Some (js "/audio/" ++ filename i); success := true;
     error := None |}.

Definition failureResult (i : nat) (text' : jsstring)
           (message : option jsstring) : JobResult :=
  {| index := i; text := JString text'; audioPath := None; success := false;
     error := message |}.

(** [task()] up to its first suspension, then [p] is resolved with the
    promise the closure returned. *)
Definition callTask (i : nat) (st : state) : state :=
  let st' :=
    match sentence i with
    | JString s =>
        match trim s with
        | [] => settle (PTask i) (Fulfilled (VJob (blankResult i))) st
        | text' =>
            let (events, generated) :=
              generateAudio i text' voice (outputPath i) rate in
            enqueue (JReaction (RTaskResume i) generated) (add_log events st)
        end
    | other =>
        settle (PTask i) (Rejected (VError (typeErrorMessage w other))) st
    end in
  enqueue (JThenable (PResult i) (PTask i)) st'.

Definition resumeTask (i : nat) (generated : outcome) (st : state) : state :=
  let text' := match sentence i with JString s => trim s | _ => [] end in
  match generated with
  | Fulfilled _ =>
      settle (PTask i) (Fulfilled (VJob (successResult i text'))) st
  | Rejected err =>
      settle (PTask i)
             (Fulfilled (VJob (failureResult i text' (message_of err)))) st
  end.

(** *** parallelLimit *)

Definition allSettled (st : state) : state :=
  let n := List.length (results st) in
  let st1 := set_all (repeat None n) n st in
  let st2 := fold_left (fun s ip => then_ (snd ip) (RAllElement (fst ip)) s)
                       (combine (seq 0 n) (results st)) st1 in
  if n =? 0 then settle PAll (Fulfilled (VArray [])) st2 else st2.

(** [return Promise.allSettled(results)] inside an [async] function. *)
Definition limitReturn (st : state) : state :=
  enqueue (JThenable PLimit PAll) (allSettled st).

Definition spliceExecuting (k : nat) (o : outcome) (st : state) : state :=
  match o with
  | Fulfilled _ =>
      let (kept, removed) :=
        splice1 (indexOf (PExec k) (executing st)) (executing st) in
      settle (PExec k) (Fulfilled (VArray (map VPromise removed)))
             (set_executing kept st)
  | Rejected err => settle (PExec k) (Rejected err) st
  end.

Definition allElement (k : nat) (o : outcome) (st : state) : state :=
  let entry := match o with
               | Fulfilled v => VEntry true v
               | Rejected err => VEntry false err
               end in
  let values := replace_nth k (Some entry) (allValues st) in
  let n := remaining st - 1 in
  let st1 := set_all values n st in
  if n =? 0 then
    settle PAll
           (Fulfilled (VArray (map (fun v => match v with
                                             | Some e => e
                                             | None => VUndefined
                                             end) values))) st1
  else st1.

(** *** The rest of the handler: mapping the settlements *)

Definition collectOne (i : nat) (r : value) : option JobResult :=
  match r with
  | VEntry true (VJob res) => Some res
  | VEntry false err =>
      Some {| index := i; text := sentence i; audioPath := None;
              success := false;
              error := Some match message_of err with
                            | Some (c :: m) => c :: m
                            | _ => MSG_UNKNOWN
                            end |}
  | _ => None
  end.

Fixpoint collect (i : nat) (settled : list value)
  : option (list JobResult) :=
  match settled with
  | [] => Some []
  | r :: rest =>
      match collectOne i r, collect (S i) rest with
      | Some x, Some xs => Some (x :: xs)
      | _, _ => None
      end
  end.

Definition successCountOf (l : list JobResult) : nat :=
  List.length (filter success l).

Section Runner.

Variable limit : nat.
Variable sorting : bool.
    (* [true] is the source; [false] leaves the final sort out *)

(** The [for (const task of tasks)] loop from iteration [k] on, up to the
    next [await] or to the [return]. *)
Fixpoint limitLoop (rest : list JsValue) (k : nat) (st : state) : state :=
  match rest with
  | [] => limitReturn st
  | _ :: rest' =>
      let st1 := enqueue (JReaction (RCallTask k) (Fulfilled VUndefined)) st in
      let st2 := set_results (results st1 ++ [PResult k]) st1 in
      if limit <=? List.length sentences then
        let st3 := then_ (PResult k) (RSplice k) st2 in
        let st4 := set_executing (executing st3 ++ [PExec k]) st3 in
        if limit <=? List.length (executing st4) then
          await (PRace k) (RLimitResume (S k))
                (race k (executing st4) st4)
        else limitLoop rest' (S k) st4
      else limitLoop rest' (S k) st2
  end.

Definition parallelLimit (st : state) : state := limitLoop sentences 0 st.

Definition resumeLimit (next : nat) (o : outcome) (st : state) : state :=
  match o with
  | Fulfilled _ => limitLoop (skipn next sentences) next st
  | Rejected err => settle PLimit (Rejected err) st
  end.

Definition resumeHandler (o : outcome) (st : state) : state :=
  match o with
  | Fulfilled (VArray settled) =>
      match collect 0 settled with
      | Some mapped =>
          let sorted := if sorting then sort_by_index mapped else mapped in
          set_response (BatchOk batchId (List.length sentences)
                                (successCountOf sorted) sorted) st
      | None => st
      end
  | Fulfilled _ => st
  | Rejected err =>
      set_response (ServerError MSG_BATCH_FAILED
                      (match message_of err with Some m => m | None => [] end))
                   st
  end.

(** *** The event loop *)

Definition react (r : reaction) (o : outcome) (st : state) : state :=
  match r with
  | RCallTask k => callTask k st
  | RTaskResume k => resumeTask k o st
  | RAdopt x => settle x o st
  | RSplice k => spliceExecuting k o st
  | RRace k => settle (PRace k) o st
  | RLimitResume next => resumeLimit next o st
  | RAllElement k => allElement k o st
  | RHandlerResume => resumeHandler o st
  end.

Definition runJob (j : job) (st : state) : state :=
  match j with
  | JReaction r o => react r o st
  | JThenable x thenable => then_ thenable (RAdopt x) st
  end.

Definition step (st : state) : option state :=
  match queue st with
  | [] => None
  | j :: q => Some (runJob j (set_queue q st))
  end.

Fixpoint run (fuel : nat) (st : state) : state :=
  match fuel with
  | 0 => st
  | S fuel' =>
      match step st with
      | None => st
      | Some st' => run fuel' st'
      end
  end.

(** *** The handler of POST /generate-batch *)

(** The handler up to its first [await], or to an early [return]. *)
Definition handlerStart : state :=
  match body_sentences req with
  | JArray (_ :: _) =>
      if negb (voiceKnown voice) then
        set_response (BadRequest MSG_BAD_VOICE (Some VOICE_OPTIONS)) initial
      else if negb (edgeTtsAvailable w || checkEdgeTts (versionProbe w)) then
        set_response (ServerError MSG_NOT_INSTALLED MSG_PLEASE_INSTALL) initial
      else await PLimit RHandlerResume (parallelLimit initial)
  | _ => set_response (BadRequest MSG_BAD_SENTENCES None) initial
  end.

(** The microtask queue is run until it is empty. *)
Definition drain (st : state) : state :=
  run (potential (List.length sentences) st) st.

Definition handlerEnd : state := drain handlerStart.

End Runner.

(** The route as mounted: [MAX_CONCURRENT] jobs at a time, results sorted. *)
Definition generateBatch : option Response :=
  response (handlerEnd MAX_CONCURRENT true).

Definition engineLog : list ExecEvent :=
  log (handlerEnd MAX_CONCURRENT true).

End Call.

(** ** What a run is expected to produce *)

Section Expected.

Variable w : World.
Variable req : Request.

(** The number of jobs. *)
Definition total : nat := List.length (sentences req).

(** The record job [i] ends with, read off its sentence and off what the
    engine does with its command. *)
Definition expectedResult (i : nat) : JobResult :=
  match sentence req i with
  | JString s =>
      match trim s with
      | [] => blankResult i
      | text' =>
          match snd (generateAudio w i text' (voice req) (outputPath w i)
                                   (rate req)) with
          | Fulfilled _ => successResult w i text'
          | Rejected err => failureResult i text' (message_of err)
          end
      end
  | other =>
      {| index := i; text := other; audioPath := None; success := false;
         error := Some match typeErrorMessage w other with
                       | c :: m => c :: m
                       | [] => MSG_UNKNOWN
                       end |}
  end.

Definition expectedResults : list JobResult :=
  map expectedResult (seq 0 total).

(** The settlement of the promise of task [i]. *)
Definition taskOutcome (i : nat) : outcome :=
  match sentence req i with
  | JString _ => Fulfilled (VJob (expectedResult i))
  | other => Rejected (VError (typeErrorMessage w other))
  end.

(** The settlement of [generateAudio] inside task [i]. *)
Definition generatedOutcome (i : nat) : outcome :=
  match sentence req i with
  | JString s =>
      snd (generateAudio w i (trim s) (voice req) (outputPath w i) (rate req))
  | _ => Rejected VUndefined
  end.

Definition nonBlank (i : nat) : bool :=
  match sentence req i with
  | JString s => match trim s with [] => false | _ => true end
  | _ => false
  end.

Definition entryOf (i : nat) : value :=
  match taskOutcome i with
  | Fulfilled v => VEntry true v
  | Rejected err => VEntry false err
  end.

Definition settledArray : value := VArray (map entryOf (seq 0 total)).

End Expected.

(** ** Counting jobs and reactions *)

Definition reaction_eq_dec (a b : reaction) : {a = b} + {a <> b}.
Proof. decide equality; try apply Nat.eq_dec; apply pid_eq_dec. Defined.

Arguments reaction_eq_dec : simpl never.
Arguments pid_eq_dec : simpl never.

Definition b2n (b : bool) : nat := if b then 1 else 0.

(** Jobs of the queue running reaction [r]. *)
Fixpoint cntR (r : reaction) (q : list job) : nat :=
  match q with
  | [] => 0
  | JReaction r' _ :: q' =>
      (if reaction_eq_dec r' r then 1 else 0) + cntR r q'
  | JThenable _ _ :: q' => cntR r q'
  end.

(** Jobs of the queue adopting [t] into [x]. *)
Fixpoint cntT (x t : pid) (q : list job) : nat :=
  match q with
  | [] => 0
  | JThenable x' t' :: q' =>
      (if pid_eq_dec x' x then if pid_eq_dec t' t then 1 else 0 else 0)
      + cntT x t q'
  | JReaction _ _ :: q' => cntT x t q'
  end.

(** Copies of [r] stored on a cell. *)
Definition rc (r : reaction) (c : cell) : nat :=
  match c with
  | Pending rs => count_occ reaction_eq_dec rs r
  | Settled _ => 0
  end.

Definition sl (c : cell) : nat :=
  match c with
  | Pending _ => 0
  | Settled _ => 1
  end.

(** The promise a reaction waits on. *)
Definition home (r : reaction) : pid :=
  match r with
  | RAdopt (PResult k) => PTask k
  | RAdopt _ => PAll
  | RSplice k => PResult k
  | RAllElement k => PResult k
  | RRace k => PExec k
  | RLimitResume next => PRace (pred next)
  | RHandlerResume => PLimit
  | RCallTask k => PTask k
  | RTaskResume k => PTask k
  end.

(** Live copies of [r]: queued as a job or stored on its promise. *)
Definition tot (r : reaction) (st : state) : nat :=
  cntR r (queue st) + rc r (heap st (home r)).

Definition recorded (k : nat) (st : state) : nat :=
  match nth_error (allValues st) k with
  | Some (Some _) => 1
  | _ => 0
  end.

Definition unrecorded (vs : list (option value)) : nat :=
  List.length (filter (fun v => match v with None => true | _ => false end)
                      vs).

(** ** The invariant *)

Inductive status :=
| Running (k : nat)      (* [parallelLimit] is executing iteration [k] *)
| Waiting (j : nat)      (* it is suspended on the race of iteration [j] *)
| Finished.              (* it has returned *)

Section Invariant.

Variable w : World.
Variable req : Request.
Variable limit : nat.
Variable sorting : bool.

Definition tracking : bool := limit <=? total req.

(** Which reactions a promise may hold. *)
Definition allowed (x : pid) (r : reaction) : Prop :=
  match x, r with
  | PTask k, RAdopt (PResult k') => k' = k /\ k < total req
  | PResult k, RSplice k' => k' = k /\ k < total req /\ tracking = true
  | PResult k, RAllElement k' => k' = k /\ k < total req
  | PExec i, RRace j => i < total req /\ j < total req
  | PRace j, RLimitResume next => next = S j /\ j < total req
  | PAll, RAdopt PLimit => True
  | PLimit, RHandlerResume => True
  | _, _ => False
  end.

(** What a promise may settle with. *)
Definition out_ok (x : pid) (o : outcome) : Prop :=
  match x with
  | PTask k | PResult k => o = taskOutcome w req k
  | PExec _ | PRace _ => exists v, o = Fulfilled v
  | PAll | PLimit => o = Fulfilled (settledArray w req)
  end.

Definition job_ok (j : job) : Prop :=
  match j with
  | JReaction (RCallTask k) _ => k < total req
  | JReaction (RTaskResume k) o =>
      k < total req /\ nonBlank req k = true /\ o = generatedOutcome w req k
  | JReaction r o => exists x, allowed x r /\ out_ok x o
  | JThenable x t =>
      (exists k, k < total req /\ x = PResult k /\ t = PTask k)
      \/ (x = PLimit /\ t = PAll)
  end.

Definition cell_ok (x : pid) (c : cell) : Prop :=
  match c with
  | Pending rs => Forall (allowed x) rs
  | Settled o => out_ok x o
  end.

Definition Typed (st : state) : Prop :=
  Forall job_ok (queue st) /\ forall x, cell_ok x (heap st x).

Definition started (s : status) : nat :=
  match s with
  | Running k => k
  | Waiting j => S j
  | Finished => total req
  end.

Definition fin (s : status) : nat :=
  match s with
  | Finished => 1
  | _ => 0
  end.

Definition arranged : list JobResult :=
  if sorting then sort_by_index (expectedResults w req)
  else expectedResults w req.

Definition expectedResponse : Response :=
  BatchOk (batchId w) (total req) (successCountOf arranged) arranged.

(** [h] is 1 once the handler awaits [parallelLimit]. *)
Record Inv (h : nat) (s : status) (st : state) : Prop := {
  inv_typed : Typed st;
  inv_results : results st = map PResult (seq 0 (started s));
  inv_started : started s <= total req;
  inv_executing :
    List.length (executing st) <= started s
    /\ Forall (fun x => exists i, x = PExec i /\ i < total req) (executing st);
  inv_tracking :
    match s with Waiting _ => tracking = true | _ => True end;
  inv_task : forall k,
    tot (RCallTask k) st + tot (RTaskResume k) st + sl (heap st (PTask k))
    = b2n (k <? started s);
  inv_result : forall k,
    tot (RCallTask k) st + cntT (PResult k) (PTask k) (queue st)
    + tot (RAdopt (PResult k)) st + sl (heap st (PResult k))
    = b2n (k <? started s);
  inv_exec : forall k,
    tot (RSplice k) st + sl (heap st (PExec k))
    = b2n (k <? started s) * b2n tracking;
  inv_resume : forall n,
    tot (RLimitResume n) st
    = match s with Waiting j => b2n (n =? S j) | _ => 0 end;
  inv_race :
    match s with
    | Waiting j => sl (heap st (PRace j)) = 0 -> 1 <= tot (RRace j) st
    | _ => True
    end;
  inv_all : forall k,
    tot (RAllElement k) st + recorded k st = fin s * b2n (k <? total req);
  inv_values :
    (fin s = 1 -> List.length (allValues st) = total req)
    /\ (forall k v, nth_error (allValues st) k = Some (Some v) ->
                    v = entryOf w req k)
    /\ (fin s = 1 -> remaining st = unrecorded (allValues st))
    /\ sl (heap st PAll) = fin s * b2n (remaining st =? 0);
  inv_limit :
    cntT PLimit PAll (queue st) + tot (RAdopt PLimit) st
    + sl (heap st PLimit) = fin s;
  inv_handler :
    tot RHandlerResume st
    + match response st with Some _ => 1 | None => 0 end = h;
  inv_response : forall r, response st = Some r -> r = expectedResponse
}.

End Invariant.


(** ** Notions the claims are stated with *)

(** The guards of the handler pass: [sentences] is a non-empty array, the
    voice is known and the engine was found. *)
Definition accepted (w : World) (req : Request) : Prop :=
  (exists first more, body_sentences req = JArray (first :: more))
  /\ voiceKnown (voice req) = true
  /\ (edgeTtsAvailable w || checkEdgeTts (versionProbe w))%bool = true.

(** Every sentence is a string, as the callers of the route send them
    ([sentences: string[]] in the client). *)
Definition allStrings (req : Request) : Prop :=
  Forall (fun v => isString v = true) (sentences req).

(** The text of job [i] is blank: empty once trimmed. *)
Definition blankText (req : Request) (i : nat) : Prop :=
  exists s, sentence req i = JString s /\ trim s = [].

(** Engine calls started and ended in a log, and the calls of one job. *)
Definition startedCount (evs : list ExecEvent) : nat :=
  List.length (filter (fun e => match e with
                                | ExecStart _ _ => true
                                | ExecEnd _ => false
                                end) evs).

Definition endedCount (evs : list ExecEvent) : nat :=
  List.length (filter (fun e => match e with
                                | ExecStart _ _ => false
                                | ExecEnd _ => true
                                end) evs).

Definition jobOf (e : ExecEvent) : nat :=
  match e with
  | ExecStart k _ => k
  | ExecEnd k => k
  end.

Definition dispatched (i : nat) (evs : list ExecEvent) : Prop :=
  exists e, In e evs /\ jobOf e = i.

(** The command line task [i] hands to [execSync]. *)
Definition commandOf (w : World) (req : Request) (i : nat) : jsstring :=
  match sentence req i with
  | JString s =>
      commandLine (cleanText (trim s)) (voice req) (rate req) (outputPath w i)
  | _ => []
  end.

(** The route with the final [results.sort(..)] left out. *)
Definition generateBatchUnsorted (w : World) (req : Request)
  : option Response :=
  response (handlerEnd w req MAX_CONCURRENT false).

(** Engine calls never overlap: [execSync] returns before the next job of the
    queue runs, so the log is a sequence of start/end pairs, each of a job
    with a non-blank text. *)
Inductive EngineLog (req : Request) : list ExecEvent -> Prop :=
| EngineLog_nil : EngineLog req []
| EngineLog_call l k c :
    EngineLog req l -> nonBlank req k = true ->
    EngineLog req (l ++ [ExecStart k c; ExecEnd k]).

(** Two worlds that differ at most in what the engine does. *)
Definition sameButEngine (w w' : World) : Prop :=
  typeErrorMessage w' = typeErrorMessage w
  /\ pathJoin w' = pathJoin w
  /\ audioDir w' = audioDir w
  /\ uuidv4 w' = uuidv4 w
  /\ edgeTtsAvailable w' = edgeTtsAvailable w
  /\ versionProbe w' = versionProbe w.

(** The reading of "a blank job takes no concurrency slot": its tracking
    promise [e] never stands in [executing]. *)
Definition holdsNoSlot (w : World) (req : Request) (i : nat) : Prop :=
  forall fuel,
    ~ In (PExec i)
         (executing (run w req MAX_CONCURRENT true fuel
                         (handlerStart w req MAX_CONCURRENT))).

(** The converse reading: at some instant of the run the tracking promise
    of job [i] stands in [executing]. *)
Definition holdsSlot (w : World) (req : Request) (i : nat) : Prop :=
  exists fuel,
    In (PExec i)
       (executing (run w req MAX_CONCURRENT true fuel
                       (handlerStart w req MAX_CONCURRENT))).

(** The engine calls of job [k]: none for a blank text. *)
Definition callEvents (w : World) (req : Request) (k : nat)
  : list ExecEvent :=
  if nonBlank req k then [ExecStart k (commandOf w req k); ExecEnd k] else [].

(** The calls of the first [c] jobs, in input order. *)
Definition expectedLog (w : World) (req : Request) (c : nat)
  : list ExecEvent :=
  flat_map (callEvents w req) (seq 0 c).

(** ** Sample calls *)

Definition engineOk : jsstring -> ExecOutcome :=
  fun _ => ExecReturns (FileSize 2048).

Definition sampleWorld (engine : jsstring -> ExecOutcome) : World :=
  {| execSync := engine;
     typeErrorMessage := fun _ => js "sentence.trim is not a function";
     pathJoin := fun dir name => dir ++ js "/" ++ name;
     audioDir := js "/srv/backend/public/audio";
     uuidv4 := js "batchXYZ";
     edgeTtsAvailable := true;
     versionProbe := fun _ => false |}.

Definition sampleRequest (items : list JsValue) : Request :=
  {| body_sentences := JArray items; body_voice := None; body_rate := None |}.

Definition threeSentences : list JsValue :=
  [JString (js "Hello world."); JString []; JString (js "Second sentence.")].

Definition fourSentences : list JsValue :=
  [JString (js "One."); JString (js "Two."); JString (js "Three.");
   JString (js "Four.")].

Definition sixWithBlanks : list JsValue :=
  [JString []; JString (js "  "); JString []; JString []; JString [];
   JString (js "Last.")].

Definition fiveNumbers : list JsValue :=
  [JNumber 1; JNumber 2; JNumber 3; JNumber 4; JNumber 5].

(** An engine that exits with an error on the second of [fourSentences]. *)
Definition failsOnSecond : jsstring -> ExecOutcome :=
  fun command =>
    if jsstring_eqb command
         (commandOf (sampleWorld engineOk) (sampleRequest fourSentences) 1)
    then ExecThrows (js "Command failed")
    else engineOk command.

Definition fiveSentences : list JsValue :=
  [JString (js "One."); JString (js "Two."); JString (js "Three.");
   JString (js "Four."); JString (js "Five.")].

Definition mixedShort : list JsValue :=
  [JString (js "One."); JNumber 7; JNull; JString (js " ")].

(** The call log of five jobs run one at a time. *)
Definition oneAtATimeLog : list ExecEvent :=
  log (run (sampleWorld engineOk) (sampleRequest fiveSentences) 1 true 200
           (handlerStart (sampleWorld engineOk)
                         (sampleRequest fiveSentences) 1)).

(** ** The other routes of ttsRoutes.js *)

(** *** checkEdgeTts and GET /status

    The module keeps two variables, [edgeTtsAvailable] and [edgeTtsPath];
    [checkEdgeTts] tries the three commands in order and, at the first whose
    [--version] run does not throw, stores it and returns true. *)
Record EngineState := {
  stateAvailable : bool;      (* [edgeTtsAvailable] *)
  statePath : jsstring        (* [edgeTtsPath] *)
}.

Definition engineStateAtLoad : EngineState :=
  {| stateAvailable := false; statePath := js "edge-tts" |}.

Definition checkEdgeTtsState (probe : jsstring -> bool) (st : EngineState)
  : bool * EngineState :=
  match find probe possiblePaths with
  | Some cmd => (true, {| stateAvailable := true; statePath := cmd |})
  | None => (false, st)
  end.

Definition MSG_STATUS_OK := js "edge-tts 服务正常".
Definition MSG_STATUS_MISSING := js "请安装 edge-tts: pip install edge-tts".

Record StatusResponse := {
  status_available : bool;
  status_command : jsstring;
  status_message : jsstring
}.

Definition statusRoute (st : EngineState) : StatusResponse :=
  {| status_available := stateAvailable st;
     status_command := statePath st;
     status_message := if stateAvailable st then MSG_STATUS_OK
                       else MSG_STATUS_MISSING |}.

(** *** POST /generate *)

Definition MSG_BAD_TEXT := js "请提供有效的文本内容".
Definition MSG_TTS_FAILED := js "TTS生成失败".

(** [VOICE_OPTIONS[voice].name]: the display names of the eight voices; for
    a member of [Object.prototype] it is the [name] of that function
    ([Object] for [constructor]), and [Object.prototype] itself, which
    [__proto__] reads, has none. *)
Definition VOICE_NAMES : list (jsstring * jsstring) :=
  map (fun p => (js (fst p), js (snd p)))
      [("en-US-JennyNeural", "Jenny (美式女声)");
       ("en-US-GuyNeural", "Guy (美式男声)");
       ("en-US-AriaNeural", "Aria (美式女声-自然)");
       ("en-US-DavisNeural", "Davis (美式男声-自然)");
       ("en-GB-SoniaNeural", "Sonia (英式女声)");
       ("en-GB-RyanNeural", "Ryan (英式男声)");
       ("en-AU-NatashaNeural", "Natasha (澳式女声)");
       ("en-AU-WilliamNeural", "William (澳式男声)")]%string.

Definition voiceName (voice : jsstring) : option jsstring :=
  match find (fun p => jsstring_eqb voice (fst p)) VOICE_NAMES with
  | Some p => Some (snd p)
  | None =>
      if jsstring_eqb voice (js "constructor") then Some (js "Object")
      else if jsstring_eqb voice (js "__proto__") then None
      else Some voice
  end.

(** [req.body] of POST /generate, destructured. *)
Record GenerateRequest := {
  body_text : JsValue;
  generate_voice : option jsstring;
  generate_rate : option jsstring
}.

Inductive GenerateResponse :=
| GenerateBad (error : jsstring) (available : option (list jsstring))
| GenerateFailed (error message : jsstring)
| GenerateOk (audioPath : jsstring) (text : jsstring)
             (voice : option jsstring).

Definition generateVoice (r : GenerateRequest) : jsstring :=
  match generate_voice r with Some v => v | None => DEFAULT_VOICE end.

Definition generateRate (r : GenerateRequest) : jsstring :=
  match generate_rate r with Some x => x | None => DEFAULT_RATE end.

(** The file of a single text: [`${uuidv4()}.mp3`] in the audio directory. *)
Definition generateFilename (w : World) : jsstring := uuidv4 w ++ js ".mp3".

Definition generateOutputPath (w : World) : jsstring :=
  pathJoin w (audioDir w) (generateFilename w).

(** The handler awaits one promise, the one [generateAudio] returns already
    settled, so its answer is a function of the request; the engine calls
    are returned with it. *)
Definition generate (w : World) (r : GenerateRequest)
  : list ExecEvent * GenerateResponse :=
  match body_text r with
  | JString (c :: t) =>
      let text' := c :: t in
      if negb (voiceKnown (generateVoice r)) then
        ([], GenerateBad MSG_BAD_VOICE (Some VOICE_OPTIONS))
      else
        let (events, generated) :=
          generateAudio w 0 text' (generateVoice r) (generateOutputPath w)
                        (generateRate r) in
        (events,
         match generated with
         | Fulfilled _ =>
             GenerateOk (js "/audio/" ++ generateFilename w) text'
                        (voiceName (generateVoice r))
         | Rejected err =>
             GenerateFailed MSG_TTS_FAILED
                            (match message_of err with
                             | Some m => m
                             | None => []
                             end)
         end)
  | _ => ([], GenerateBad MSG_BAD_TEXT None)
  end.

(** *** POST /generate-word *)

Definition MSG_BAD_WORD := js "请提供有效的单词".
Definition MSG_WORD_FAILED := js "单词TTS生成失败".

Definition LOW_LINE : N := 95.   (* the underscore *)

(** The class [a-z0-9] of the file-name clean-up. *)
Definition isLowerAlnum (c : N) : bool :=
  ((97 <=? c)%N && (c <=? 122)%N) || ((48 <=? c)%N && (c <=? 57)%N).

(** [s.replace(/[^a-z0-9]/g, '_')]. *)
Definition underscoreOthers (s : jsstring) : jsstring :=
  map (fun c => if isLowerAlnum c then c else LOW_LINE) s.

(** What the word routes read from outside the source:
    [String.prototype.toLowerCase] (the Unicode lower-casing of the run
    time), [fs.existsSync] and the clock. *)
Record Runtime := {
  toLowerCase : jsstring -> jsstring;
  existsSync : jsstring -> bool;
  nowISOString : jsstring
}.

Definition safeWord (rt : Runtime) (word : jsstring) : jsstring :=
  underscoreOthers (toLowerCase rt word).

Definition wordFilename (rt : Runtime) (word : jsstring) : jsstring :=
  js "word_" ++ safeWord rt word ++ js ".mp3".

Record WordRequest := {
  body_word : JsValue;
  word_voice : option jsstring
}.

Inductive WordResponse :=
| WordBad (error : jsstring)
| WordFailed (error message : jsstring)
| WordOk (audioPath : jsstring) (word : jsstring) (cached : bool).

Definition wordVoice (r : WordRequest) : jsstring :=
  match word_voice r with Some v => v | None => DEFAULT_VOICE end.

Definition wordOutputPath (w : World) (rt : Runtime) (word : jsstring)
  : jsstring :=
  pathJoin w (audioDir w) (wordFilename rt word).

Definition generateWord (w : World) (rt : Runtime) (r : WordRequest)
  : list ExecEvent * WordResponse :=
  match body_word r with
  | JString (c :: t) =>
      let word' := c :: t in
      if existsSync rt (wordOutputPath w rt word') then
        ([], WordOk (js "/audio/" ++ wordFilename rt word') word' true)
      else
        let (events, generated) :=
          generateAudio w 0 word' (wordVoice r) (wordOutputPath w rt word')
                        (js "+0%") in
        (events,
         match generated with
         | Fulfilled _ =>
             WordOk (js "/audio/" ++ wordFilename rt word') word' false
         | Rejected err =>
             WordFailed MSG_WORD_FAILED
                        (match message_of err with
                         | Some m => m
                         | None => []
                         end)
         end)
  | _ => ([], WordBad MSG_BAD_WORD)
  end.

(** ** Notions about strings the further properties are stated with *)

(** Only white space (in the sense of [trim] and of the class [\s]). *)
Definition allWhite (s : jsstring) : bool := forallb isWhiteSpace s.

(** Neither the first nor the last unit is white space. *)
Definition edged (m : jsstring) : Prop :=
  match m with [] => True | c :: _ => isWhiteSpace c = false end
  /\ match rev m with [] => True | c :: _ => isWhiteSpace c = false end.

(** The three rewrites of [generateAudio] before its [trim]. *)
Definition rewriteText (text' : jsstring) : jsstring :=
  removeAll CR (replaceAll LF SPACE (replaceAll QUOTE APOSTROPHE text')).

(** The commands of the engine calls in a log. *)
Definition commandsOf (evs : list ExecEvent) : list jsstring :=
  flat_map (fun e => match e with
                     | ExecStart _ c => [c]
                     | ExecEnd _ => []
                     end) evs.

(** ** Sample runs of the other routes *)

(** Lower-casing of the ASCII letters, as [toLowerCase] does on them. *)
Definition asciiLower (c : N) : N :=
  if ((65 <=? c)%N && (c <=? 90)%N)%bool then (c + 32)%N else c.

(** A run time whose texts are ASCII, with the given files on disk. *)
Definition sampleRuntime (files : list jsstring) : Runtime :=
  {| toLowerCase := map asciiLower;
     existsSync := fun p => existsb (jsstring_eqb p) files;
     nowISOString := js "2025-01-01T00:00:00.000Z" |}.

(** A server on which only [python -m edge_tts] answers [--version]. *)
Definition pythonOnly (engine : jsstring -> ExecOutcome) : World :=
  {| execSync := engine;
     typeErrorMessage := fun _ => js "sentence.trim is not a function";
     pathJoin := fun dir name => dir ++ js "/" ++ name;
     audioDir := js "/srv/backend/public/audio";
     uuidv4 := js "batchXYZ";
     edgeTtsAvailable := false;
     versionProbe := fun cmd => jsstring_eqb cmd (js "python -m edge_tts") |}.

(** A server without the engine. *)
Definition noEngine : World :=
  {| execSync := fun _ => ExecThrows (js "spawn edge-tts ENOENT");
     typeErrorMessage := fun _ => js "sentence.trim is not a function";
     pathJoin := fun dir name => dir ++ js "/" ++ name;
     audioDir := js "/srv/backend/public/audio";
     uuidv4 := js "batchXYZ";
     edgeTtsAvailable := false;
     versionProbe := fun _ => false |}.

Definition sampleGenerate (text' : jsstring) (voice' : option jsstring)
  : GenerateRequest :=
  {| body_text := JString text'; generate_voice := voice';
     generate_rate := None |}.

Definition sampleWord (word : jsstring) (voice' : option jsstring)
  : WordRequest :=
  {| body_word := JString word; word_voice := voice' |}.

(** A sentence with white space around it and quotes inside. *)
Definition quotedSentence : jsstring :=
  js " Say " ++ [QUOTE] ++ js "hi." ++ [QUOTE] ++ js " ".

Definition FULL_STOP : N := 46.
Definition SOLIDUS : N := 47.
Definition REVERSE_SOLIDUS : N := 92.

(** ** documentRoutes.js: splitting a text into sentences *)

(** [text.replace(/\r\n/g, ' ')]: every CR LF pair becomes one space. *)
Fixpoint replaceCRLF (s : jsstring) : jsstring :=
  match s with
  | [] => []
  | c :: t =>
      match t with
      | d :: r =>
          if ((c =? CR)%N && (d =? LF)%N)%bool then SPACE :: replaceCRLF r
          else c :: replaceCRLF t
      | [] => [c]
      end
  end.

(** [s.replace(/\s+/g, ' ')]: every maximal run of white space becomes one
    space; [inRun] says that the unit before was white space. *)
Fixpoint collapseWhiteSpace (inRun : bool) (s : jsstring) : jsstring :=
  match s with
  | [] => []
  | c :: r =>
      if isWhiteSpace c then
        if inRun then collapseWhiteSpace true r
        else SPACE :: collapseWhiteSpace true r
      else c :: collapseWhiteSpace false r
  end.

Definition cleanedText (text' : jsstring) : jsstring :=
  trim (collapseWhiteSpace false (replaceAll LF SPACE (replaceCRLF text'))).

(** The class [[.!?]] of the look-behind. *)
Definition isStop (c : N) : bool :=
  ((c =? 46) || (c =? 33) || (c =? 63))%N.

(** [s.split(/(?<=[.!?])\s+/)]: the string is cut at every run of white
    space that follows a full stop, an exclamation mark or a question mark,
    and the run is dropped.  [cur] holds the piece being read, reversed;
    [prevStop] says that the unit before is in the class; [inRun] that a
    separator is being skipped. *)
Fixpoint splitFrom (inRun prevStop : bool) (cur rest : jsstring)
  : list jsstring :=
  match rest with
  | [] => [rev cur]
  | c :: r =>
      if inRun then
        if isWhiteSpace c then splitFrom true false [] r
        else splitFrom false (isStop c) [c] r
      else if (prevStop && isWhiteSpace c)%bool then
        rev cur :: splitFrom true false [] r
      else splitFrom false (isStop c) (c :: cur) r
  end.

Definition splitAfterStop (s : jsstring) : list jsstring :=
  splitFrom false false [] s.

Definition splitIntoSentences (text' : jsstring) : list jsstring :=
  filter (fun s => negb (List.length s =? 0))
         (map trim (splitAfterStop (cleanedText text'))).

(** POST /parse-text. *)
Inductive ParseResponse :=
| ParseBad (error : jsstring)
| ParseOk (totalSentences : nat) (sentences : list jsstring).

Definition parseText (body : JsValue) : ParseResponse :=
  match body with
  | JString (c :: t) =>
      ParseOk (List.length (splitIntoSentences (c :: t)))
              (splitIntoSentences (c :: t))
  | _ => ParseBad MSG_BAD_TEXT
  end.

(** *** Words and sentences, to state what the split returns *)

(** The words of a text: its maximal runs of units that are not white
    space, in order. *)
Fixpoint tokensFrom (cur s : jsstring) : list jsstring :=
  match s with
  | [] => match cur with [] => [] | _ => [rev cur] end
  | c :: r =>
      if isWhiteSpace c then
        match cur with
        | [] => tokensFrom [] r
        | _ => rev cur :: tokensFrom [] r
        end
      else tokensFrom (c :: cur) r
  end.

Definition tokens (s : jsstring) : list jsstring := tokensFrom [] s.

(** Words joined by single spaces. *)
Fixpoint unwords (ws : list jsstring) : jsstring :=
  match ws with
  | [] => []
  | w :: r =>
      match r with
      | [] => w
      | _ => w ++ SPACE :: unwords r
      end
  end.

Definition endsWithStop (w : jsstring) : bool :=
  match rev w with
  | c :: _ => isStop c
  | [] => false
  end.

(** Words gathered into sentences: a sentence is closed after every word
    that ends with a stop mark; [cur] is the sentence being gathered. *)
Fixpoint sentencesOf (cur : jsstring) (ws : list jsstring) : list jsstring :=
  match ws with
  | [] => match cur with [] => [] | _ => [cur] end
  | w :: r =>
      let cur' := match cur with [] => w | _ => cur ++ SPACE :: w end in
      if endsWithStop w then cur' :: sentencesOf [] r
      else sentencesOf cur' r
  end.

(** A word: not empty, no white space. *)
Definition isWord (w : jsstring) : Prop :=
  w <> [] /\ Forall (fun c => isWhiteSpace c = false) w.

(** The batch request the client builds from parsed sentences. *)
Definition batchOf (sents : list jsstring) (voice' rate' : option jsstring)
  : Request :=
  {| body_sentences := JArray (map JString sents);
     body_voice := voice'; body_rate := rate' |}.

(** Every white space is a single space with no white space before it. *)
Fixpoint singleSpaced (prevWhite : bool) (s : jsstring) : bool :=
  match s with
  | [] => true
  | c :: r =>
      if isWhiteSpace c then
        ((c =? SPACE)%N && negb prevWhite && singleSpaced true r)%bool
      else singleSpaced false r
  end.

Definition startsBlack (m : jsstring) : Prop :=
  match m with [] => True | c :: _ => isWhiteSpace c = false end.

Definition endsBlack (m : jsstring) : Prop := startsBlack (rev m).

(** The sentence being gathered, with the space that follows it. *)
Definition spaced (P : jsstring) : jsstring :=
  match P with [] => [] | _ => P ++ [SPACE] end.

(** ** The client: SentenceList.tsx *)

Record SentenceItem := {
  item_id : jsstring;
  item_text : jsstring;
  item_explanation : jsstring;
  item_audioPath : option jsstring;
  item_hasAudio : bool
}.

Definition MAX_HISTORY : nat := 20.

(** [item.text.trim()] is truthy. *)
Definition hasText (item : SentenceItem) : bool :=
  match trim (item_text item) with [] => false | _ => true end.

(** [sentenceItems.filter(item => item.text.trim()).map(item => item.text)] *)
Definition textsToGenerate (items : list SentenceItem) : list jsstring :=
  map item_text (filter hasText items).

Definition withAudio (item : SentenceItem) (path : option jsstring)
  : SentenceItem :=
  {| item_id := item_id item; item_text := item_text item;
     item_explanation := item_explanation item;
     item_audioPath := path; item_hasAudio := true |}.

(** The [prev.map(..)] of [handleGenerateAll], with its counter
    [resultIndex]. *)
Fixpoint attachAudio (results' : list JobResult) (resultIndex : nat)
         (items : list SentenceItem) : list SentenceItem :=
  match items with
  | [] => []
  | item :: rest =>
      if hasText item then
        match nth_error results' resultIndex with
        | Some audioResult =>
            if success audioResult
            then withAudio item (audioPath audioResult)
            else item
        | None => item
        end :: attachAudio results' (S resultIndex) rest
      else item :: attachAudio results' resultIndex rest
  end.

(** [handleGenerateAll], with the server of the batch route behind the
    call: the items as they are afterwards.  An answer that is not 2xx makes
    the client's request throw, and the items stay as they were; the items
    are taken not to change while the request is under way. *)
Definition handleGenerateAll (w : World) (selectedVoice selectedRate : jsstring)
           (items : list SentenceItem) : list SentenceItem :=
  match items with
  | [] => []
  | _ =>
      match generateBatch w (batchOf (textsToGenerate items)
                                     (Some selectedVoice)
                                     (Some selectedRate)) with
      | Some (BatchOk _ _ _ results') => attachAudio results' 0 items
      | _ => items
      end
  end.

(** *** handleAudioEnded: which sentence plays next *)

(** [items[i]?.hasAudio], false beyond the end of the list. *)
Definition hasAudioAt (items : list SentenceItem) (i : nat) : bool :=
  match nth_error items i with
  | Some item => item_hasAudio item
  | None => false
  end.

(** The two [while] loops: the first index from [from] on, among [count],
    whose item has audio. *)
Fixpoint searchAudio (items : list SentenceItem) (from count : nat)
  : option nat :=
  match count with
  | 0 => None
  | S n =>
      if hasAudioAt items from then Some from
      else searchAudio items (S from) n
  end.

Inductive Playback :=
| PlayIndex (i : nat)      (* [setCurrentPlayingIndex(nextIndex)] *)
| Retrigger (i : nat)      (* [null], then the same index again *)
| KeepSilent.

Definition handleAudioEnded (isAutoPlay : bool) (items : list SentenceItem)
           (currentIndex : option nat) : Playback :=
  if negb isAutoPlay then KeepSilent
  else
    match currentIndex with
    | None => KeepSilent
    | Some current =>
        match searchAudio items (current + 1)
                          (List.length items - (current + 1)) with
        | Some next => PlayIndex next
        | None =>
            match searchAudio items 0 current with
            | Some next => PlayIndex next
            | None =>
                if hasAudioAt items current then Retrigger current
                else KeepSilent
            end
        end
    end.

(** The indices of the items with audio in a stretch of the list. *)
Definition audioIndices (items : list SentenceItem) (from count : nat)
  : list nat :=
  filter (hasAudioAt items) (seq from count).

(** *** The list of items and its bound *)

Definition newItem (id text' : jsstring) : SentenceItem :=
  {| item_id := id; item_text := text'; item_explanation := [];
     item_audioPath := None; item_hasAudio := false |}.

(** New sentences arrive: [[...newItems, ...prev].slice(0, MAX_HISTORY)];
    [ids] are the identifiers [generateId] draws. *)
Definition addSentences (ids inputSentences : list jsstring)
           (prev : list SentenceItem) : list SentenceItem :=
  match inputSentences with
  | [] => prev
  | _ =>
      firstn MAX_HISTORY
             (map (fun p => newItem (fst p) (snd p))
                  (combine ids inputSentences) ++ prev)
  end.

(** [handleSaveEdit]: the edited item loses its audio.  [editingId] is a
    string or [null] ([None]); when it is falsy, that is [null] or the empty
    string, the handler returns before it touches the list. *)
Definition saveEdit (editingId : option jsstring)
           (editText editExplanation : jsstring)
           (prev : list SentenceItem) : list SentenceItem :=
  match editingId with
  | None | Some [] => prev
  | Some id =>
      map (fun item =>
             if jsstring_eqb (item_id item) id then
               {| item_id := item_id item; item_text := editText;
                  item_explanation := editExplanation;
                  item_audioPath := None; item_hasAudio := false |}
             else item) prev
  end.

(** *** useWordSelection: extractWord *)

Definition isLetter (c : N) : bool :=
  ((65 <=? c)%N && (c <=? 90)%N) || ((97 <=? c)%N && (c <=? 122)%N).

Fixpoint dropNonLetters (s : jsstring) : jsstring :=
  match s with
  | [] => []
  | c :: r => if isLetter c then s else dropNonLetters r
  end.

(** [s.replace(/^[^a-zA-Z]+|[^a-zA-Z]+$/g, '')]: the run of other units at
    the start and the one at the end are removed. *)
Definition stripNonLetters (s : jsstring) : jsstring :=
  rev (dropNonLetters (rev (dropNonLetters s))).

(** [s.split(/\s+/)[0]]: what stands before the first white space. *)
Fixpoint firstPiece (s : jsstring) : jsstring :=
  match s with
  | [] => []
  | c :: r => if isWhiteSpace c then [] else c :: firstPiece r
  end.

(** [toLowerCase] on a word of ASCII letters, the only ones that pass the
    test [/^[a-zA-Z]{2,}$/]. *)
Definition lowerLetters (s : jsstring) : jsstring := map asciiLower s.

Definition extractWord (text' : jsstring) : option jsstring :=
  match stripNonLetters (trim text') with
  | [] => None
  | cleaned =>
      let firstWord := firstPiece cleaned in
      if (forallb isLetter firstWord && (2 <=? List.length firstWord))%bool
      then Some (lowerLetters firstWord)
      else None
  end.



Definition sampleItems : list SentenceItem :=
  [newItem (js "s1") (js "Hello world."); newItem (js "s2") (js "  ");
   newItem (js "s3") (js "Second sentence.")].

(** ** The word book (backend/src/routes/wordBookRoutes.js)

    The routes keep the book in one JSON file.  [index.js] creates the file
    holding [[]], and every route that writes it writes an array of objects
    with the six keys [word], [phonetic], [meaning], [source], [addedAt] and
    [audioPath], [word] being a string ([word.trim()]); the other five hold
    whatever JSON value the request gave.  The model takes a readable file to
    hold such an array; a file that is missing or does not parse is [None]. *)

Record WordEntry := {
  entry_word : jsstring;
  entry_phonetic : JsValue;
  entry_meaning : JsValue;
  entry_source : JsValue;
  entry_addedAt : JsValue;
  entry_audioPath : JsValue
}.

Definition BookFile := option (list WordEntry).

(** [readWordBook]: a read or parse error is caught and gives [[]]. *)
Definition readWordBook (file : BookFile) : list WordEntry :=
  match file with
  | Some words => words
  | None => []
  end.

Definition saveWordBook (words : list WordEntry) : BookFile := Some words.

(** What [!v] negates. *)
Definition truthy (v : JsValue) : bool :=
  match v with
  | JUndefined | JNull => false
  | JBool b => b
  | JNumber n => negb (n =? 0)%Z
  | JString [] => false
  | JString (_ :: _) => true
  | JArray _ | JObject _ => true
  end.

(** [v || d] *)
Definition orElse (v d : JsValue) : JsValue := if truthy v then v else d.

(** [Array.prototype.findIndex], [None] for [-1]. *)
Fixpoint findIndex {A : Type} (p : A -> bool) (l : list A) : option nat :=
  match l with
  | [] => None
  | a :: r => if p a then Some 0 else option_map S (findIndex p r)
  end.

(** [l[i] = x] for an [i] within the array. *)
Fixpoint setAt {A : Type} (i : nat) (x : A) (l : list A) : list A :=
  match l, i with
  | [], _ => []
  | _ :: r, 0 => x :: r
  | a :: r, S i' => a :: setAt i' x r
  end.

(** [l.splice(i, 1)]: what is left of [l]. *)
Fixpoint removeAt {A : Type} (i : nat) (l : list A) : list A :=
  match l, i with
  | [], _ => []
  | _ :: r, 0 => r
  | a :: r, S i' => a :: removeAt i' r
  end.

(** [w => w.word.toLowerCase() === target.toLowerCase()] *)
Definition sameWord (rt : Runtime) (target : jsstring) (w : WordEntry)
  : bool :=
  jsstring_eqb (toLowerCase rt (entry_word w)) (toLowerCase rt target).

Inductive BookResponse :=
| BookRejected (status : nat) (error : jsstring)
| BookFailed (error : jsstring)
    (* status 500; [message] is the run time's text of the exception *)
| BookChanged (message : jsstring) (word : WordEntry)
| BookImported (message : jsstring) (total : nat).

Definition MSG_WORD_AND_MEANING := js "单词和释义为必填项".
Definition MSG_WORD_UPDATED := js "单词已更新".
Definition MSG_WORD_ADDED := js "单词已添加".
Definition MSG_ADD_FAILED := js "添加单词失败".
Definition MSG_NO_SUCH_WORD := js "单词不存在".
Definition MSG_WORD_DELETED := js "单词已删除".
Definition MSG_DELETE_FAILED := js "删除单词失败".
Definition MSG_BAD_IMPORT := js "请提供有效的单词数组".
Definition MSG_IMPORT_FAILED := js "导入失败".

(** *** POST / *)

Record AddBody := {
  add_word : JsValue;
  add_phonetic : JsValue;
  add_meaning : JsValue;
  add_source : JsValue
}.

(** The template [/audio/word_${word.toLowerCase().replace(/[^a-z0-9]/g,
    '_')}.mp3] of POST / and of the import. *)
Definition wordAudioPath (rt : Runtime) (word : jsstring) : jsstring :=
  js "/audio/word_" ++ underscoreOthers (toLowerCase rt word) ++ js ".mp3".

(** A truthy [word] or [meaning] that is no string has no [toLowerCase] and
    no [trim]: the call throws, nothing has been written, and the [catch]
    answers 500. *)
Definition addWord (rt : Runtime) (file : BookFile) (body : AddBody)
  : BookFile * BookResponse :=
  if negb (truthy (add_word body)) || negb (truthy (add_meaning body)) then
    (file, BookRejected 400 MSG_WORD_AND_MEANING)
  else
    match add_word body, add_meaning body with
    | JString word, JString meaning =>
        let words := readWordBook file in
        let existingIndex := findIndex (sameWord rt word) words in
        let newWord :=
          {| entry_word := trim word;
             entry_phonetic := orElse (add_phonetic body) (JString []);
             entry_meaning := JString (trim meaning);
             entry_source := orElse (add_source body) (JString []);
             entry_addedAt := JString (nowISOString rt);
             entry_audioPath := JString (wordAudioPath rt word) |} in
        match existingIndex with
        | Some i =>
            (saveWordBook (setAt i newWord words),
             BookChanged MSG_WORD_UPDATED newWord)
        | None =>
            (saveWordBook (words ++ [newWord]),
             BookChanged MSG_WORD_ADDED newWord)
        end
    | _, _ => (file, BookFailed MSG_ADD_FAILED)
    end.

(** *** DELETE /:word *)

Definition deleteWord (rt : Runtime) (file : BookFile) (targetWord : jsstring)
  : BookFile * BookResponse :=
  let words := readWordBook file in
  match findIndex (sameWord rt targetWord) words with
  | None => (file, BookRejected 404 MSG_NO_SUCH_WORD)
  | Some i =>
      match nth_error words i with
      | Some deletedWord =>
          (saveWordBook (removeAt i words),
           BookChanged MSG_WORD_DELETED deletedWord)
      | None => (file, BookFailed MSG_DELETE_FAILED)
      end
  end.

(** *** GET /export/json

    The route sends [JSON.stringify(words, null, 2)]; [exportJson] is the
    value a JSON parser reads from that text. *)

Definition entryJson (e : WordEntry) : JsValue :=
  JObject [(js "word", JString (entry_word e));
           (js "phonetic", entry_phonetic e);
           (js "meaning", entry_meaning e);
           (js "source", entry_source e);
           (js "addedAt", entry_addedAt e);
           (js "audioPath", entry_audioPath e)].

Definition exportJson (file : BookFile) : JsValue :=
  JArray (map entryJson (readWordBook file)).

(** *** POST /import *)

Record ImportBody := {
  import_words : JsValue;
  import_merge : JsValue     (* [JUndefined]: absent, the default applies *)
}.

(** [v.key] for one of the six keys of an entry, which no prototype
    defines: reading it from [null] or [undefined] throws ([None]), an
    object gives its own property (the last one of that name in the JSON
    text), every other value gives [undefined]. *)
Definition getProp (key : jsstring) (v : JsValue) : option JsValue :=
  match v with
  | JUndefined | JNull => None
  | JObject fields =>
      Some match find (fun p => jsstring_eqb key (fst p)) (rev fields) with
           | Some p => snd p
           | None => JUndefined
           end
  | _ => Some JUndefined
  end.

Record ImportState := {
  currentWords : list WordEntry;
  addedCount : nat;
  updatedCount : nat
}.

(** One turn of [importWords.forEach]; [None] when it throws. *)
Definition importOne (rt : Runtime) (st : ImportState) (importWord : JsValue)
  : option ImportState :=
  match getProp (js "word") importWord,
        getProp (js "meaning") importWord,
        getProp (js "phonetic") importWord,
        getProp (js "source") importWord,
        getProp (js "addedAt") importWord,
        getProp (js "audioPath") importWord with
  | Some word, Some meaning, Some phonetic, Some source, Some addedAt,
    Some audioPath' =>
      if negb (truthy word) || negb (truthy meaning) then Some st
      else
        match word, meaning with
        | JString word', JString meaning' =>
            let existingIndex :=
              findIndex (sameWord rt word') (currentWords st) in
            let wordData :=
              {| entry_word := trim word';
                 entry_phonetic := orElse phonetic (JString []);
                 entry_meaning := JString (trim meaning');
                 entry_source := orElse source (JString []);
                 entry_addedAt :=
                   orElse addedAt (JString (nowISOString rt));
                 entry_audioPath :=
                   orElse audioPath' (JString (wordAudioPath rt word')) |} in
            match existingIndex with
            | Some i =>
                Some {| currentWords := setAt i wordData (currentWords st);
                        addedCount := addedCount st;
                        updatedCount := S (updatedCount st) |}
            | None =>
                Some {| currentWords := currentWords st ++ [wordData];
                        addedCount := S (addedCount st);
                        updatedCount := updatedCount st |}
            end
        | _, _ => None
        end
  | _, _, _, _, _, _ => None
  end.

Fixpoint importEach (rt : Runtime) (st : ImportState) (items : list JsValue)
  : option ImportState :=
  match items with
  | [] => Some st
  | importWord :: rest =>
      match importOne rt st importWord with
      | Some st' => importEach rt st' rest
      | None => None
      end
  end.

Definition importMessage (added updated : nat) : jsstring :=
  js "导入完成：新增 " ++ String_of_nat added ++ js " 个，更新 "
  ++ String_of_nat updated ++ js " 个".

(** [merge = true] in the destructuring: the default stands for an absent
    [merge] only. *)
Definition mergeOf (body : ImportBody) : bool :=
  match import_merge body with
  | JUndefined => true
  | v => truthy v
  end.

Definition importStart (file : BookFile) (body : ImportBody) : ImportState :=
  {| currentWords := if mergeOf body then readWordBook file else [];
     addedCount := 0; updatedCount := 0 |}.

Definition importWords (rt : Runtime) (file : BookFile) (body : ImportBody)
  : BookFile * BookResponse :=
  match import_words body with
  | JArray items =>
      match importEach rt (importStart file body) items with
      | Some st =>
          (saveWordBook (currentWords st),
           BookImported (importMessage (addedCount st) (updatedCount st))
                        (List.length (currentWords st)))
      | None => (file, BookFailed MSG_IMPORT_FAILED)
      end
  | _ => (file, BookRejected 400 MSG_BAD_IMPORT)
  end.

(** *** Notions about the book *)

(** The key the routes compare entries by. *)
Definition wordKey (rt : Runtime) (e : WordEntry) : jsstring :=
  toLowerCase rt (entry_word e).

(** No two entries of the book have the same lower-cased word. *)
Definition distinctWords (rt : Runtime) (words : list WordEntry) : Prop :=
  NoDup (map (wordKey rt) words).

(** An item of an import that the loop does not pass over. *)
Definition usable (importWord : JsValue) : bool :=
  match getProp (js "word") importWord,
        getProp (js "meaning") importWord with
  | Some word, Some meaning => truthy word && truthy meaning
  | _, _ => false
  end.

(** An entry that an import of its own export writes back as it is: word
    and meaning are trimmed and not empty, and the four other values are
    kept by [||] (they are truthy, or the empty default itself). *)
Definition importsAsItself (e : WordEntry) : bool :=
  match entry_word e with [] => false | _ => true end
  && jsstring_eqb (trim (entry_word e)) (entry_word e)
  && match entry_meaning e with
     | JString [] => false
     | JString m => jsstring_eqb (trim m) m
     | _ => false
     end
  && match entry_phonetic e with
     | JString [] => true
     | v => truthy v
     end
  && match entry_source e with
     | JString [] => true
     | v => truthy v
     end
  && truthy (entry_addedAt e)
  && truthy (entry_audioPath e).

Definition sampleAdd (word meaning : jsstring) : AddBody :=
  {| add_word := JString word; add_phonetic := JUndefined;
     add_meaning := JString meaning; add_source := JUndefined |}.

Definition sampleEntry (rt : Runtime) (word meaning : jsstring) : WordEntry :=
  {| entry_word := word; entry_phonetic := JString [];
     entry_meaning := JString meaning; entry_source := JString [];
     entry_addedAt := JString (nowISOString rt);
     entry_audioPath := JString (wordAudioPath rt word) |}.

Definition sampleApple : WordEntry :=
  sampleEntry (sampleRuntime []) (js "apple") (js "fruit").

(** Three items: a new word, one without a meaning, and the first word
    again in another letter case. *)
Definition sampleImport : ImportBody :=
  {| import_words :=
       JArray [JObject [(js "word", JString (js "pear"));
                        (js "meaning", JString (js "fruit"))];
               JObject [(js "word", JString (js "fig"))];
               JObject [(js "word", JString (js "Pear"));
                        (js "meaning", JString (js "tree"))]];
     import_merge := JUndefined |}.

(** ** Auxiliary notions of the proofs *)

(** A job whose promise stands in [results] also stands in [executing]. *)
Definition paired (i : nat) (st : state) : Prop :=
  In (PResult i) (results st) -> In (PExec i) (executing st).

(** What the first job of the queue contributes to the counters. *)
Definition jobReaction (j : job) (r : reaction) : nat :=
  match j with
  | JReaction r' _ => if reaction_eq_dec r' r then 1 else 0
  | JThenable _ _ => 0
  end.

Definition jobThenable (j : job) (x t : pid) : nat :=
  match j with
  | JThenable x' t' =>
      if pid_eq_dec x' x then if pid_eq_dec t' t then 1 else 0 else 0
  | JReaction _ _ => 0
  end.

(** The [then] calls of [Promise.allSettled] over the results [ks]. *)
Definition registerAll (ks : list nat) (st : state) : state :=
  fold_left (fun s ip => then_ (snd ip) (RAllElement (fst ip)) s)
            (map (fun i => (i, PResult i)) ks) st.

(** The promises the potential is summed over. *)
Definition inDomain (n : nat) (x : pid) : Prop :=
  match x with
  | PResult k | PTask k | PExec k | PRace k => k < n
  | PAll | PLimit => True
  end.

(** Between two jobs [parallelLimit] is suspended or has returned. *)
Definition suspended (ms : status) : Prop :=
  match ms with
  | Running _ => False
  | _ => True
  end.

(** The tasks the queue still has to call. *)
Definition callOf (j : job) : list nat :=
  match j with
  | JReaction (RCallTask k) _ => [k]
  | _ => []
  end.

Definition calls (q : list job) : list nat := flat_map callOf q.

Definition isCall (r : reaction) : bool :=
  match r with
  | RCallTask _ => true
  | _ => false
  end.

(** No promise holds a task to call: those jobs are queued at once. *)
Definition quiet (st : state) : Prop :=
  forall x rs, heap st x = Pending rs -> Forall (fun r => isCall r = false) rs.

(** [st'] differs from [st] in nothing the order of the calls depends on. *)
Definition keeps (st st' : state) : Prop :=
  quiet st ->
  quiet st' /\ calls (queue st') = calls (queue st)
  /\ results st' = results st /\ log st' = log st.

(** Jobs are called in input order: the tasks waiting in the queue are the
    next ones, and the log holds the calls of those before. *)
Definition InOrder (w : World) (req : Request) (st : state) : Prop :=
  exists c,
    c <= List.length (results st)
    /\ calls (queue st) = seq c (List.length (results st) - c)
    /\ log st = expectedLog w req c.

(** ** Counting lemmas *)

Lemma cntR_app r q1 q2 : cntR r (q1 ++ q2) = cntR r q1 + cntR r q2.
Proof.
  induction q1 as [|[r' o|x t] q1 IH]; simpl; rewrite ?IH; lia.
Qed.

Lemma cntT_app x t q1 q2 : cntT x t (q1 ++ q2) = cntT x t q1 + cntT x t q2.
Proof.
  induction q1 as [|[r' o|x' t'] q1 IH]; simpl; rewrite ?IH; lia.
Qed.

Lemma cntR_reactions r o rs :
  cntR r (map (fun r' => JReaction r' o) rs) = count_occ reaction_eq_dec rs r.
Proof.
  induction rs as [|r' rs IH]; simpl; [reflexivity|].
  rewrite IH. destruct (reaction_eq_dec r' r); reflexivity.
Qed.

Lemma cntT_reactions x t o rs :
  cntT x t (map (fun r' => JReaction r' o) rs) = 0.
Proof. induction rs; simpl; auto. Qed.

Lemma count_occ_snoc (rs : list reaction) r r' :
  count_occ reaction_eq_dec (rs ++ [r']) r
  = count_occ reaction_eq_dec rs r + (if reaction_eq_dec r' r then 1 else 0).
Proof.
  rewrite count_occ_app. simpl. destruct (reaction_eq_dec r' r); lia.
Qed.

Lemma count_occ_not_allowed (P : reaction -> Prop) rs r :
  Forall P rs -> ~ P r -> count_occ reaction_eq_dec rs r = 0.
Proof.
  intros HF Hn. apply count_occ_not_In. intro Hin.
  rewrite Forall_forall in HF. auto.
Qed.

(** ** Effects of the primitive operations on the counters *)

Section Effects.

Variable req : Request.
Variable limit : nat.

Local Abbreviation allowed := (allowed req limit).

Lemma allowed_home x r :
  allowed x r -> home r = x \/ exists j, r = RRace j.
Proof.
  destruct x, r; simpl; try tauto; try (destruct target; simpl; try tauto);
    intros; try (left; f_equal; lia); eauto.
Qed.

Lemma rc_elsewhere x r c :
  match c with Pending rs => Forall (allowed x) rs | Settled _ => True end ->
  home r <> x -> (forall j, r <> RRace j) -> rc r c = 0.
Proof.
  destruct c as [rs|o]; simpl; auto.
  intros HF Hh Hr. apply count_occ_not_allowed with (P := allowed x); auto.
  intro Ha. destruct (allowed_home x r Ha) as [E|[j E]]; [auto | exact (Hr j E)].
Qed.

Lemma heap_set_heap x c st y :
  heap (set_heap x c st) y = if pid_eq_dec x y then c else heap st y.
Proof. reflexivity. Qed.

Lemma tot_settle r x o st :
  match heap st x with
  | Pending rs => Forall (allowed x) rs
  | Settled _ => True
  end ->
  (forall j, r <> RRace j) ->
  tot r (settle x o st) = tot r st.
Proof.
  intros HF Hr. unfold tot, settle.
  destruct (heap st x) as [rs|o'] eqn:E; [|reflexivity].
  simpl. rewrite cntR_app, cntR_reactions.
  destruct (pid_eq_dec x (home r)) as [->|Hne].
  - rewrite E. simpl. lia.
  - assert (count_occ reaction_eq_dec rs r = 0).
    { apply (rc_elsewhere x r (Pending rs)); auto. }
    lia.
Qed.

Lemma tot_settle_le r x o st : tot r st <= tot r (settle x o st).
Proof.
  unfold tot, settle.
  destruct (heap st x) as [rs|o'] eqn:E; [|lia].
  simpl. rewrite cntR_app, cntR_reactions.
  destruct (pid_eq_dec x (home r)) as [->|Hne].
  - rewrite E. simpl. lia.
  - lia.
Qed.

Lemma sl_settle x o st y :
  sl (heap (settle x o st) y)
  = if pid_eq_dec x y then 1 else sl (heap st y).
Proof.
  unfold settle. destruct (heap st x) as [rs|o'] eqn:E; simpl.
  - destruct (pid_eq_dec x y); reflexivity.
  - destruct (pid_eq_dec x y) as [<-|]; [rewrite E|]; reflexivity.
Qed.

Lemma cntT_settle a b x o st :
  cntT a b (queue (settle x o st)) = cntT a b (queue st).
Proof.
  unfold settle. destruct (heap st x); simpl; auto.
  rewrite cntT_app, cntT_reactions. lia.
Qed.

Lemma tot_then r x r' st :
  home r' = x ->
  tot r (then_ x r' st) = tot r st + (if reaction_eq_dec r' r then 1 else 0).
Proof.
  intros <-. unfold tot, then_.
  destruct (heap st (home r')) as [rs|o'] eqn:E; simpl.
  - destruct (pid_eq_dec (home r') (home r)) as [Eq|Hne].
    + rewrite <- Eq, E. simpl. rewrite count_occ_snoc. lia.
    + destruct (reaction_eq_dec r' r) as [->|]; [congruence | lia].
  - rewrite cntR_app. simpl. lia.
Qed.

Lemma tot_then_other r x r' st :
  r' <> r -> tot r (then_ x r' st) = tot r st.
Proof.
  intros Hne. unfold tot, then_.
  destruct (heap st x) as [rs|o'] eqn:E; simpl.
  - destruct (pid_eq_dec x (home r)) as [Eq|Hn]; [|lia].
    rewrite <- Eq, E. simpl. rewrite count_occ_snoc.
    destruct (reaction_eq_dec r' r); [contradiction | lia].
  - rewrite cntR_app. simpl.
    destruct (reaction_eq_dec r' r); [contradiction | lia].
Qed.

Lemma tot_then_le r x r' st : tot r st <= tot r (then_ x r' st).
Proof.
  unfold tot, then_.
  destruct (heap st x) as [rs|o'] eqn:E; simpl.
  - destruct (pid_eq_dec x (home r)) as [Eq|Hn]; [|lia].
    rewrite <- Eq, E. simpl. rewrite count_occ_snoc. lia.
  - rewrite cntR_app. lia.
Qed.

Lemma sl_then x r st y : sl (heap (then_ x r st) y) = sl (heap st y).
Proof.
  unfold then_. destruct (heap st x) as [rs|o'] eqn:E; simpl; auto.
  destruct (pid_eq_dec x y) as [<-|]; [rewrite E|]; reflexivity.
Qed.

Lemma cntT_then a b x r st :
  cntT a b (queue (then_ x r st)) = cntT a b (queue st).
Proof.
  unfold then_. destruct (heap st x); simpl; auto.
  rewrite cntT_app. simpl. lia.
Qed.

Lemma tot_enqueue_reaction r r' o st :
  tot r (enqueue (JReaction r' o) st)
  = tot r st + (if reaction_eq_dec r' r then 1 else 0).
Proof. unfold tot, enqueue. simpl. rewrite cntR_app. simpl. lia. Qed.

Lemma tot_enqueue_thenable r a b st :
  tot r (enqueue (JThenable a b) st) = tot r st.
Proof. unfold tot, enqueue. simpl. rewrite cntR_app. simpl. lia. Qed.

Lemma cntT_enqueue_reaction a b r o st :
  cntT a b (queue (enqueue (JReaction r o) st)) = cntT a b (queue st).
Proof. unfold enqueue. simpl. rewrite cntT_app. simpl. lia. Qed.

Lemma cntT_enqueue_thenable a b x t st :
  cntT a b (queue (enqueue (JThenable x t) st))
  = cntT a b (queue st)
    + (if pid_eq_dec x a then if pid_eq_dec t b then 1 else 0 else 0).
Proof. unfold enqueue. simpl. rewrite cntT_app. simpl. lia. Qed.

End Effects.

(** ** Well-typed heaps and queues are preserved *)

Section Typing.

Variable w : World.
Variable req : Request.
Variable limit : nat.

Local Abbreviation allowed := (allowed req limit).
Local Abbreviation out_ok := (out_ok w req).
Local Abbreviation job_ok := (job_ok w req limit).
Local Abbreviation Typed := (Typed w req limit).

Lemma job_ok_reaction x r o :
  allowed x r -> out_ok x o -> job_ok (JReaction r o).
Proof.
  intros Ha Ho. destruct r; simpl; eauto; destruct x; simpl in Ha; tauto.
Qed.

Lemma Typed_pop st j q :
  Typed st -> queue st = j :: q -> Typed (set_queue q st) /\ job_ok j.
Proof.
  intros [Hq Hh] E. rewrite E in Hq. inversion Hq; subst.
  split; [split|]; auto.
Qed.

Lemma Typed_enqueue st j : Typed st -> job_ok j -> Typed (enqueue j st).
Proof.
  intros [Hq Hh] Hj. split; auto. simpl.
  apply Forall_app; split; auto.
Qed.

Lemma Typed_settle st x o : Typed st -> out_ok x o -> Typed (settle x o st).
Proof.
  intros [Hq Hh] Ho. unfold settle.
  destruct (heap st x) as [rs|o'] eqn:E; [|split; auto].
  split; simpl.
  - apply Forall_app; split; auto.
    specialize (Hh x). rewrite E in Hh. simpl in Hh.
    apply Forall_map. eapply Forall_impl; [|exact Hh].
    intros r Ha. eapply job_ok_reaction; eauto.
  - intros y. destruct (pid_eq_dec x y) as [<-|]; simpl; auto.
Qed.

Lemma Typed_then st x r : Typed st -> allowed x r -> Typed (then_ x r st).
Proof.
  intros [Hq Hh] Ha. unfold then_.
  destruct (heap st x) as [rs|o'] eqn:E.
  - split; simpl; auto.
    intros y. destruct (pid_eq_dec x y) as [<-|]; simpl; auto.
    specialize (Hh x). rewrite E in Hh. simpl in Hh.
    apply Forall_app; split; auto.
  - apply Typed_enqueue; [split; auto|].
    specialize (Hh x). rewrite E in Hh. simpl in Hh.
    eapply job_ok_reaction; eauto.
Qed.

Lemma Typed_same st st' :
  queue st' = queue st -> heap st' = heap st -> Typed st -> Typed st'.
Proof. intros Eq Eh [Hq Hh]. split; rewrite ?Eq, ?Eh; auto. Qed.

Lemma Typed_cell st x :
  Typed st ->
  match heap st x with
  | Pending rs => Forall (allowed x) rs
  | Settled _ => True
  end.
Proof.
  intros [_ Hh]. specialize (Hh x). destruct (heap st x); simpl in *; auto.
Qed.

Lemma Typed_settled st x o :
  Typed st -> heap st x = Settled o -> out_ok x o.
Proof. intros [_ Hh] E. specialize (Hh x). rewrite E in Hh. exact Hh. Qed.

(** Reactions that are never stored have no copy on any cell. *)
Lemma rc_call st k x : Typed st -> rc (RCallTask k) (heap st x) = 0.
Proof.
  intros HT. pose proof (Typed_cell st x HT) as Hc.
  destruct (heap st x) as [rs|]; simpl; auto.
  apply count_occ_not_allowed with (P := allowed x); auto.
  destruct x; simpl; tauto.
Qed.

Lemma rc_resume st k x : Typed st -> rc (RTaskResume k) (heap st x) = 0.
Proof.
  intros HT. pose proof (Typed_cell st x HT) as Hc.
  destruct (heap st x) as [rs|]; simpl; auto.
  apply count_occ_not_allowed with (P := allowed x); auto.
  destruct x; simpl; tauto.
Qed.

End Typing.

(** ** Fields that the primitive operations leave alone *)

Lemma fields_settle x o st :
  results (settle x o st) = results st
  /\ executing (settle x o st) = executing st
  /\ allValues (settle x o st) = allValues st
  /\ remaining (settle x o st) = remaining st
  /\ log (settle x o st) = log st
  /\ response (settle x o st) = response st.
Proof. unfold settle. destruct (heap st x); simpl; auto 10. Qed.

Lemma fields_then x r st :
  results (then_ x r st) = results st
  /\ executing (then_ x r st) = executing st
  /\ allValues (then_ x r st) = allValues st
  /\ remaining (then_ x r st) = remaining st
  /\ log (then_ x r st) = log st
  /\ response (then_ x r st) = response st.
Proof. unfold then_. destruct (heap st x); simpl; auto 10. Qed.

Lemma results_settle x o st : results (settle x o st) = results st.
Proof. apply fields_settle. Qed.
Lemma executing_settle x o st : executing (settle x o st) = executing st.
Proof. apply fields_settle. Qed.
Lemma allValues_settle x o st : allValues (settle x o st) = allValues st.
Proof. apply fields_settle. Qed.
Lemma remaining_settle x o st : remaining (settle x o st) = remaining st.
Proof. apply fields_settle. Qed.
Lemma log_settle x o st : log (settle x o st) = log st.
Proof. apply fields_settle. Qed.
Lemma response_settle x o st : response (settle x o st) = response st.
Proof. apply fields_settle. Qed.
Lemma results_then x r st : results (then_ x r st) = results st.
Proof. apply fields_then. Qed.
Lemma executing_then x r st : executing (then_ x r st) = executing st.
Proof. apply fields_then. Qed.
Lemma allValues_then x r st : allValues (then_ x r st) = allValues st.
Proof. apply fields_then. Qed.
Lemma remaining_then x r st : remaining (then_ x r st) = remaining st.
Proof. apply fields_then. Qed.
Lemma log_then x r st : log (then_ x r st) = log st.
Proof. apply fields_then. Qed.
Lemma response_then x r st : response (then_ x r st) = response st.
Proof. apply fields_then. Qed.

Lemma recorded_same k st st' :
  allValues st' = allValues st -> recorded k st' = recorded k st.
Proof. unfold recorded. intros ->. reflexivity. Qed.

Lemma recorded_settle k x o st : recorded k (settle x o st) = recorded k st.
Proof. apply recorded_same, allValues_settle. Qed.
Lemma recorded_then k x r st : recorded k (then_ x r st) = recorded k st.
Proof. apply recorded_same, allValues_then. Qed.


Lemma tot_set_results r l st : tot r (set_results l st) = tot r st.
Proof. reflexivity. Qed.
Lemma tot_set_executing r l st : tot r (set_executing l st) = tot r st.
Proof. reflexivity. Qed.
Lemma tot_set_all r vs n st : tot r (set_all vs n st) = tot r st.
Proof. reflexivity. Qed.
Lemma tot_add_log r evs st : tot r (add_log evs st) = tot r st.
Proof. reflexivity. Qed.
Lemma tot_set_response r x st : tot r (set_response x st) = tot r st.
Proof. reflexivity. Qed.

Lemma recorded_set_queue k q st : recorded k (set_queue q st) = recorded k st.
Proof. reflexivity. Qed.
Lemma recorded_enqueue k j st : recorded k (enqueue j st) = recorded k st.
Proof. reflexivity. Qed.
Lemma recorded_set_results k l st :
  recorded k (set_results l st) = recorded k st.
Proof. reflexivity. Qed.
Lemma recorded_set_executing k l st :
  recorded k (set_executing l st) = recorded k st.
Proof. reflexivity. Qed.
Lemma recorded_add_log k evs st : recorded k (add_log evs st) = recorded k st.
Proof. reflexivity. Qed.
Lemma recorded_set_response k x st :
  recorded k (set_response x st) = recorded k st.
Proof. reflexivity. Qed.

Lemma heap_enqueue j st : heap (enqueue j st) = heap st.
Proof. reflexivity. Qed.
Lemma results_enqueue j st : results (enqueue j st) = results st.
Proof. reflexivity. Qed.
Lemma executing_enqueue j st : executing (enqueue j st) = executing st.
Proof. reflexivity. Qed.
Lemma allValues_enqueue j st : allValues (enqueue j st) = allValues st.
Proof. reflexivity. Qed.
Lemma remaining_enqueue j st : remaining (enqueue j st) = remaining st.
Proof. reflexivity. Qed.
Lemma log_enqueue j st : log (enqueue j st) = log st.
Proof. reflexivity. Qed.
Lemma response_enqueue j st : response (enqueue j st) = response st.
Proof. reflexivity. Qed.

Create Rewrite HintDb eff.

#[export] Hint Rewrite results_settle executing_settle allValues_settle
  remaining_settle log_settle response_settle results_then executing_then
  allValues_then remaining_then log_then response_then recorded_settle
  recorded_then sl_settle sl_then cntT_settle cntT_then
  tot_enqueue_reaction tot_enqueue_thenable cntT_enqueue_reaction
  cntT_enqueue_thenable tot_set_results tot_set_executing tot_set_all
  tot_add_log tot_set_response recorded_set_queue recorded_enqueue
  recorded_set_results recorded_set_executing recorded_add_log
  recorded_set_response heap_enqueue results_enqueue executing_enqueue
  allValues_enqueue remaining_enqueue log_enqueue response_enqueue : eff.

(** Reading a field through the setters. *)
Ltac fields :=
  cbn [heap queue results executing allValues remaining log response
       set_queue set_results set_executing set_all add_log set_response]
    in *.

Lemma tot_pop r st j q :
  queue st = j :: q -> tot r st = tot r (set_queue q st) + jobReaction j r.
Proof. unfold tot. intros ->. destruct j; simpl; lia. Qed.

Lemma cntT_pop x t st j q :
  queue st = j :: q ->
  cntT x t (queue st) = cntT x t (queue (set_queue q st)) + jobThenable j x t.
Proof. intros ->. destruct j; simpl; lia. Qed.

Lemma b2n_le b : b2n b <= 1.
Proof. destruct b; simpl; lia. Qed.

Ltac decide_all :=
  repeat match goal with
    | H : context [reaction_eq_dec ?a ?b] |- _ =>
        destruct (reaction_eq_dec a b);
        try congruence
    | H : context [pid_eq_dec ?a ?b] |- _ =>
        destruct (pid_eq_dec a b);
        try congruence
    | |- context [reaction_eq_dec ?a ?b] =>
        destruct (reaction_eq_dec a b);
        try congruence
    | |- context [pid_eq_dec ?a ?b] =>
        destruct (pid_eq_dec a b);
        try congruence
    end.

Lemma fin_le s : fin s <= 1.
Proof. destruct s; simpl; lia. Qed.

Lemma b2n_mul_le a b : b2n a * b2n b <= 1.
Proof. destruct a, b; simpl; lia. Qed.

Ltac b2n_bounds :=
  repeat match goal with
    | |- context [b2n ?a * b2n ?b] =>
        lazymatch goal with
        | _ : b2n a * b2n b <= 1 |- _ => fail
        | _ => pose proof (b2n_mul_le a b)
        end
    | _ : context [b2n ?a * b2n ?b] |- _ =>
        lazymatch goal with
        | _ : b2n a * b2n b <= 1 |- _ => fail
        | _ => pose proof (b2n_mul_le a b)
        end
    | |- context [fin ?s] =>
        lazymatch goal with
        | _ : fin s <= 1 |- _ => fail
        | _ => pose proof (fin_le s)
        end
    | _ : context [fin ?s] |- _ =>
        lazymatch goal with
        | _ : fin s <= 1 |- _ => fail
        | _ => pose proof (fin_le s)
        end
    | |- context [b2n ?b] =>
        lazymatch goal with
        | _ : b2n b <= 1 |- _ => fail
        | _ => pose proof (b2n_le b)
        end
    | _ : context [b2n ?b] |- _ =>
        lazymatch goal with
        | _ : b2n b <= 1 |- _ => fail
        | _ => pose proof (b2n_le b)
        end
    end.

Ltac ltb_all :=
  repeat match goal with
    | |- context [?a <? ?b] => destruct (Nat.ltb_spec a b)
    | _ : context [?a <? ?b] |- _ => destruct (Nat.ltb_spec a b)
    | |- context [?a =? ?b] => destruct (Nat.eqb_spec a b)
    | _ : context [?a =? ?b] |- _ => destruct (Nat.eqb_spec a b)
    end.

Ltac neq_all :=
  repeat match goal with
    | H : ?f (?g ?a) <> ?f (?g ?b) |- _ =>
        lazymatch type of a with nat => idtac end;
        lazymatch goal with
        | _ : a <> b |- _ => fail
        | _ => assert (a <> b) by congruence
        end
    | H : ?f ?a <> ?f ?b |- _ =>
        lazymatch type of a with nat => idtac end;
        lazymatch goal with
        | _ : a <> b |- _ => fail
        | _ => assert (a <> b) by congruence
        end
    end.

Ltac inj_all :=
  repeat match goal with
    | H : ?f ?a = ?f ?b |- _ =>
        first [ is_var a | is_var b ];
        injection H as H; try subst
    end.


(** ** Lists: splice, update in place *)

Lemma Forall_firstn_keep {A} (P : A -> Prop) n l :
  Forall P l -> Forall P (firstn n l).
Proof.
  intros H. revert n. induction H; intros [|n]; simpl; auto.
Qed.

Lemma Forall_skipn_keep {A} (P : A -> Prop) n l :
  Forall P l -> Forall P (skipn n l).
Proof.
  intros H. revert n. induction H; intros [|n]; simpl; auto.
Qed.

Lemma splice1_kept_length i l :
  List.length (fst (splice1 i l)) <= List.length l.
Proof.
  unfold splice1. cbn [fst].
  rewrite length_app, length_firstn, length_skipn. lia.
Qed.

Lemma splice1_kept_Forall (P : pid -> Prop) i l :
  Forall P l -> Forall P (fst (splice1 i l)).
Proof.
  intros H. unfold splice1. cbn [fst]. apply Forall_app. split.
  - apply Forall_firstn_keep; auto.
  - apply Forall_skipn_keep; auto.
Qed.

Lemma replace_nth_length {A} i (x : A) l :
  List.length (replace_nth i x l) = List.length l.
Proof.
  revert i. induction l as [|y l IH]; intros [|i]; simpl; auto.
Qed.

Lemma nth_error_replace_nth {A} i (x : A) l k :
  nth_error (replace_nth i x l) k
  = if i =? k then (if k <? List.length l then Some x else None)
    else nth_error l k.
Proof.
  revert i k. induction l as [|y l IH]; intros [|i] [|k]; simpl; auto.
  destruct (i =? k); reflexivity.
Qed.

Lemma unrecorded_replace i e vs :
  nth_error vs i = Some None ->
  unrecorded (replace_nth i (Some e) vs) + 1 = unrecorded vs.
Proof.
  unfold unrecorded. revert i.
  induction vs as [|v vs IH]; intros [|i]; simpl; try discriminate.
  - intros [= ->]. simpl. lia.
  - intros H. specialize (IH _ H). destruct v; simpl; lia.
Qed.

Lemma unrecorded_zero vs k :
  unrecorded vs = 0 -> k < List.length vs ->
  exists v, nth_error vs k = Some (Some v).
Proof.
  unfold unrecorded. revert k.
  induction vs as [|v vs IH]; simpl; intros k H Hk; [lia|].
  destruct v as [v|]; simpl in H; [|discriminate].
  destruct k as [|k]; simpl; eauto. apply IH; auto. lia.
Qed.

Lemma unrecorded_repeat n : unrecorded (repeat None n) = n.
Proof. unfold unrecorded. induction n; simpl; auto. Qed.


(** ** Folds of [then]: [Promise.race] and [Promise.allSettled] *)

Lemma race_fields j xs st :
  results (race j xs st) = results st
  /\ executing (race j xs st) = executing st
  /\ allValues (race j xs st) = allValues st
  /\ remaining (race j xs st) = remaining st
  /\ log (race j xs st) = log st
  /\ response (race j xs st) = response st.
Proof.
  unfold race. revert st. induction xs as [|x xs IH]; intros st; simpl.
  - repeat split.
  - destruct (IH (then_ x (RRace j) st)) as (H1 & H2 & H3 & H4 & H5 & H6).
    rewrite H1, H2, H3, H4, H5, H6. apply fields_then.
Qed.

Lemma results_race j xs st : results (race j xs st) = results st.
Proof. apply race_fields. Qed.
Lemma executing_race j xs st : executing (race j xs st) = executing st.
Proof. apply race_fields. Qed.
Lemma allValues_race j xs st : allValues (race j xs st) = allValues st.
Proof. apply race_fields. Qed.
Lemma remaining_race j xs st : remaining (race j xs st) = remaining st.
Proof. apply race_fields. Qed.
Lemma log_race j xs st : log (race j xs st) = log st.
Proof. apply race_fields. Qed.
Lemma response_race j xs st : response (race j xs st) = response st.
Proof. apply race_fields. Qed.
Lemma recorded_race k j xs st : recorded k (race j xs st) = recorded k st.
Proof. apply recorded_same, allValues_race. Qed.

Lemma sl_race j xs st y : sl (heap (race j xs st) y) = sl (heap st y).
Proof.
  unfold race. revert st. induction xs as [|x xs IH]; intros st; simpl; auto.
  rewrite IH. apply sl_then.
Qed.

Lemma cntT_race a b j xs st :
  cntT a b (queue (race j xs st)) = cntT a b (queue st).
Proof.
  unfold race. revert st. induction xs as [|x xs IH]; intros st; simpl; auto.
  rewrite IH. apply cntT_then.
Qed.

Lemma tot_race_other r j xs st :
  RRace j <> r -> tot r (race j xs st) = tot r st.
Proof.
  intros Hne. unfold race. revert st.
  induction xs as [|x xs IH]; intros st; simpl; auto.
  rewrite IH. apply tot_then_other; auto.
Qed.

Lemma tot_race_le r j xs st : tot r st <= tot r (race j xs st).
Proof.
  unfold race. revert st.
  induction xs as [|x xs IH]; intros st; simpl; auto.
  eapply Nat.le_trans; [apply (tot_then_le r x (RRace j))|apply IH].
Qed.

Lemma tot_race_member j xs st :
  In (PExec j) xs -> 1 + tot (RRace j) st <= tot (RRace j) (race j xs st).
Proof.
  unfold race. revert st.
  induction xs as [|x xs IH]; intros st; simpl; [tauto|].
  intros [->|Hin].
  - eapply Nat.le_trans; [|apply (tot_race_le (RRace j) j xs)].
    rewrite tot_then by reflexivity.
    destruct (reaction_eq_dec (RRace j) (RRace j)); [lia|congruence].
  - eapply Nat.le_trans; [|apply IH; auto].
    pose proof (tot_then_le (RRace j) x (RRace j) st). lia.
Qed.

Lemma combine_seq_results a n :
  combine (seq a n) (map PResult (seq a n))
  = map (fun i => (i, PResult i)) (seq a n).
Proof.
  revert a. induction n as [|n IH]; intros a; simpl; [reflexivity|].
  rewrite IH. reflexivity.
Qed.

Lemma registerAll_fields ks st :
  results (registerAll ks st) = results st
  /\ executing (registerAll ks st) = executing st
  /\ allValues (registerAll ks st) = allValues st
  /\ remaining (registerAll ks st) = remaining st
  /\ log (registerAll ks st) = log st
  /\ response (registerAll ks st) = response st.
Proof.
  unfold registerAll. revert st. induction ks as [|i ks IH]; intros st; simpl.
  - repeat split.
  - destruct (IH (then_ (PResult i) (RAllElement i) st))
      as (H1 & H2 & H3 & H4 & H5 & H6).
    rewrite H1, H2, H3, H4, H5, H6. apply fields_then.
Qed.

Lemma results_registerAll ks st : results (registerAll ks st) = results st.
Proof. apply registerAll_fields. Qed.
Lemma executing_registerAll ks st :
  executing (registerAll ks st) = executing st.
Proof. apply registerAll_fields. Qed.
Lemma allValues_registerAll ks st :
  allValues (registerAll ks st) = allValues st.
Proof. apply registerAll_fields. Qed.
Lemma remaining_registerAll ks st :
  remaining (registerAll ks st) = remaining st.
Proof. apply registerAll_fields. Qed.
Lemma log_registerAll ks st : log (registerAll ks st) = log st.
Proof. apply registerAll_fields. Qed.
Lemma response_registerAll ks st :
  response (registerAll ks st) = response st.
Proof. apply registerAll_fields. Qed.
Lemma recorded_registerAll k ks st :
  recorded k (registerAll ks st) = recorded k st.
Proof. apply recorded_same, allValues_registerAll. Qed.

Lemma sl_registerAll ks st y :
  sl (heap (registerAll ks st) y) = sl (heap st y).
Proof.
  unfold registerAll. revert st.
  induction ks as [|i ks IH]; intros st; simpl; auto.
  rewrite IH. apply sl_then.
Qed.

Lemma cntT_registerAll a b ks st :
  cntT a b (queue (registerAll ks st)) = cntT a b (queue st).
Proof.
  unfold registerAll. revert st.
  induction ks as [|i ks IH]; intros st; simpl; auto.
  rewrite IH. apply cntT_then.
Qed.

Lemma tot_registerAll r ks st :
  tot r (registerAll ks st)
  = tot r st + count_occ reaction_eq_dec (map RAllElement ks) r.
Proof.
  unfold registerAll. revert st.
  induction ks as [|i ks IH]; intros st; simpl; [lia|].
  rewrite IH, tot_then by reflexivity.
  destruct (reaction_eq_dec (RAllElement i) r); lia.
Qed.

Lemma count_occ_elements a n k :
  count_occ reaction_eq_dec (map RAllElement (seq a n)) (RAllElement k)
  = b2n (a <=? k) * b2n (k <? a + n).
Proof.
  revert a. induction n as [|n IH]; intros a; simpl.
  - destruct (a <=? k) eqn:E1, (k <? a + 0) eqn:E2; simpl; auto.
    apply Nat.leb_le in E1. apply Nat.ltb_lt in E2. lia.
  - rewrite IH.
    destruct (reaction_eq_dec (RAllElement a) (RAllElement k)) as [E|E].
    + injection E as ->.
      rewrite Nat.leb_refl, (proj2 (Nat.ltb_lt k (k + S n))) by lia.
      rewrite (proj2 (Nat.leb_gt (S k) k)) by lia. reflexivity.
    + assert (a <> k) by congruence.
      destruct (Nat.leb_spec (S a) k), (Nat.leb_spec a k),
        (Nat.ltb_spec k (S a + n)), (Nat.ltb_spec k (a + S n));
        simpl; lia.
Qed.

Lemma count_occ_elements_other ks r :
  (forall k, r <> RAllElement k) ->
  count_occ reaction_eq_dec (map RAllElement ks) r = 0.
Proof.
  intros H. apply count_occ_not_In. rewrite in_map_iff.
  intros (k & E & _). exact (H k (eq_sym E)).
Qed.

#[export] Hint Rewrite results_race executing_race allValues_race
  remaining_race log_race response_race recorded_race sl_race cntT_race
  results_registerAll executing_registerAll allValues_registerAll
  remaining_registerAll log_registerAll response_registerAll
  recorded_registerAll sl_registerAll cntT_registerAll : eff.


(** ** The potential and the primitive operations *)

Lemma list_sum_update (f g : nat -> nat) k0 a n :
  (forall k, k <> k0 -> f k = g k) -> a <= k0 < a + n ->
  list_sum (map f (seq a n)) + g k0 = list_sum (map g (seq a n)) + f k0.
Proof.
  intros Hfg. revert a. induction n as [|n IH]; intros a Hk; simpl; [lia|].
  destruct (Nat.eq_dec a k0) as [->|Hne].
  - assert (E : map f (seq (S k0) n) = map g (seq (S k0) n)).
    { apply map_ext_in. intros k Hin. apply in_seq in Hin. apply Hfg. lia. }
    rewrite E. lia.
  - rewrite (Hfg a Hne). specialize (IH (S a) ltac:(lia)). lia.
Qed.

Ltac pid_cases :=
  repeat match goal with
    | |- context [pid_eq_dec ?a ?b] =>
        destruct (pid_eq_dec a b); try congruence
    | H : context [pid_eq_dec ?a ?b] |- _ =>
        destruct (pid_eq_dec a b); try congruence
    end.

Lemma heapWeight_update n x c (h : pid -> cell) :
  inDomain n x ->
  heapWeight n (fun y => if pid_eq_dec x y then c else h y)
  + cellWeight n (h x)
  = heapWeight n h + cellWeight n c.
Proof.
  intros Hx. unfold heapWeight.
  destruct x as [k0|k0|k0|k0| |]; simpl in Hx.
  1-4: match goal with
       | |- list_sum (map ?f _) + _ + _ + _ = list_sum (map ?g _) + _ + _ + _ =>
           assert (Hs : list_sum (map f (seq 0 n)) + g k0
                        = list_sum (map g (seq 0 n)) + f k0)
             by (apply list_sum_update; [|lia];
                 intros k Hk; unfold taskWeight; pid_cases)
       end;
    unfold taskWeight in Hs at 2 4; pid_cases; lia.
  - assert (E : map (taskWeight n (fun y => if pid_eq_dec PAll y then c else h y))
                    (seq 0 n)
                = map (taskWeight n h) (seq 0 n)).
    { apply map_ext. intros k. unfold taskWeight. pid_cases. }
    rewrite E. pid_cases. lia.
  - assert (E : map (taskWeight n (fun y => if pid_eq_dec PLimit y then c else h y))
                    (seq 0 n)
                = map (taskWeight n h) (seq 0 n)).
    { apply map_ext. intros k. unfold taskWeight. pid_cases. }
    rewrite E. pid_cases. lia.
Qed.

Lemma jobs_weight n o rs :
  list_sum (map (jobWeight n) (map (fun r => JReaction r o) rs))
  = list_sum (map (reactionWeight n) rs).
Proof. rewrite map_map. reflexivity. Qed.

Lemma potential_settle n x o st :
  inDomain n x -> potential n (settle x o st) = potential n st.
Proof.
  intros Hx. unfold potential, settle.
  destruct (heap st x) as [rs|o'] eqn:E; [|reflexivity].
  cbn [queue heap set_queue set_heap].
  rewrite map_app, list_sum_app, jobs_weight.
  pose proof (heapWeight_update n x (Settled o) (heap st) Hx) as H.
  rewrite E in H. simpl in H. lia.
Qed.

Lemma potential_then n x r st :
  inDomain n x ->
  potential n (then_ x r st) = potential n st + reactionWeight n r.
Proof.
  intros Hx. unfold potential, then_.
  destruct (heap st x) as [rs|o'] eqn:E.
  - cbn [queue heap set_queue set_heap].
    pose proof (heapWeight_update n x (Pending (rs ++ [r])) (heap st) Hx) as H.
    rewrite E in H. simpl in H. rewrite map_app, list_sum_app in H.
    simpl in H. lia.
  - cbn [queue heap enqueue set_queue].
    rewrite map_app, list_sum_app. simpl. lia.
Qed.

Lemma potential_enqueue n j st :
  potential n (enqueue j st) = potential n st + jobWeight n j.
Proof.
  unfold potential. cbn [queue heap enqueue set_queue].
  rewrite map_app, list_sum_app. simpl. lia.
Qed.

Lemma potential_pop n st j q :
  queue st = j :: q ->
  potential n st = potential n (set_queue q st) + jobWeight n j.
Proof. unfold potential. intros ->. simpl. lia. Qed.

Lemma potential_same n st st' :
  queue st' = queue st -> heap st' = heap st ->
  potential n st' = potential n st.
Proof. unfold potential. intros -> ->. reflexivity. Qed.

Lemma potential_set_results n l st :
  potential n (set_results l st) = potential n st.
Proof. reflexivity. Qed.
Lemma potential_set_executing n l st :
  potential n (set_executing l st) = potential n st.
Proof. reflexivity. Qed.
Lemma potential_set_all n vs m st :
  potential n (set_all vs m st) = potential n st.
Proof. reflexivity. Qed.
Lemma potential_add_log n evs st : potential n (add_log evs st) = potential n st.
Proof. reflexivity. Qed.
Lemma potential_set_response n r st :
  potential n (set_response r st) = potential n st.
Proof. reflexivity. Qed.

#[export] Hint Rewrite potential_set_results potential_set_executing
  potential_set_all potential_add_log potential_set_response
  potential_enqueue : eff.

Lemma potential_race n j xs st :
  Forall (inDomain n) xs ->
  potential n (race j xs st) = potential n st + List.length xs.
Proof.
  intros HF. unfold race. revert st.
  induction HF as [|x xs Hx _ IH]; intros st; simpl; [lia|].
  rewrite IH, potential_then by auto. simpl. lia.
Qed.

Lemma potential_registerAll n ks st :
  Forall (fun k => k < n) ks ->
  potential n (registerAll ks st) = potential n st + List.length ks.
Proof.
  intros HF. unfold registerAll. revert st.
  induction HF as [|k ks Hk _ IH]; intros st; simpl; [lia|].
  rewrite IH, potential_then by (simpl; auto). simpl. lia.
Qed.

Lemma loopCost_succ n m : loopCost n (S m) = loopCost n m + n + 6.
Proof. unfold loopCost. lia. Qed.

Section Step.

Variable w : World.
Variable req : Request.
Variable limit : nat.
Variable sorting : bool.

Hypothesis strings_when_tracking :
  tracking req limit = true ->
  forall k, k < total req -> isString (sentence req k) = true.

Local Abbreviation Inv := (Inv w req limit sorting).
Local Abbreviation Typed := (Typed w req limit).
Local Abbreviation allowed := (allowed req limit).

Lemma taskOutcome_blank k s :
  sentence req k = JString s -> trim s = [] ->
  taskOutcome w req k = Fulfilled (VJob (blankResult k)).
Proof.
  intros E1 E2. unfold taskOutcome, expectedResult. rewrite E1, E2. auto.
Qed.



Local Ltac eff :=
  repeat first
    [ progress fields
    | progress autorewrite with eff
    | rewrite (tot_settle req limit) by
        (first [ apply (Typed_cell w req limit); assumption | intros; discriminate ])
    | rewrite tot_then by reflexivity
    | rewrite tot_race_other by discriminate
    | rewrite tot_registerAll, count_occ_elements_other
        by (intros; discriminate) ].

Local Ltac old HI Eq H :=
  repeat rewrite (tot_pop _ _ _ _ Eq) in H;
  repeat rewrite (cntT_pop _ _ _ _ _ Eq) in H;
  unfold jobReaction, jobThenable in H.

Local Ltac finish :=
  fields; cbn [started fin] in *; decide_all; inj_all; neq_all; ltb_all;
  cbn [b2n] in *; b2n_bounds; try lia.


Local Ltac mono :=
  repeat match goal with
    | |- context [tot (RRace ?j) (settle ?x ?o ?s)] =>
        lazymatch goal with
        | _ : tot (RRace j) s <= tot (RRace j) (settle x o s) |- _ => fail
        | _ =>
            let M := fresh "M" in
            let M' := fresh "M" in
            pose proof (tot_settle_le (RRace j) x o s) as M;
            pose proof M as M';
            autorewrite with eff in M'
        end
    | _ : context [tot (RRace ?j) (settle ?x ?o ?s)] |- _ =>
        lazymatch goal with
        | _ : tot (RRace j) s <= tot (RRace j) (settle x o s) |- _ => fail
        | _ =>
            let M := fresh "M" in
            let M' := fresh "M" in
            pose proof (tot_settle_le (RRace j) x o s) as M;
            pose proof M as M';
            autorewrite with eff in M'
        end
    | |- context [tot (RRace ?j) (then_ ?x ?r ?s)] =>
        lazymatch goal with
        | _ : tot (RRace j) s <= tot (RRace j) (then_ x r s) |- _ => fail
        | _ =>
            let M := fresh "M" in
            let M' := fresh "M" in
            pose proof (tot_then_le (RRace j) x r s) as M;
            pose proof M as M';
            autorewrite with eff in M'
        end
    | _ : context [tot (RRace ?j) (then_ ?x ?r ?s)] |- _ =>
        lazymatch goal with
        | _ : tot (RRace j) s <= tot (RRace j) (then_ x r s) |- _ => fail
        | _ =>
            let M := fresh "M" in
            let M' := fresh "M" in
            pose proof (tot_then_le (RRace j) x r s) as M;
            pose proof M as M';
            autorewrite with eff in M'
        end
    end.

Local Ltac law prep H := prep H; eff; intros; mono; finish.

(** The laws that the generic script settles. *)
Local Ltac laws_gen HI prep :=
  match goal with
  | |- results _ = _ => eff; apply HI
  | |- started _ _ <= _ => apply HI
  | |- List.length (executing _) <= _ /\ _ => eff; apply HI
  | |- forall k, tot (RCallTask k) _ + tot (RTaskResume k) _ + _ = _ =>
      let k' := fresh "k" in let H := fresh "H" in
      intros k'; pose proof (inv_task _ _ _ _ _ _ _ HI k') as H; law prep H
  | |- forall k, tot (RCallTask k) _ + cntT _ _ _ + _ + _ = _ =>
      let k' := fresh "k" in let H := fresh "H" in
      intros k'; pose proof (inv_result _ _ _ _ _ _ _ HI k') as H; law prep H
  | |- forall k, tot (RSplice k) _ + _ = _ =>
      let k' := fresh "k" in let H := fresh "H" in
      intros k'; pose proof (inv_exec _ _ _ _ _ _ _ HI k') as H; law prep H
  | |- forall n, tot (RLimitResume n) _ = _ =>
      let k' := fresh "n" in let H := fresh "H" in
      intros k'; pose proof (inv_resume _ _ _ _ _ _ _ HI k') as H; law prep H
  | |- forall k, tot (RAllElement k) _ + _ = _ =>
      let k' := fresh "k" in let H := fresh "H" in
      intros k'; pose proof (inv_all _ _ _ _ _ _ _ HI k') as H; law prep H
  | |- cntT PLimit PAll _ + _ + _ = _ =>
      let H := fresh "H" in
      pose proof (inv_limit _ _ _ _ _ _ _ HI) as H; law prep H
  | |- tot RHandlerResume _ + _ = _ =>
      let H := fresh "H" in
      pose proof (inv_handler _ _ _ _ _ _ _ HI) as H; law prep H
  | |- forall r, response _ = Some r -> _ => eff; apply HI
  | |- _ /\ _ /\ _ /\ _ =>
      let H := fresh "H" in
      pose proof (inv_values _ _ _ _ _ _ _ HI) as H; eff; finish; exact H
  | |- match ?ms with Running _ => True | Waiting _ => _ = true | Finished => True end =>
      first [exact I | apply HI]
  | |- match ?ms with Running _ => True | Waiting _ => _ -> _ | Finished => True end =>
      let H := fresh "H" in
      first [ exact I
            | pose proof (inv_race _ _ _ _ _ _ _ HI) as H; destruct ms; auto;
              law prep H ]
  end.

Local Ltac laws HI Eq := laws_gen HI ltac:(fun H => old HI Eq H).
Local Ltac laws0 HI := laws_gen HI ltac:(fun H => idtac).

Lemma Inv_call_settled ms st k o q o' :
  Inv 1 ms st -> queue st = JReaction (RCallTask k) o :: q ->
  out_ok w req (PTask k) o' ->
  Inv 1 ms (enqueue (JThenable (PResult k) (PTask k))
                    (settle (PTask k) o' (set_queue q st))).
Proof.
  intros HI Eq Ho.
  destruct (Typed_pop w req limit st _ _ (inv_typed _ _ _ _ _ _ _ HI) Eq) as [HT Hj].
  simpl in Hj.
  constructor; try solve [laws HI Eq].
  - apply Typed_enqueue; [|left; eauto]. apply Typed_settle; auto.
Qed.

Lemma Inv_call_suspended ms st k o q evs g :
  Inv 1 ms st -> queue st = JReaction (RCallTask k) o :: q ->
  nonBlank req k = true -> g = generatedOutcome w req k ->
  Inv 1 ms (enqueue (JThenable (PResult k) (PTask k))
              (enqueue (JReaction (RTaskResume k) g)
                 (add_log evs (set_queue q st)))).
Proof.
  intros HI Eq Hn Hg.
  destruct (Typed_pop w req limit st _ _ (inv_typed _ _ _ _ _ _ _ HI) Eq) as [HT Hj].
  simpl in Hj.
  constructor; try solve [laws HI Eq].
  - apply Typed_enqueue; [|left; eauto]. apply Typed_enqueue; [|simpl; auto].
    eapply Typed_same; [| |exact HT]; reflexivity.
Qed.

Lemma Inv_callTask ms st k o q :
  Inv 1 ms st -> queue st = JReaction (RCallTask k) o :: q ->
  Inv 1 ms (callTask w req k (set_queue q st)).
Proof.
  intros HI Eq. unfold callTask.
  destruct (sentence req k) as [| | | |s| |] eqn:Es;
    try (eapply Inv_call_settled; eauto; simpl; unfold taskOutcome;
         rewrite Es; reflexivity).
  destruct (trim s) eqn:Et.
  - eapply Inv_call_settled; eauto. simpl. symmetry.
    eapply taskOutcome_blank; eauto.
  - rewrite <- Et.
    destruct (generateAudio _ _ _ _ _ _) as [evs g] eqn:Eg.
    eapply Inv_call_suspended; eauto.
    + unfold nonBlank. rewrite Es, Et. reflexivity.
    + unfold generatedOutcome. rewrite Es, Eg. reflexivity.
Qed.

Lemma taskOutcome_resumed k g :
  nonBlank req k = true -> g = generatedOutcome w req k ->
  taskOutcome w req k
  = Fulfilled (VJob match g with
                    | Fulfilled _ =>
                        successResult w k
                          match sentence req k with
                          | JString s => trim s
                          | _ => []
                          end
                    | Rejected err =>
                        failureResult k
                          match sentence req k with
                          | JString s => trim s
                          | _ => []
                          end (message_of err)
                    end).
Proof.
  unfold nonBlank, generatedOutcome, taskOutcome, expectedResult.
  destruct (sentence req k); try discriminate.
  destruct (trim s) eqn:Et; try discriminate.
  intros _ ->. destruct (snd _); reflexivity.
Qed.

Lemma Inv_resumeTask ms st k o q :
  Inv 1 ms st -> queue st = JReaction (RTaskResume k) o :: q ->
  Inv 1 ms (resumeTask w req k o (set_queue q st)).
Proof.
  intros HI Eq.
  destruct (Typed_pop w req limit st _ _ (inv_typed _ _ _ _ _ _ _ HI) Eq) as [HT Hj].
  simpl in Hj. destruct Hj as (Hk & Hn & Hg).
  pose proof (taskOutcome_resumed k o Hn Hg) as Ho.
  unfold resumeTask.
  assert (Inv 1 ms (settle (PTask k) (taskOutcome w req k) (set_queue q st))).
  { constructor; try solve [laws HI Eq].
    apply Typed_settle; simpl; auto. }
  rewrite Ho in H. destruct o; exact H.
Qed.

Lemma Inv_thenable ms st x t q :
  Inv 1 ms st -> queue st = JThenable x t :: q ->
  Inv 1 ms (then_ t (RAdopt x) (set_queue q st)).
Proof.
  intros HI Eq.
  destruct (Typed_pop w req limit st _ _ (inv_typed _ _ _ _ _ _ _ HI) Eq) as [HT Hj].
  simpl in Hj. destruct Hj as [(k & Hk & -> & ->)|[-> ->]].
  - constructor; try solve [laws HI Eq].
    apply Typed_then; simpl; auto.
  - constructor; try solve [laws HI Eq].
    apply Typed_then; simpl; auto.
Qed.

Lemma Inv_adopt ms st x o q :
  Inv 1 ms st -> queue st = JReaction (RAdopt x) o :: q ->
  Inv 1 ms (settle x o (set_queue q st)).
Proof.
  intros HI Eq.
  destruct (Typed_pop w req limit st _ _ (inv_typed _ _ _ _ _ _ _ HI) Eq) as [HT Hj].
  simpl in Hj. destruct Hj as (y & Ha & Ho).
  destruct y, x; simpl in Ha; try tauto.
  - destruct Ha as [-> Hk].
    constructor; try solve [laws HI Eq].
    apply Typed_settle; simpl; auto.
  - constructor; try solve [laws HI Eq].
    apply Typed_settle; simpl; auto.
Qed.

Lemma Inv_race ms st j o q :
  Inv 1 ms st -> queue st = JReaction (RRace j) o :: q ->
  Inv 1 ms (settle (PRace j) o (set_queue q st)).
Proof.
  intros HI Eq.
  destruct (Typed_pop w req limit st _ _ (inv_typed _ _ _ _ _ _ _ HI) Eq) as [HT Hj].
  simpl in Hj. destruct Hj as (y & Ha & Ho).
  destruct y; simpl in Ha; try tauto.
  constructor; try solve [laws HI Eq].
  apply Typed_settle; simpl; auto.
Qed.

Lemma taskOutcome_string k :
  isString (sentence req k) = true ->
  taskOutcome w req k = Fulfilled (VJob (expectedResult w req k)).
Proof.
  unfold taskOutcome. destruct (sentence req k); simpl; congruence.
Qed.

Lemma Inv_splice ms st k o q :
  Inv 1 ms st -> queue st = JReaction (RSplice k) o :: q ->
  Inv 1 ms (spliceExecuting k o (set_queue q st)).
Proof.
  intros HI Eq.
  destruct (Typed_pop w req limit st _ _ (inv_typed _ _ _ _ _ _ _ HI) Eq) as [HT Hj].
  simpl in Hj. destruct Hj as (y & Ha & Ho).
  destruct y; simpl in Ha; try tauto.
  destruct Ha as (-> & Hk & Htr). simpl in Ho.
  rewrite (taskOutcome_string k0) in Ho by auto. subst o.
  unfold spliceExecuting.
  destruct (splice1 _ _) as [kept removed] eqn:Es.
  assert (Ekept : kept = fst (splice1 (indexOf (PExec k0) (executing st))
                                     (executing st))).
  { fields. rewrite Es. reflexivity. }
  constructor; try solve [laws HI Eq].
  - apply Typed_settle; simpl; eauto.
  - eff. rewrite Ekept. destruct (inv_executing _ _ _ _ _ _ _ HI) as [H1 H2].
    split.
    + eapply Nat.le_trans; [apply splice1_kept_length | exact H1].
    + apply splice1_kept_Forall; auto.
Qed.

Lemma recorded_set_all k vs n st :
  recorded k (set_all vs n st)
  = match nth_error vs k with Some (Some _) => 1 | _ => 0 end.
Proof. reflexivity. Qed.

Lemma settled_values vs :
  List.length vs = total req ->
  (forall k v, nth_error vs k = Some (Some v) -> v = entryOf w req k) ->
  unrecorded vs = 0 ->
  Fulfilled (VArray (map (fun v => match v with
                                   | Some e => e
                                   | None => VUndefined
                                   end) vs))
  = Fulfilled (settledArray w req).
Proof.
  intros Hl Hv Hu. unfold settledArray. do 2 f_equal.
  apply nth_error_ext. intros k.
  rewrite !nth_error_map.
  destruct (Nat.lt_ge_cases k (total req)) as [Hk|Hk].
  - rewrite nth_error_seq, (proj2 (Nat.ltb_lt _ _) Hk). simpl.
    destruct (unrecorded_zero vs k Hu ltac:(lia)) as [v Ev].
    rewrite Ev. simpl. f_equal. apply Hv; auto.
  - rewrite (proj2 (nth_error_None _ _)) by lia.
    rewrite (proj2 (nth_error_None _ _)) by (rewrite length_seq; lia).
    reflexivity.
Qed.

Lemma Inv_allElement ms st k o q :
  Inv 1 ms st -> queue st = JReaction (RAllElement k) o :: q ->
  Inv 1 ms (allElement k o (set_queue q st)).
Proof.
  intros HI Eq.
  destruct (Typed_pop w req limit st _ _ (inv_typed _ _ _ _ _ _ _ HI) Eq) as [HT Hj].
  simpl in Hj. destruct Hj as (y & Ha & Ho).
  destruct y; simpl in Ha; try tauto.
  destruct Ha as (-> & Hk). simpl in Ho.
  pose proof (inv_all _ _ _ _ _ _ _ HI k0) as Hall.
  rewrite (tot_pop _ _ _ _ Eq) in Hall. unfold jobReaction in Hall.
  destruct (reaction_eq_dec (RAllElement k0) (RAllElement k0)); [|congruence].
  pose proof (fin_le ms) as Hf1.
  pose proof (b2n_le (k0 <? total req)) as Hb1.
  assert (Hfin : fin ms = 1) by nia.
  assert (Hrec : recorded k0 st = 0) by nia.
  clear Hf1 Hb1.
  destruct (inv_values _ _ _ _ _ _ _ HI) as (Hlen & Hval & Hrem & Hcell).
  specialize (Hlen Hfin). specialize (Hrem Hfin).
  assert (Hnone : nth_error (allValues st) k0 = Some None).
  { unfold recorded in Hrec.
    destruct (nth_error (allValues st) k0) as [[v|]|] eqn:En; try discriminate; auto.
    apply nth_error_None in En. lia. }
  set (entry := match o with
                | Fulfilled v => VEntry true v
                | Rejected err => VEntry false err
                end).
  assert (Hentry : entry = entryOf w req k0).
  { unfold entry, entryOf. rewrite <- Ho. reflexivity. }
  pose proof (unrecorded_replace k0 entry _ Hnone) as Hun.
  assert (Hval' : forall k v,
             nth_error (replace_nth k0 (Some entry) (allValues st)) k
             = Some (Some v) -> v = entryOf w req k).
  { intros k v. rewrite nth_error_replace_nth.
    destruct (Nat.eqb_spec k0 k) as [->|Hne]; [|apply Hval].
    destruct (k <? List.length (allValues st)); [|intros; discriminate].
    intros [= Hv]. rewrite <- Hv.
    exact Hentry. }
  unfold allElement. fold entry.
  destruct (remaining (set_queue q st) - 1 =? 0) eqn:En.
  - apply Nat.eqb_eq in En. fields.
    constructor; try solve [laws HI Eq].
    + apply Typed_settle; auto. simpl. apply settled_values; auto.
      * rewrite replace_nth_length. auto.
      * lia.
    + intros k. pose proof (inv_all _ _ _ _ _ _ _ HI k) as H. old HI Eq H. eff.
      rewrite recorded_set_all, nth_error_replace_nth, Hlen.
      unfold recorded in H.
      destruct (Nat.eqb_spec k0 k) as [<-|Hne].
      * rewrite Hnone in H. rewrite (proj2 (Nat.ltb_lt _ _) Hk) in *.
        decide_all. lia.
      * decide_all. lia.
    + eff. rewrite replace_nth_length. repeat split; auto.
      * intros _. lia.
      * finish.
  - apply Nat.eqb_neq in En. fields.
    constructor; try solve [laws HI Eq].
    + eapply Typed_same; [| |exact HT]; reflexivity.
    + intros k. pose proof (inv_all _ _ _ _ _ _ _ HI k) as H. old HI Eq H. eff.
      rewrite recorded_set_all, nth_error_replace_nth, Hlen.
      unfold recorded in H.
      destruct (Nat.eqb_spec k0 k) as [<-|Hne].
      * rewrite Hnone in H. rewrite (proj2 (Nat.ltb_lt _ _) Hk) in *.
        decide_all. lia.
      * decide_all. lia.
    + eff. rewrite replace_nth_length. repeat split; auto.
      * intros _. lia.
      * rewrite Hcell, Hfin.
        rewrite (proj2 (Nat.eqb_neq _ _) En).
        destruct (Nat.eqb_spec (remaining st) 0); [lia|]. reflexivity.
Qed.

Lemma collectOne_entry i :
  collectOne req i (entryOf w req i) = Some (expectedResult w req i).
Proof.
  unfold entryOf, taskOutcome, collectOne, expectedResult.
  destruct (sentence req i) eqn:E; simpl; try rewrite E; reflexivity.
Qed.

Lemma collect_entries n i :
  collect req i (map (entryOf w req) (seq i n))
  = Some (map (expectedResult w req) (seq i n)).
Proof.
  revert i. induction n as [|n IH]; intros i; simpl; [reflexivity|].
  rewrite collectOne_entry, IH. reflexivity.
Qed.

Lemma resumeHandler_settled st :
  resumeHandler w req sorting (Fulfilled (settledArray w req)) st
  = set_response (expectedResponse w req sorting) st.
Proof.
  unfold resumeHandler, settledArray. rewrite collect_entries. reflexivity.
Qed.

Lemma Inv_resumeHandler ms st o q :
  Inv 1 ms st -> queue st = JReaction RHandlerResume o :: q ->
  Inv 1 ms (resumeHandler w req sorting o (set_queue q st)).
Proof.
  intros HI Eq.
  destruct (Typed_pop w req limit st _ _ (inv_typed _ _ _ _ _ _ _ HI) Eq) as [HT Hj].
  simpl in Hj. destruct Hj as (y & Ha & Ho).
  destruct y; simpl in Ha; try tauto. simpl in Ho. subst o.
  rewrite resumeHandler_settled.
  constructor; try solve [laws HI Eq].
  - eapply Typed_same; [| |exact HT]; reflexivity.
  - fields. intros r [= <-]. reflexivity.
Qed.

Lemma Typed_race j xs st :
  Forall (fun x => exists i, x = PExec i /\ i < total req) xs ->
  j < total req -> Typed st -> Typed (race j xs st).
Proof.
  intros HF Hj. unfold race. revert st.
  induction HF as [|x xs (i & -> & Hi) _ IH]; intros st HT; simpl; auto.
  apply IH. apply Typed_then; simpl; auto.
Qed.

Lemma Typed_registerAll ks st :
  Forall (fun i => i < total req) ks -> Typed st -> Typed (registerAll ks st).
Proof.
  intros HF. unfold registerAll. revert st.
  induction HF as [|i ks Hi _ IH]; intros st HT; simpl; auto.
  apply IH. apply Typed_then; simpl; auto.
Qed.

Lemma Inv_iteration h k st :
  Inv h (Running k) st -> k < total req ->
  let st1 := enqueue (JReaction (RCallTask k) (Fulfilled VUndefined)) st in
  let st2 := set_results (results st1 ++ [PResult k]) st1 in
  let st3 := then_ (PResult k) (RSplice k) st2 in
  let st4 := set_executing (executing st3 ++ [PExec k]) st3 in
  (tracking req limit = false -> Inv h (Running (S k)) st2)
  /\ (tracking req limit = true -> Inv h (Running (S k)) st4).
Proof.
  intros HI Hk st1 st2 st3 st4.
  pose proof (inv_typed _ _ _ _ _ _ _ HI) as HT.
  assert (HT1 : Typed st1) by (apply Typed_enqueue; simpl; auto).
  assert (HT2 : Typed st2) by (eapply Typed_same; [| |exact HT1]; reflexivity).
  assert (Hres : results st ++ [PResult k]
                 = map PResult (seq 0 (started req (Running (S k))))).
  { rewrite (inv_results _ _ _ _ _ _ _ HI). simpl started.
    rewrite seq_S, map_app. reflexivity. }
  split; intros Htr.
  - subst st2 st1. constructor; try solve [laws0 HI]; auto.
    + destruct (inv_executing _ _ _ _ _ _ _ HI) as [H1 H2]. fields.
      simpl in *. split; auto.
    + intros k'. pose proof (inv_exec _ _ _ _ _ _ _ HI k') as H.
      eff. rewrite Htr in *. simpl in *. lia.
  - subst st4 st3 st2 st1. constructor; try solve [laws0 HI]; auto.
    + eapply Typed_same;
        [| |apply (Typed_then w req limit _ (PResult k) (RSplice k) HT2)];
        try reflexivity. simpl. auto.
    + eff. exact Hres.
    + destruct (inv_executing _ _ _ _ _ _ _ HI) as [H1 H2]. eff.
      rewrite length_app. simpl in *. split; [lia|].
      apply Forall_app. split; eauto.
    + intros k'. pose proof (inv_exec _ _ _ _ _ _ _ HI k') as H.
      eff. rewrite Htr in *. finish.
Qed.

Lemma Inv_await_race h k st :
  Inv h (Running (S k)) st -> k < total req -> tracking req limit = true ->
  In (PExec k) (executing st) ->
  Inv h (Waiting k)
      (await (PRace k) (RLimitResume (S k)) (race k (executing st) st)).
Proof.
  intros HI Hk Htr Hin. unfold await.
  pose proof (inv_typed _ _ _ _ _ _ _ HI) as HT.
  constructor; try solve [laws0 HI]; auto.
  - apply Typed_then; [|simpl; auto].
    apply Typed_race; auto. apply HI.
  - eff. pose proof (tot_race_member k (executing st) st Hin).
    intros _. finish.
Qed.

Lemma nth_error_repeat_none (n k : nat) (v : value) :
  nth_error (repeat (@None value) n) k <> Some (Some v).
Proof.
  revert k. induction n as [|n IH]; intros [|k]; simpl; try discriminate.
  apply IH.
Qed.

Lemma Inv_limitReturn h st :
  Inv h (Running (total req)) st -> Inv h Finished (limitReturn st).
Proof.
  intros HI. unfold limitReturn, allSettled.
  pose proof (inv_typed _ _ _ _ _ _ _ HI) as HT.
  rewrite (inv_results _ _ _ _ _ _ _ HI). simpl started.
  rewrite length_map, length_seq, combine_seq_results.
  fold (registerAll (seq 0 (total req))
                    (set_all (repeat None (total req)) (total req) st)).
  assert (HT2 : Typed (registerAll (seq 0 (total req))
                         (set_all (repeat None (total req)) (total req) st))).
  { apply Typed_registerAll.
    - apply Forall_forall. intros i Hi. apply in_seq in Hi. lia.
    - eapply Typed_same; [| |exact HT]; reflexivity. }
  assert (Hrec : forall k st0,
             recorded k (set_all (repeat None (total req)) (total req) st0)
             = 0).
  { intros k st0. rewrite recorded_set_all.
    destruct (nth_error _ k) as [[v|]|] eqn:E; auto.
    exfalso. exact (nth_error_repeat_none _ _ _ E). }
  assert (Hall : forall k st0,
             tot (RAllElement k) (registerAll (seq 0 (total req)) st0)
             = tot (RAllElement k) st0 + b2n (k <? total req)).
  { intros k st0. rewrite tot_registerAll, count_occ_elements. simpl. lia. }
  destruct (inv_values _ _ _ _ _ _ _ HI) as (_ & Hval & _ & Hcell).
  destruct (total req =? 0) eqn:En.
  - apply Nat.eqb_eq in En.
    constructor; try solve [laws0 HI]; auto.
    + apply Typed_enqueue; [|right; auto]. apply Typed_settle; auto.
      simpl. unfold settledArray. rewrite En. reflexivity.
    + intros k. pose proof (inv_all _ _ _ _ _ _ _ HI k) as H.
      eff. rewrite Hall, Hrec. eff. finish.
    + eff. rewrite repeat_length, unrecorded_repeat. repeat split; auto.
      * intros k v E. exfalso. exact (nth_error_repeat_none _ _ _ E).
      * finish.
  - apply Nat.eqb_neq in En.
    constructor; try solve [laws0 HI]; auto.
    + apply Typed_enqueue; [|right; auto]. auto.
    + intros k. pose proof (inv_all _ _ _ _ _ _ _ HI k) as H.
      eff. rewrite Hall, Hrec. eff. finish.
    + eff. rewrite repeat_length, unrecorded_repeat. repeat split; auto.
      * intros k v E. exfalso. exact (nth_error_repeat_none _ _ _ E).
      * finish.
Qed.

Lemma skipn_cons_inv {A} k (l : list A) a rest :
  skipn k l = a :: rest -> k < List.length l /\ skipn (S k) l = rest.
Proof.
  revert l. induction k as [|k IH]; intros [|b l]; simpl; try discriminate.
  - intros [= -> ->]. split; [lia|reflexivity].
  - intros H. destruct (IH _ H) as [H1 H2]. split; [lia|exact H2].
Qed.

Lemma skipn_nil_inv {A} k (l : list A) :
  skipn k l = [] -> List.length l <= k.
Proof.
  intros H. pose proof (length_skipn k l) as E. rewrite H in E.
  simpl in E. lia.
Qed.

Lemma Inv_limitLoop h rest :
  forall k st,
    Inv h (Running k) st -> rest = skipn k (sentences req) ->
    exists ms, suspended ms /\ Inv h ms (limitLoop req limit rest k st).
Proof.
  induction rest as [|a rest IH]; intros k st HI Hrest.
  - symmetry in Hrest. apply skipn_nil_inv in Hrest.
    pose proof (inv_started _ _ _ _ _ _ _ HI) as Hs. simpl in Hs.
    fold (total req) in Hrest.
    assert (k = total req) by lia. subst k.
    exists Finished. split; [exact I|]. simpl. apply Inv_limitReturn; auto.
  - symmetry in Hrest. apply skipn_cons_inv in Hrest.
    destruct Hrest as [Hk Hrest]. fold (total req) in Hk.
    destruct (Inv_iteration h k st HI Hk) as [Hun Htr].
    cbn [limitLoop]. fold (total req). fold (tracking req limit).
    destruct (tracking req limit) eqn:Etr.
    + specialize (Htr eq_refl). cbv zeta in Htr.
      match goal with
      | |- context [if ?c then _ else _] => destruct c
      end.
      * exists (Waiting k). split; [exact I|].
        apply Inv_await_race; auto;
          cbn [executing set_executing]; apply in_or_app; right; left; auto.
      * apply IH; auto.
    + apply IH; auto.
Qed.

Lemma Inv_pop_resume j st o q :
  Inv 1 (Waiting j) st -> queue st = JReaction (RLimitResume (S j)) o :: q ->
  Inv 1 (Running (S j)) (set_queue q st).
Proof.
  intros HI Eq.
  destruct (Typed_pop w req limit st _ _ (inv_typed _ _ _ _ _ _ _ HI) Eq) as [HT Hj].
  constructor; try solve [laws HI Eq]; auto.
Qed.

Lemma Inv_step ms st st' :
  Inv 1 ms st -> suspended ms -> step w req limit sorting st = Some st' ->
  exists ms', suspended ms' /\ Inv 1 ms' st'.
Proof.
  intros HI Hs. unfold step.
  destruct (queue st) as [|j q] eqn:Eq; [discriminate|].
  intros [= <-]. destruct j as [r o|x t]; [destruct r|]; simpl.
  - exists ms. split; auto. eapply Inv_callTask; eauto.
  - exists ms. split; auto. eapply Inv_resumeTask; eauto.
  - exists ms. split; auto. eapply Inv_adopt; eauto.
  - exists ms. split; auto. eapply Inv_splice; eauto.
  - exists ms. split; auto. eapply Inv_race; eauto.
  - destruct (Typed_pop w req limit st _ _ (inv_typed _ _ _ _ _ _ _ HI) Eq)
      as [HT Hj].
    simpl in Hj. destruct Hj as (y & Ha & Ho).
    destruct y; simpl in Ha; try tauto. destruct Ha as [-> Hk].
    destruct Ho as [v ->].
    pose proof (inv_resume _ _ _ _ _ _ _ HI (S k)) as Hr.
    rewrite (tot_pop _ _ _ _ Eq) in Hr. unfold jobReaction in Hr.
    destruct (reaction_eq_dec (RLimitResume (S k)) (RLimitResume (S k)));
      [|congruence].
    destruct ms as [k'|j|]; try lia.
    destruct (Nat.eqb_spec (S k) (S j)) as [E|E]; [|simpl in Hr; lia].
    injection E as ->.
    unfold resumeLimit. apply Inv_limitLoop; auto.
    eapply Inv_pop_resume; eauto.
  - exists ms. split; auto. eapply Inv_allElement; eauto.
  - exists ms. split; auto. eapply Inv_resumeHandler; eauto.
  - exists ms. split; auto. eapply Inv_thenable; eauto.
Qed.

Lemma unrecorded_pos vs :
  1 <= unrecorded vs ->
  exists k, k < List.length vs /\ nth_error vs k = Some None.
Proof.
  unfold unrecorded. induction vs as [|[v|] vs IH]; simpl; intros H.
  - lia.
  - destruct (IH H) as (k & Hk & E). exists (S k). split; [lia|exact E].
  - exists 0. split; [lia|reflexivity].
Qed.

Lemma tot_empty r st : queue st = [] -> tot r st = rc r (heap st (home r)).
Proof. unfold tot. intros ->. reflexivity. Qed.

Lemma rc_pending r c : 1 <= rc r c -> sl c = 0.
Proof. destruct c; simpl; [reflexivity|lia]. Qed.

(** A task whose result promise is still pending has a job in the queue. *)
Lemma result_pending_busy ms st k :
  Inv 1 ms st -> queue st = [] -> k < started req ms ->
  sl (heap st (PResult k)) = 0 -> False.
Proof.
  intros HI Eq Hk Hp.
  pose proof (inv_typed _ _ _ _ _ _ _ HI) as HT.
  pose proof (inv_result _ _ _ _ _ _ _ HI k) as Hr.
  pose proof (inv_task _ _ _ _ _ _ _ HI k) as Ht.
  repeat rewrite (tot_empty _ _ Eq) in Hr.
  repeat rewrite (tot_empty _ _ Eq) in Ht.
  rewrite Eq in Hr.
  rewrite (rc_call w req limit st k _ HT) in Hr.
  rewrite (rc_call w req limit st k _ HT) in Ht.
  rewrite (rc_resume w req limit st k _ HT) in Ht.
  rewrite (proj2 (Nat.ltb_lt _ _) Hk) in Hr, Ht. simpl in Hr, Ht.
  assert (Hs : sl (heap st (PTask k)) = 0) by (apply (rc_pending (RAdopt (PResult k))); lia).
  lia.
Qed.

Lemma Inv_done ms st :
  Inv 1 ms st -> suspended ms -> queue st = [] ->
  response st = Some (expectedResponse w req sorting).
Proof.
  intros HI Hs Eq.
  destruct (response st) as [r|] eqn:Er.
  { f_equal. apply (inv_response _ _ _ _ _ _ _ HI). exact Er. }
  exfalso.
  pose proof (inv_typed _ _ _ _ _ _ _ HI) as HT.
  destruct ms as [k|j|]; [contradiction| |].
  - pose proof (inv_resume _ _ _ _ _ _ _ HI (S j)) as Hr.
    rewrite (tot_empty _ _ Eq), Nat.eqb_refl in Hr. simpl in Hr.
    pose proof (inv_race _ _ _ _ _ _ _ HI) as Hrace. simpl in Hrace.
    rewrite (tot_empty _ _ Eq) in Hrace. simpl in Hrace.
    assert (Hp : sl (heap st (PRace j)) = 0)
      by (apply (rc_pending (RLimitResume (S j))); lia).
    specialize (Hrace Hp).
    pose proof (inv_exec _ _ _ _ _ _ _ HI j) as He.
    rewrite (tot_empty _ _ Eq) in He. simpl in He.
    rewrite (inv_tracking _ _ _ _ _ _ _ HI) in He.
    rewrite (rc_pending _ _ Hrace) in He.
    rewrite (proj2 (Nat.ltb_lt j (S j))) in He by lia. simpl in He.
    apply (result_pending_busy _ _ j HI Eq); [simpl; lia|].
    apply (rc_pending (RSplice j)). lia.
  - pose proof (inv_handler _ _ _ _ _ _ _ HI) as Hh.
    rewrite Er, (tot_empty _ _ Eq) in Hh. simpl in Hh.
    pose proof (inv_limit _ _ _ _ _ _ _ HI) as Hl.
    rewrite Eq, (tot_empty _ _ Eq) in Hl. simpl in Hl.
    rewrite (rc_pending RHandlerResume (heap st PLimit)) in Hl by lia.
    destruct (inv_values _ _ _ _ _ _ _ HI) as (Hlen & _ & Hrem & Hcell).
    simpl in Hlen, Hrem, Hcell.
    rewrite (rc_pending (RAdopt PLimit) (heap st PAll)) in Hcell by lia.
    destruct (Nat.eqb_spec (remaining st) 0) as [E|E]; [simpl in Hcell; lia|].
    destruct (unrecorded_pos (allValues st)) as (k & Hk & Hn).
    { rewrite <- Hrem by auto. lia. }
    rewrite Hlen in Hk by auto.
    pose proof (inv_all _ _ _ _ _ _ _ HI k) as Ha.
    rewrite (tot_empty _ _ Eq) in Ha. unfold recorded in Ha.
    rewrite Hn in Ha. simpl in Ha.
    rewrite (proj2 (Nat.ltb_lt _ _) Hk) in Ha. simpl in Ha.
    apply (result_pending_busy _ _ k HI Eq); [simpl; lia|].
    apply (rc_pending (RAllElement k)). lia.
Qed.

Lemma Inv_initial : Inv 0 (Running 0) initial.
Proof.
  constructor; simpl; auto; try (intros; reflexivity).
  - split; simpl; auto.
  - lia.
  - intros [|k]; reflexivity.
  - repeat split; auto; try discriminate. intros [|k] v; discriminate.
  - intros r; discriminate.
Qed.

Lemma Inv_await_limit ms st :
  Inv 0 ms st -> Inv 1 ms (await PLimit RHandlerResume st).
Proof.
  intros HI. unfold await.
  pose proof (inv_typed _ _ _ _ _ _ _ HI) as HT.
  constructor; try solve [laws0 HI]; auto.
  apply Typed_then; simpl; auto.
Qed.

(** *** Every step lowers the potential *)

Lemma potential_limitLoop h rest :
  forall k st,
    Inv h (Running k) st -> rest = skipn k (sentences req) ->
    potential (total req) (limitLoop req limit rest k st)
    <= potential (total req) st + loopCost (total req) (total req - k).
Proof.
  induction rest as [|a rest IH]; intros k st HI Hrest.
  - symmetry in Hrest. apply skipn_nil_inv in Hrest.
    pose proof (inv_started _ _ _ _ _ _ _ HI) as Hs. simpl in Hs.
    fold (total req) in Hrest.
    assert (k = total req) by lia. subst k.
    cbn [limitLoop]. unfold limitReturn, allSettled.
    rewrite (inv_results _ _ _ _ _ _ _ HI). simpl started.
    rewrite length_map, length_seq, combine_seq_results.
    fold (registerAll (seq 0 (total req))
                      (set_all (repeat None (total req)) (total req) st)).
    assert (Hreg : potential (total req)
                     (registerAll (seq 0 (total req))
                        (set_all (repeat None (total req)) (total req) st))
                   = potential (total req) st + total req).
    { rewrite potential_registerAll.
      - rewrite length_seq. reflexivity.
      - apply Forall_forall. intros i Hi. apply in_seq in Hi. lia. }
    destruct (total req =? 0); autorewrite with eff;
      rewrite ?potential_settle by exact I; rewrite Hreg;
      unfold loopCost; simpl; lia.
  - symmetry in Hrest. apply skipn_cons_inv in Hrest.
    destruct Hrest as [Hk Hrest]. fold (total req) in Hk.
    destruct (Inv_iteration h k st HI Hk) as [Hun Htr].
    cbn [limitLoop]. fold (total req). fold (tracking req limit).
    replace (total req - k) with (S (total req - S k)) by lia.
    rewrite loopCost_succ.
    destruct (tracking req limit) eqn:Etr.
    + specialize (Htr eq_refl). cbv zeta in Htr.
      match goal with
      | |- context [if ?c then _ else _] => destruct c
      end.
      * unfold await. rewrite potential_then by (simpl; lia).
        destruct (inv_executing _ _ _ _ _ _ _ Htr) as [Hlen Hmem].
        rewrite potential_race.
        2:{ eapply Forall_impl; [|exact Hmem].
            intros x (i & -> & Hi). exact Hi. }
        autorewrite with eff.
        rewrite potential_then by (simpl; lia).
        autorewrite with eff.
        destruct (inv_executing _ _ _ _ _ _ _ HI) as [Hlen0 _].
        simpl in Hlen0.
        cbn [executing set_executing set_results enqueue set_queue].
        rewrite length_app. simpl. lia.
      * eapply Nat.le_trans; [apply IH; eauto|].
        autorewrite with eff.
        rewrite potential_then by (simpl; lia).
        autorewrite with eff. simpl. lia.
    + eapply Nat.le_trans; [apply IH; eauto|].
      autorewrite with eff. simpl. lia.
Qed.

Lemma potential_callTask k st :
  k < total req ->
  potential (total req) (callTask w req k st) <= potential (total req) st + 3.
Proof.
  intros Hk. unfold callTask.
  destruct (sentence req k) as [| | | |s| |];
    autorewrite with eff; rewrite ?potential_settle by exact Hk;
    simpl; try lia.
  destruct (trim s); [|destruct (generateAudio _ _ _ _ _ _)];
    autorewrite with eff; rewrite ?potential_settle by exact Hk; simpl; lia.
Qed.

Lemma potential_allElement k o st :
  potential (total req) (allElement k o st) = potential (total req) st.
Proof.
  unfold allElement. destruct (_ =? 0); autorewrite with eff;
    rewrite ?potential_settle by exact I; autorewrite with eff; reflexivity.
Qed.

Lemma potential_resumeHandler o st :
  potential (total req) (resumeHandler w req sorting o st)
  = potential (total req) st.
Proof.
  unfold resumeHandler. destruct o as [[]|]; try reflexivity.
  destruct (collect req 0 items); reflexivity.
Qed.

Lemma potential_step ms st st' :
  Inv 1 ms st -> suspended ms -> step w req limit sorting st = Some st' ->
  potential (total req) st' < potential (total req) st.
Proof.
  intros HI Hs. unfold step.
  destruct (queue st) as [|j q] eqn:Eq; [discriminate|].
  intros [= <-].
  destruct (Typed_pop w req limit st _ _ (inv_typed _ _ _ _ _ _ _ HI) Eq)
    as [HT Hj].
  rewrite (potential_pop _ _ _ _ Eq).
  destruct j as [r o|x t]; [destruct r|]; simpl in Hj |- *.
  - pose proof (potential_callTask k (set_queue q st) Hj). lia.
  - unfold resumeTask. destruct Hj as (Hk & _).
    destruct o; rewrite potential_settle by exact Hk; lia.
  - destruct Hj as (y & Ha & _).
    rewrite potential_settle; [lia|].
    destruct y, target; simpl in Ha; try tauto. simpl. lia.
  - destruct Hj as (y & Ha & _).
    destruct y; simpl in Ha; try tauto. destruct Ha as (-> & Hk & _).
    unfold spliceExecuting.
    destruct o; [destruct (splice1 _ _)|];
      rewrite potential_settle by exact Hk; autorewrite with eff; lia.
  - destruct Hj as (y & Ha & _).
    destruct y; simpl in Ha; try tauto.
    rewrite potential_settle by (simpl; lia). lia.
  - destruct Hj as (y & Ha & Ho).
    destruct y; simpl in Ha; try tauto. destruct Ha as [-> Hk].
    destruct Ho as [v ->].
    pose proof (inv_resume _ _ _ _ _ _ _ HI (S k)) as Hr.
    rewrite (tot_pop _ _ _ _ Eq) in Hr. unfold jobReaction in Hr.
    destruct (reaction_eq_dec (RLimitResume (S k)) (RLimitResume (S k)));
      [|congruence].
    destruct ms as [k'|j|]; try lia.
    destruct (Nat.eqb_spec (S k) (S j)) as [E|E]; [|simpl in Hr; lia].
    injection E as ->.
    unfold resumeLimit.
    pose proof (potential_limitLoop 1 _ (S j) (set_queue q st)
                  (Inv_pop_resume _ _ _ _ HI Eq) eq_refl).
    lia.
  - rewrite potential_allElement. lia.
  - rewrite potential_resumeHandler. lia.
  - rewrite potential_then; [simpl; lia|].
    destruct Hj as [(k & Hk & -> & ->)|[-> ->]]; simpl; auto.
Qed.

Lemma potential_zero st : potential (total req) st = 0 -> queue st = [].
Proof.
  unfold potential. destruct (queue st) as [|j q]; auto.
  simpl. destruct j as [[]|]; simpl; lia.
Qed.

Lemma run_drains fuel :
  forall ms st,
    Inv 1 ms st -> suspended ms -> potential (total req) st <= fuel ->
    exists ms',
      suspended ms' /\ Inv 1 ms' (run w req limit sorting fuel st)
      /\ queue (run w req limit sorting fuel st) = [].
Proof.
  induction fuel as [|fuel IH]; intros ms st HI Hs Hp.
  - exists ms. simpl. split; [auto|split; [auto|]].
    apply potential_zero. lia.
  - simpl. destruct (step w req limit sorting st) as [st'|] eqn:Es.
    + destruct (Inv_step _ _ _ HI Hs Es) as (ms' & Hs' & HI').
      pose proof (potential_step _ _ _ HI Hs Es).
      apply (IH ms'); auto. lia.
    + exists ms. split; [auto|split; [auto|]].
      unfold step in Es. destruct (queue st); [reflexivity|discriminate].
Qed.

(** The handler answers, and with the expected records. *)
Lemma handler_responds first more :
  body_sentences req = JArray (first :: more) ->
  voiceKnown (voice req) = true ->
  (edgeTtsAvailable w || checkEdgeTts (versionProbe w) = true)%bool ->
  response (handlerEnd w req limit sorting)
  = Some (expectedResponse w req sorting)
  /\ queue (handlerEnd w req limit sorting) = [].
Proof.
  intros Eb Hv Ha. unfold handlerEnd, drain, handlerStart.
  rewrite Eb, Hv, Ha. simpl negb. cbv iota.
  destruct (Inv_limitLoop 0 (sentences req) 0 initial Inv_initial eq_refl)
    as (ms & Hs & HI).
  fold (parallelLimit req limit initial) in HI.
  apply Inv_await_limit in HI.
  destruct (run_drains _ ms _ HI Hs (Nat.le_refl _)) as (ms' & Hs' & HI' & Hq).
  fold (total req). split; auto.
  eapply Inv_done; eauto.
Qed.
End Step.

(** ** The response of an accepted batch *)

Lemma index_expectedResult w req i : index (expectedResult w req i) = i.
Proof.
  unfold expectedResult.
  destruct (sentence req i); try reflexivity.
  destruct (trim s); try reflexivity.
  destruct (snd _); reflexivity.
Qed.

(** Records that already stand in the order of their indices are left in
    place by the sort. *)
Lemma sort_by_index_expected w req a n :
  sort_by_index (map (expectedResult w req) (seq a n))
  = map (expectedResult w req) (seq a n).
Proof.
  revert a. induction n as [|n IH]; intros a; [reflexivity|].
  cbn [seq map sort_by_index fold_right].
  fold (sort_by_index (map (expectedResult w req) (seq (S a) n))).
  rewrite IH. destruct n as [|n]; [reflexivity|].
  cbn [seq map insert_by_index]. rewrite !index_expectedResult.
  rewrite (proj2 (Nat.leb_le a (S a))) by lia. reflexivity.
Qed.

Lemma arranged_expected w req sorting :
  arranged w req sorting = expectedResults w req.
Proof.
  unfold arranged, expectedResults. destruct sorting; [|reflexivity].
  apply sort_by_index_expected.
Qed.

Lemma allStrings_sentence req k :
  allStrings req -> k < total req -> isString (sentence req k) = true.
Proof.
  unfold allStrings, sentence, total. intros H Hk.
  rewrite Forall_forall in H. apply H. apply nth_In. exact Hk.
Qed.

(** With string sentences the handler answers 200, with one record per job:
    the record of job [i] at position [i]. *)
Lemma accepted_batch_response w req limit sorting :
  accepted w req -> allStrings req ->
  response (handlerEnd w req limit sorting)
  = Some (BatchOk (uuidv4 w) (total req)
                  (successCountOf (expectedResults w req))
                  (expectedResults w req)).
Proof.
  intros ((first & more & Eb) & Hv & Ha) Hs.
  destruct (handler_responds w req limit sorting
              (fun _ k Hk => allStrings_sentence req k Hs Hk)
              first more Eb Hv Ha) as [Hr _].
  rewrite Hr. unfold expectedResponse. rewrite arranged_expected.
  reflexivity.
Qed.

(** Batches shorter than the limit are not tracked by [parallelLimit]: there
    a sentence of any type gets its record. *)
Lemma short_batch_response w req limit sorting :
  accepted w req -> total req < limit ->
  response (handlerEnd w req limit sorting)
  = Some (BatchOk (uuidv4 w) (total req)
                  (successCountOf (expectedResults w req))
                  (expectedResults w req)).
Proof.
  intros ((first & more & Eb) & Hv & Ha) Hs.
  assert (Hn : tracking req limit = true ->
               forall k, k < total req -> isString (sentence req k) = true).
  { unfold tracking. intros H. apply Nat.leb_le in H. lia. }
  destruct (handler_responds w req limit sorting Hn first more Eb Hv Ha)
    as [Hr _].
  rewrite Hr. unfold expectedResponse. rewrite arranged_expected.
  reflexivity.
Qed.

(** ** The engine log *)

Lemma log_fold_then {A} (f : A -> pid) (g : A -> reaction) l st :
  log (fold_left (fun s a => then_ (f a) (g a) s) l st) = log st.
Proof.
  revert st. induction l as [|a l IH]; intros st; simpl; auto.
  rewrite IH. apply log_then.
Qed.

Lemma log_limitReturn st : log (limitReturn st) = log st.
Proof.
  unfold limitReturn, allSettled. rewrite log_enqueue.
  destruct (_ =? 0); rewrite ?log_settle;
    rewrite (log_fold_then snd (fun ip => RAllElement (fst ip))); reflexivity.
Qed.

Lemma log_limitLoop req limit rest :
  forall k st, log (limitLoop req limit rest k st) = log st.
Proof.
  induction rest as [|a rest IH]; intros k st; cbn [limitLoop].
  - apply log_limitReturn.
  - destruct (limit <=? _).
    + match goal with
      | |- context [if ?c then _ else _] => destruct c
      end.
      * unfold await. rewrite log_then, log_race. cbn [log set_executing].
        rewrite log_then. reflexivity.
      * rewrite IH. cbn [log set_executing]. rewrite log_then. reflexivity.
    + rewrite IH. reflexivity.
Qed.

Lemma log_callTask w req k st :
  log (callTask w req k st) = log st
  \/ exists c, nonBlank req k = true
               /\ log (callTask w req k st)
                  = log st ++ [ExecStart k c; ExecEnd k].
Proof.
  unfold callTask, nonBlank. rewrite log_enqueue.
  destruct (sentence req k) as [| | | |s| |]; rewrite ?log_settle; auto.
  destruct (trim s) as [|c0 text'] eqn:Et; rewrite ?log_settle; auto.
  unfold generateAudio.
  destruct (cleanText (c0 :: text')) as [|c1 clean]; cbn [log enqueue set_queue add_log].
  - left. apply app_nil_r.
  - right. eexists. split; reflexivity.
Qed.

Lemma log_step w req limit sorting st st' :
  step w req limit sorting st = Some st' ->
  log st' = log st
  \/ exists k c, nonBlank req k = true
                 /\ log st' = log st ++ [ExecStart k c; ExecEnd k].
Proof.
  unfold step. destruct (queue st) as [|j q]; [discriminate|].
  intros [= <-]. destruct j as [r o|x t]; [destruct r|]; simpl.
  - destruct (log_callTask w req k (set_queue q st)) as [H|(c & Hn & H)];
      [left|right; exists k, c; split; auto]; exact H.
  - left. unfold resumeTask. destruct o; rewrite log_settle; reflexivity.
  - left. rewrite log_settle. reflexivity.
  - left. unfold spliceExecuting.
    destruct o; [destruct (splice1 _ _)|]; rewrite log_settle; reflexivity.
  - left. rewrite log_settle. reflexivity.
  - left. unfold resumeLimit.
    destruct o; [rewrite log_limitLoop|rewrite log_settle]; reflexivity.
  - left. unfold allElement.
    destruct (_ =? 0); [rewrite log_settle|]; reflexivity.
  - left. unfold resumeHandler. destruct o as [[]|]; try reflexivity.
    destruct (collect req 0 items); reflexivity.
  - left. rewrite log_then. reflexivity.
Qed.

Lemma EngineLog_run w req limit sorting fuel :
  forall st, EngineLog req (log st) ->
             EngineLog req (log (run w req limit sorting fuel st)).
Proof.
  induction fuel as [|fuel IH]; intros st H; simpl; auto.
  destruct (step w req limit sorting st) as [st'|] eqn:Es; auto.
  apply IH. destruct (log_step _ _ _ _ _ _ Es) as [E|(k & c & Hn & E)];
    rewrite E; [exact H|constructor; auto].
Qed.

Lemma log_handlerStart w req limit : log (handlerStart w req limit) = [].
Proof.
  unfold handlerStart.
  destruct (body_sentences req) as [| | | | |[|first more]|]; try reflexivity.
  destruct (negb _); [reflexivity|].
  destruct (negb _); [reflexivity|].
  unfold await, parallelLimit. rewrite log_then, log_limitLoop. reflexivity.
Qed.

Lemma EngineLog_reachable w req limit sorting fuel :
  EngineLog req (log (run w req limit sorting fuel (handlerStart w req limit))).
Proof.
  apply EngineLog_run. rewrite log_handlerStart. constructor.
Qed.

Lemma startedCount_app a b :
  startedCount (a ++ b) = startedCount a + startedCount b.
Proof. unfold startedCount. rewrite filter_app, length_app. reflexivity. Qed.

Lemma endedCount_app a b : endedCount (a ++ b) = endedCount a + endedCount b.
Proof. unfold endedCount. rewrite filter_app, length_app. reflexivity. Qed.

Lemma EngineLog_balanced req l :
  EngineLog req l -> startedCount l = endedCount l.
Proof.
  induction 1; [reflexivity|].
  rewrite startedCount_app, endedCount_app.
  change (startedCount [ExecStart k c; ExecEnd k]) with 1.
  change (endedCount [ExecStart k c; ExecEnd k]) with 1. lia.
Qed.

Lemma EngineLog_prefix req l :
  EngineLog req l ->
  forall p rest, l = p ++ rest -> startedCount p <= endedCount p + 1.
Proof.
  induction 1 as [|l k c Hl IH Hn]; intros p rest E.
  - symmetry in E. apply app_eq_nil in E. destruct E as [-> _].
    change (startedCount []) with 0. lia.
  - apply app_eq_app in E. destruct E as (m & [[E1 E2]|[E1 E2]]).
    + eapply IH. exact E1.
    + subst p. rewrite startedCount_app, endedCount_app.
      rewrite (EngineLog_balanced _ _ Hl).
      destruct m as [|e1 [|e2 [|e3 m]]]; simpl in E2.
      * change (startedCount []) with 0. lia.
      * injection E2 as <- _.
        change (startedCount [ExecStart k c]) with 1.
        change (endedCount [ExecStart k c]) with 0. lia.
      * injection E2 as <- <- _.
        change (startedCount [ExecStart k c; ExecEnd k]) with 1. lia.
      * discriminate.
Qed.

Lemma EngineLog_jobs req l :
  EngineLog req l -> forall e, In e l -> nonBlank req (jobOf e) = true.
Proof.
  induction 1 as [|l k c Hl IH Hn]; intros e Hin; [contradiction|].
  apply in_app_or in Hin. destruct Hin as [Hin|[<-|[<-|[]]]]; auto.
Qed.

(** ** Strings: digits, padding, trimming *)

Lemma digit_value n :
  N.to_nat (DIGIT_ZERO + N.of_nat n - DIGIT_ZERO) = n.
Proof. rewrite N.add_comm, N.add_sub. apply Nnat.Nat2N.id. Qed.

Lemma digits_from_value fuel :
  forall n acc,
    n < fuel ->
    fold_left (fun a c => a * 10 + N.to_nat (c - DIGIT_ZERO))
              (digits_from fuel n acc) 0
    = fold_left (fun a c => a * 10 + N.to_nat (c - DIGIT_ZERO)) acc n.
Proof.
  induction fuel as [|fuel IH]; intros n acc Hn; [lia|].
  cbn [digits_from].
  pose proof (Nat.div_mod_eq n 10) as Hdm.
  destruct (Nat.eqb_spec (n / 10) 0) as [E|E].
  - cbn [fold_left]. rewrite digit_value. f_equal. lia.
  - rewrite IH.
    + cbn [fold_left]. rewrite digit_value. f_equal. lia.
    + assert (n / 10 < n) by (apply Nat.div_lt; lia). lia.
Qed.

Lemma digits_value_String_of_nat n : digits_value (String_of_nat n) = n.
Proof.
  unfold digits_value, String_of_nat. rewrite digits_from_value by lia.
  reflexivity.
Qed.

Lemma digits_value_zeros k s :
  digits_value (repeat DIGIT_ZERO k ++ s) = digits_value s.
Proof.
  unfold digits_value. rewrite fold_left_app. f_equal.
  induction k as [|k IH]; simpl; auto.
Qed.

Lemma digits_value_padStart width n :
  digits_value (padStart width DIGIT_ZERO (String_of_nat n)) = n.
Proof.
  unfold padStart. rewrite digits_value_zeros.
  apply digits_value_String_of_nat.
Qed.

Lemma padStart_length width c s :
  List.length (padStart width c s) = Nat.max width (List.length s).
Proof. unfold padStart. rewrite length_app, repeat_length. lia. Qed.

Lemma digits_from_length fuel :
  forall n acc b,
    n < 10 ^ b -> 0 < b ->
    List.length (digits_from fuel n acc) <= b + List.length acc.
Proof.
  induction fuel as [|fuel IH]; intros n acc b Hn Hb; cbn [digits_from];
    [lia|].
  destruct (Nat.eqb_spec (n / 10) 0) as [E|E]; [simpl; lia|].
  destruct b as [|[|b]]; [lia| |].
  - simpl in Hn. exfalso. apply E. apply Nat.div_small. lia.
  - eapply Nat.le_trans; [apply (IH _ _ (S b))|simpl; lia]; [|lia].
    apply Nat.Div0.div_lt_upper_bound. simpl in *. lia.
Qed.

Lemma String_of_nat_short n :
  n < 1000 -> List.length (String_of_nat n) <= 3.
Proof.
  intros H. unfold String_of_nat.
  pose proof (digits_from_length (S n) n [] 3 H ltac:(lia)). simpl in *. lia.
Qed.

(** The names of one batch are pairwise distinct. *)
Lemma filename_injective w i j : filename w i = filename w j -> i = j.
Proof.
  unfold filename. intros H.
  apply app_inv_head in H. apply app_inv_head in H.
  apply app_inv_tail in H.
  apply (f_equal digits_value) in H.
  rewrite !digits_value_padStart in H. lia.
Qed.

Lemma trimStart_snoc l c :
  isWhiteSpace c = false -> exists l', trimStart (l ++ [c]) = l' ++ [c].
Proof.
  intros Hc. induction l as [|a l IH]; simpl.
  - rewrite Hc. exists []. reflexivity.
  - destruct (isWhiteSpace a); [exact IH|]. exists (a :: l). reflexivity.
Qed.

Lemma trimStart_head s c r :
  trimStart s = c :: r -> isWhiteSpace c = false.
Proof.
  induction s as [|a s IH]; simpl; [discriminate|].
  destruct (isWhiteSpace a) eqn:E; auto. intros [= <- _]. exact E.
Qed.

Lemma trimEnd_cons c l :
  isWhiteSpace c = false -> exists r, trimEnd (c :: l) = c :: r.
Proof.
  intros Hc. unfold trimEnd. simpl rev.
  destruct (trimStart_snoc (rev l) c Hc) as [l' E]. rewrite E.
  rewrite rev_app_distr. simpl. eauto.
Qed.

Lemma trim_head s c r : trim s = c :: r -> isWhiteSpace c = false.
Proof.
  unfold trim. destruct (trimStart s) as [|c0 t] eqn:Et.
  - discriminate.
  - pose proof (trimStart_head _ _ _ Et) as Hc0.
    destruct (trimEnd_cons c0 t Hc0) as [r' E]. rewrite E.
    intros [= <- _]. exact Hc0.
Qed.

Lemma trim_cons c l :
  isWhiteSpace c = false -> exists r, trim (c :: l) = c :: r.
Proof.
  intros Hc. unfold trim. simpl. rewrite Hc. apply trimEnd_cons. exact Hc.
Qed.

(** The text a task passes on is never emptied by [generateAudio]'s
    clean-up: its first unit is not white space and every rewrite keeps it
    so. *)
Lemma cleanText_trimmed s c r :
  trim s = c :: r -> exists c' r', cleanText (trim s) = c' :: r'.
Proof.
  intros E. pose proof (trim_head _ _ _ E) as Hc. rewrite E.
  unfold cleanText, replaceAll, removeAll. cbn [map].
  set (c1 := if (c =? QUOTE)%N then APOSTROPHE else c).
  assert (H1 : isWhiteSpace c1 = false).
  { unfold c1. destruct (c =? QUOTE)%N; [reflexivity|exact Hc]. }
  assert (H2 : (c1 =? LF)%N = false).
  { destruct (N.eqb_spec c1 LF) as [E1|]; [|reflexivity].
    rewrite E1 in H1. discriminate. }
  assert (H3 : (c1 =? CR)%N = false).
  { destruct (N.eqb_spec c1 CR) as [E1|]; [|reflexivity].
    rewrite E1 in H1. discriminate. }
  rewrite H2. cbn [filter]. rewrite H3. cbn [negb].
  destruct (trim_cons c1 (filter (fun c0 => negb (c0 =? CR)%N)
                           (map (fun c0 => if (c0 =? LF)%N then SPACE else c0)
                              (map (fun c0 => if (c0 =? QUOTE)%N
                                              then APOSTROPHE else c0) r)))
              H1) as [r' E'].
  rewrite E'. eauto.
Qed.

(** The record of a job with a non-blank text, read off the engine. *)
Lemma expectedResult_engine w req i s c r :
  sentence req i = JString s -> trim s = c :: r ->
  expectedResult w req i
  = match execSync w (commandOf w req i) with
    | ExecThrows m =>
        failureResult i (trim s) (Some (MSG_EXEC_FAILED ++ m))
    | ExecReturns FileMissing =>
        failureResult i (trim s) (Some MSG_NO_FILE)
    | ExecReturns (FileSize size) =>
        if (0 <? size)%N then successResult w i (trim s)
        else failureResult i (trim s) (Some MSG_EMPTY_FILE)
    end.
Proof.
  intros Es Et. unfold expectedResult, commandOf. rewrite Es.
  destruct (cleanText_trimmed s c r Et) as (c' & r' & Ec).
  rewrite Et at 1. unfold generateAudio.
  rewrite <- Et. rewrite Ec. cbn [snd].
  destruct (execSync w _) as [m|[|size]]; try reflexivity.
  destruct (0 <? size)%N; reflexivity.
Qed.

Lemma expectedResult_blank w req i s :
  sentence req i = JString s -> trim s = [] ->
  expectedResult w req i = blankResult i.
Proof. intros Es Et. unfold expectedResult. rewrite Es, Et. reflexivity. Qed.

Lemma nth_error_expectedResults w req i :
  i < total req ->
  nth_error (expectedResults w req) i = Some (expectedResult w req i).
Proof.
  intros Hi. unfold expectedResults.
  rewrite nth_error_map, nth_error_seq, (proj2 (Nat.ltb_lt _ _) Hi).
  reflexivity.
Qed.

(** ** The order of the engine calls *)

Lemma calls_app a b : calls (a ++ b) = calls a ++ calls b.
Proof. apply flat_map_app. Qed.

Lemma calls_reactions o rs :
  Forall (fun r => isCall r = false) rs ->
  calls (map (fun r => JReaction r o) rs) = [].
Proof.
  induction 1 as [|r rs Hr _ IH]; [reflexivity|].
  cbn [map]. change (calls (?j :: ?q)) with (callOf j ++ calls q).
  rewrite IH. destruct r; try discriminate; reflexivity.
Qed.

Lemma keeps_refl st : keeps st st.
Proof. intros H. auto. Qed.

Lemma keeps_trans a b c : keeps a b -> keeps b c -> keeps a c.
Proof.
  intros H1 H2 Hq. destruct (H1 Hq) as (Hb & E1 & E2 & E3).
  destruct (H2 Hb) as (Hc & F1 & F2 & F3).
  split; [auto|]. split; [congruence|]. split; congruence.
Qed.

Lemma keeps_settle x o st : keeps st (settle x o st).
Proof.
  intros Hq. unfold settle. destruct (heap st x) as [rs|o'] eqn:E; auto.
  split; [|split; [|split]]; try reflexivity.
  - intros y rs'. cbn [heap set_queue set_heap].
    destruct (pid_eq_dec x y); [discriminate|apply Hq].
  - cbn [queue set_queue]. rewrite calls_app, calls_reactions, app_nil_r; auto.
    apply (Hq x). exact E.
Qed.

Lemma keeps_enqueue j st : callOf j = [] -> keeps st (enqueue j st).
Proof.
  intros Hj Hq. split; [exact Hq|]. split; [|split; reflexivity].
  unfold enqueue. cbn [queue set_queue]. rewrite calls_app.
  unfold calls at 2. cbn [flat_map]. rewrite Hj. rewrite !app_nil_r.
  reflexivity.
Qed.

Lemma callOf_reaction r o : isCall r = false -> callOf (JReaction r o) = [].
Proof. destruct r; try discriminate; reflexivity. Qed.

Lemma keeps_then x r st : isCall r = false -> keeps st (then_ x r st).
Proof.
  intros Hr. unfold then_. destruct (heap st x) as [rs|o] eqn:E.
  - intros Hq. split; [|split; [|split]]; try reflexivity.
    intros y rs'. cbn [heap set_heap].
    destruct (pid_eq_dec x y); [|apply Hq].
    intros [= <-]. apply Forall_app. split; [apply (Hq x); exact E|].
    constructor; [exact Hr|constructor].
  - apply keeps_enqueue. apply callOf_reaction. exact Hr.
Qed.

Lemma keeps_fold_then {A} (f : A -> pid) (g : A -> reaction) l :
  (forall a, isCall (g a) = false) ->
  forall st, keeps st (fold_left (fun s a => then_ (f a) (g a) s) l st).
Proof.
  intros Hg. induction l as [|a l IH]; intros st; [apply keeps_refl|].
  cbn [fold_left]. eapply keeps_trans; [apply keeps_then, Hg|apply IH].
Qed.

Lemma keeps_set_executing l st : keeps st (set_executing l st).
Proof. intros H. repeat split; auto. Qed.

Lemma keeps_set_all vs n st : keeps st (set_all vs n st).
Proof. intros H. repeat split; auto. Qed.

Lemma keeps_set_response r st : keeps st (set_response r st).
Proof. intros H. repeat split; auto. Qed.

Lemma keeps_race k xs st : keeps st (race k xs st).
Proof.
  unfold race. apply (keeps_fold_then (fun x => x) (fun _ => RRace k)).
  reflexivity.
Qed.

Lemma keeps_limitReturn st : keeps st (limitReturn st).
Proof.
  unfold limitReturn, allSettled.
  eapply keeps_trans; [|apply keeps_enqueue; reflexivity].
  eapply keeps_trans; [apply keeps_set_all|].
  eapply keeps_trans;
    [apply (keeps_fold_then snd (fun ip => RAllElement (fst ip)));
     reflexivity|].
  destruct (_ =? 0); [apply keeps_settle|apply keeps_refl].
Qed.

Lemma keeps_spliceExecuting k o st : keeps st (spliceExecuting k o st).
Proof.
  unfold spliceExecuting. destruct o; [|apply keeps_settle].
  destruct (splice1 _ _) as [kept removed].
  eapply keeps_trans; [apply keeps_set_executing|apply keeps_settle].
Qed.

Lemma keeps_allElement k o st : keeps st (allElement k o st).
Proof.
  unfold allElement.
  destruct (_ =? 0);
    [eapply keeps_trans; [apply keeps_set_all|apply keeps_settle]
    |apply keeps_set_all].
Qed.

Lemma keeps_resumeHandler w req sorting o st :
  keeps st (resumeHandler w req sorting o st).
Proof.
  unfold resumeHandler.
  destruct o as [[]|]; try apply keeps_refl; try apply keeps_set_response.
  destruct (collect req 0 items);
    [apply keeps_set_response|apply keeps_refl].
Qed.

Lemma keeps_resumeTask w req k o st : keeps st (resumeTask w req k o st).
Proof. unfold resumeTask. destruct o; apply keeps_settle. Qed.

Lemma keeps_settle_thenable x o a b st :
  keeps st (enqueue (JThenable a b) (settle x o st)).
Proof.
  eapply keeps_trans; [apply keeps_settle|apply keeps_enqueue; reflexivity].
Qed.

Lemma order_callTask w req k st :
  quiet st ->
  quiet (callTask w req k st)
  /\ calls (queue (callTask w req k st)) = calls (queue st)
  /\ results (callTask w req k st) = results st
  /\ log (callTask w req k st) = log st ++ callEvents w req k.
Proof.
  intros Hq. unfold callTask, callEvents, nonBlank, commandOf.
  destruct (sentence req k) as [| | | |s| |] eqn:Es; cbv beta iota;
    try (rewrite app_nil_r;
         apply (keeps_settle_thenable _ _ _ _ st Hq)).
  destruct (trim s) as [|c t] eqn:Et; cbv beta iota.
  - rewrite app_nil_r.
    apply (keeps_settle_thenable _ _ _ _ st Hq).
  - destruct (cleanText_trimmed s c t Et) as (c' & t' & Ec).
    rewrite Et in Ec. unfold generateAudio. rewrite Ec.
    split; [exact Hq|]. split; [|split; reflexivity].
    unfold enqueue. cbn [queue set_queue add_log].
    rewrite !calls_app. cbn. rewrite !app_nil_r. reflexivity.
Qed.

Lemma order_limitLoop req limit rest :
  forall k st,
    quiet st ->
    exists m,
      quiet (limitLoop req limit rest k st)
      /\ calls (queue (limitLoop req limit rest k st))
         = calls (queue st) ++ seq k m
      /\ results (limitLoop req limit rest k st)
         = results st ++ map PResult (seq k m)
      /\ log (limitLoop req limit rest k st) = log st.
Proof.
  induction rest as [|a rest IH]; intros k st Hq; cbn [limitLoop].
  - exists 0. cbn [seq map]. rewrite !app_nil_r.
    apply keeps_limitReturn. exact Hq.
  - set (st1 := enqueue (JReaction (RCallTask k) (Fulfilled VUndefined)) st).
    set (st2 := set_results (results st1 ++ [PResult k]) st1).
    assert (H2 : quiet st2
                 /\ calls (queue st2) = calls (queue st) ++ [k]
                 /\ results st2 = results st ++ [PResult k]
                 /\ log st2 = log st).
    { split; [exact Hq|]. split; [|split; reflexivity].
      unfold st2, st1, enqueue. cbn [queue set_queue set_results].
      rewrite calls_app. reflexivity. }
    destruct H2 as (Hq2 & Ec2 & Er2 & El2).
    destruct (limit <=? _).
    + set (st3 := then_ (PResult k) (RSplice k) st2).
      set (st4 := set_executing (executing st3 ++ [PExec k]) st3).
      assert (K4 : keeps st2 st4).
      { apply (keeps_trans _ st3);
          [apply keeps_then; reflexivity|apply keeps_set_executing]. }
      destruct (K4 Hq2) as (Hq4 & Ec4 & Er4 & El4).
      destruct (limit <=? List.length (executing st4)).
      * exists 1. unfold await.
        assert (K : keeps st4 (then_ (PRace k) (RLimitResume (S k))
                                     (race k (executing st4) st4))).
        { apply (keeps_trans _ (race k (executing st4) st4));
            [apply keeps_race|apply keeps_then; reflexivity]. }
        destruct (K Hq4) as (Hq5 & Ec5 & Er5 & El5).
        split; [exact Hq5|]. split; [|split]; cbn [seq map]; congruence.
      * destruct (IH (S k) st4 Hq4) as (m & Hq5 & Ec5 & Er5 & El5).
        exists (S m). split; [exact Hq5|]. cbn [seq map].
        rewrite Ec5, Er5, El5, Ec4, Er4, El4, Ec2, Er2, El2.
        rewrite <- !app_assoc. repeat split; reflexivity.
    + destruct (IH (S k) st2 Hq2) as (m & Hq5 & Ec5 & Er5 & El5).
      exists (S m). split; [exact Hq5|]. cbn [seq map].
      rewrite Ec5, Er5, El5, Ec2, Er2, El2.
      rewrite <- !app_assoc. repeat split; reflexivity.
Qed.

Lemma Typed_quiet w req limit st : Typed w req limit st -> quiet st.
Proof.
  intros [_ Hh] x rs E. specialize (Hh x). rewrite E in Hh. simpl in Hh.
  eapply Forall_impl; [|exact Hh].
  intros r Hr. destruct r; try reflexivity.
  destruct x; simpl in Hr; contradiction.
Qed.

Lemma expectedLog_succ w req c :
  expectedLog w req (S c) = expectedLog w req c ++ callEvents w req c.
Proof.
  unfold expectedLog. rewrite seq_S, flat_map_app. cbn [flat_map].
  rewrite app_nil_r. reflexivity.
Qed.

Lemma seq_head_inv c n k l : seq c n = k :: l -> k = c /\ l = seq (S c) (n - 1) /\ 1 <= n.
Proof.
  destruct n as [|n]; [discriminate|]. cbn [seq]. intros [= <- <-].
  replace (S n - 1) with n by lia. repeat split. lia.
Qed.

Lemma seq_app_inv n' n a m : seq 0 n' = seq 0 n ++ seq a (S m) -> a = n.
Proof.
  intros E. pose proof (f_equal (@List.length nat) E) as L.
  rewrite length_app, !length_seq in L.
  apply (f_equal (fun l => nth n l 0)) in E.
  rewrite app_nth2 in E by (rewrite length_seq; lia).
  rewrite length_seq, Nat.sub_diag in E. cbn [seq nth] in E.
  rewrite seq_nth in E by lia. lia.
Qed.

Lemma map_PResult_inj a b : map PResult a = map PResult b -> a = b.
Proof.
  revert b. induction a as [|x a IH]; intros [|y b]; try discriminate; auto.
  cbn [map]. intros [= -> H]. f_equal. auto.
Qed.

Section Order.

Variable w : World.
Variable req : Request.
Variable limit : nat.
Variable sorting : bool.

Hypothesis strings_when_tracking :
  tracking req limit = true ->
  forall k, k < total req -> isString (sentence req k) = true.

Lemma InOrder_step ms st st' :
  Inv w req limit sorting 1 ms st -> suspended ms -> InOrder w req st ->
  step w req limit sorting st = Some st' ->
  InOrder w req st'.
Proof.
  intros HI Hs (c & Hc & Eq & El) Es.
  destruct (Inv_step w req limit sorting strings_when_tracking ms st st'
                     HI Hs Es) as (ms' & _ & HI').
  pose proof (inv_results _ _ _ _ _ _ _ HI) as Hr.
  pose proof (inv_results _ _ _ _ _ _ _ HI') as Hr'.
  pose proof (Typed_quiet _ _ _ _ (inv_typed _ _ _ _ _ _ _ HI)) as Hq.
  unfold step in Es. destruct (queue st) as [|j q] eqn:Eqq; [discriminate|].
  injection Es as <-.
  assert (Hq0 : quiet (set_queue q st)) by exact Hq.
  assert (Keep : forall st1,
             callOf j = [] -> keeps (set_queue q st) st1 ->
             InOrder w req st1).
  { intros st1 Hj K. destruct (K Hq0) as (_ & E1 & E2 & E3).
    exists c. rewrite E1, E2, E3. cbn [queue results log set_queue].
    split; [exact Hc|]. split; [|exact El].
    rewrite <- Eq. change (calls (j :: q)) with (callOf j ++ calls q).
    rewrite Hj. reflexivity. }
  destruct j as [r o|x t]; [destruct r|]; cbn [runJob react].
  - change (calls (JReaction (RCallTask k) o :: q)) with (k :: calls q) in Eq.
    symmetry in Eq. apply seq_head_inv in Eq. destruct Eq as (-> & Eq & Hn).
    destruct (order_callTask w req c (set_queue q st) Hq0)
      as (_ & E1 & E2 & E3).
    exists (S c). rewrite E1, E2, E3. cbn [queue results log set_queue].
    split; [lia|]. split.
    + rewrite Eq. f_equal. lia.
    + rewrite El. symmetry. apply expectedLog_succ.
  - apply Keep; [reflexivity|apply keeps_resumeTask].
  - apply Keep; [reflexivity|apply keeps_settle].
  - apply Keep; [reflexivity|apply keeps_spliceExecuting].
  - apply Keep; [reflexivity|apply keeps_settle].
  - unfold resumeLimit. destruct o as [v|err].
    + unfold runJob, react, resumeLimit in Hr'.
      destruct (order_limitLoop req limit (skipn next (sentences req)) next
                                (set_queue q st) Hq0)
        as (m & _ & E1 & E2 & E3).
      rewrite E2 in Hr'. cbn [results set_queue] in Hr'.
      rewrite Hr in Hr'. rewrite <- map_app in Hr'.
      apply map_PResult_inj in Hr'.
      exists c. rewrite E1, E2, E3. cbn [queue results log set_queue].
      rewrite length_app, length_map, length_seq.
      split; [lia|]. split; [|exact El].
      change (calls (JReaction (RLimitResume next) (Fulfilled v) :: q))
        with (calls q) in Eq.
      rewrite Eq. destruct m as [|m].
      * cbn [seq]. rewrite app_nil_r, Nat.add_0_r. reflexivity.
      * symmetry in Hr'. apply seq_app_inv in Hr'. subst next.
        rewrite Hr, length_map, length_seq in Hc |- *.
        replace (started req ms + S m - c)
          with ((started req ms - c) + S m) by lia.
        rewrite seq_app. do 2 f_equal. lia.
    + apply Keep; [reflexivity|apply keeps_settle].
  - apply Keep; [reflexivity|apply keeps_allElement].
  - apply Keep; [reflexivity|apply keeps_resumeHandler].
  - apply Keep; [reflexivity|].
    apply keeps_then. reflexivity.
Qed.

Lemma InOrder_run fuel :
  forall ms st,
    Inv w req limit sorting 1 ms st -> suspended ms -> InOrder w req st ->
    InOrder w req (run w req limit sorting fuel st).
Proof.
  induction fuel as [|fuel IH]; intros ms st HI Hs Ho; [exact Ho|].
  cbn [run]. destruct (step w req limit sorting st) as [st'|] eqn:Es;
    [|exact Ho].
  destruct (Inv_step w req limit sorting strings_when_tracking ms st st'
                     HI Hs Es) as (ms' & Hs' & HI').
  apply (IH ms' st' HI' Hs').
  apply (InOrder_step ms st st' HI Hs Ho Es).
Qed.

(** With nothing left to run, [parallelLimit] has returned. *)
Lemma Inv_drained ms st :
  Inv w req limit sorting 1 ms st -> suspended ms -> queue st = [] ->
  ms = Finished.
Proof.
  intros HI Hs Eq. destruct ms as [k|j|]; [contradiction| |reflexivity].
  exfalso.
  pose proof (inv_resume _ _ _ _ _ _ _ HI (S j)) as Hr.
  rewrite (tot_empty _ _ Eq), Nat.eqb_refl in Hr. simpl in Hr.
  pose proof (inv_race _ _ _ _ _ _ _ HI) as Hrace. simpl in Hrace.
  rewrite (tot_empty _ _ Eq) in Hrace. simpl in Hrace.
  assert (Hp : sl (heap st (PRace j)) = 0)
    by (apply (rc_pending (RLimitResume (S j))); lia).
  specialize (Hrace Hp).
  pose proof (inv_exec _ _ _ _ _ _ _ HI j) as He.
  rewrite (tot_empty _ _ Eq) in He. simpl in He.
  rewrite (inv_tracking _ _ _ _ _ _ _ HI) in He.
  rewrite (rc_pending _ _ Hrace) in He.
  rewrite (proj2 (Nat.ltb_lt j (S j))) in He by lia. simpl in He.
  apply (result_pending_busy w req limit sorting _ _ j HI Eq); [simpl; lia|].
  apply (rc_pending (RSplice j)). lia.
Qed.

Lemma quiet_initial : quiet initial.
Proof. intros x rs [= <-]. constructor. Qed.

Lemma InOrder_start :
  InOrder w req (await PLimit RHandlerResume (parallelLimit req limit initial)).
Proof.
  unfold parallelLimit, await.
  destruct (order_limitLoop req limit (sentences req) 0 initial quiet_initial)
    as (m & Hq & Ec & Er & El).
  destruct (keeps_then PLimit RHandlerResume _ eq_refl Hq)
    as (_ & Ec' & Er' & El').
  exists 0. rewrite Ec', Er', El', Ec, Er, El. cbn [queue results log initial].
  cbn [app calls flat_map]. rewrite length_map, length_seq, Nat.sub_0_r.
  split; [lia|]. split; reflexivity.
Qed.

(** The engine is called once for every job with a text, in the order of the
    sentences, and for no other. *)
Lemma handler_calls_in_order first more :
  body_sentences req = JArray (first :: more) ->
  voiceKnown (voice req) = true ->
  (edgeTtsAvailable w || checkEdgeTts (versionProbe w) = true)%bool ->
  log (handlerEnd w req limit sorting) = expectedLog w req (total req).
Proof.
  intros Eb Hv Ha. unfold handlerEnd, drain, handlerStart.
  rewrite Eb, Hv, Ha. simpl negb. cbv iota.
  destruct (Inv_limitLoop w req limit sorting strings_when_tracking
              0 (sentences req) 0 initial
              (Inv_initial w req limit sorting) eq_refl)
    as (ms & Hs & HI).
  fold (parallelLimit req limit initial) in HI.
  apply Inv_await_limit in HI.
  set (st0 := await PLimit RHandlerResume (parallelLimit req limit initial))
    in *.
  fold (total req).
  destruct (InOrder_run (potential (total req) st0) ms st0 HI Hs
                        InOrder_start) as (c & Hc & Ec & El).
  destruct (run_drains w req limit sorting strings_when_tracking
              _ ms _ HI Hs (Nat.le_refl _)) as (ms' & Hs' & HI' & Hq).
  pose proof (Inv_drained ms' _ HI' Hs' Hq). subst ms'.
  pose proof (inv_results _ _ _ _ _ _ _ HI') as Hr. cbn [started] in Hr.
  rewrite Hq, Hr, length_map, length_seq in Ec.
  rewrite Hr, length_map, length_seq in Hc.
  assert (c = total req).
  { destruct (total req - c) as [|d] eqn:E; [lia|discriminate]. }
  subst c. exact El.
Qed.

End Order.

Lemma accepted_batch_log w req limit sorting :
  accepted w req -> allStrings req ->
  log (handlerEnd w req limit sorting) = expectedLog w req (total req).
Proof.
  intros ((first & more & Eb) & Hv & Ha) Hs.
  apply (handler_calls_in_order w req limit sorting
           (fun _ k Hk => allStrings_sentence req k Hs Hk)
           first more Eb Hv Ha).
Qed.

(** ** Sample calls, idle runs and worlds that differ in the engine *)

Lemma accepted_sample engine first more :
  accepted (sampleWorld engine) (sampleRequest (first :: more)).
Proof.
  split; [exists first, more; reflexivity|].
  split; reflexivity.
Qed.

Lemma run_idle w req limit sorting fuel st :
  queue st = [] -> run w req limit sorting fuel st = st.
Proof.
  intros E. destruct fuel as [|fuel]; [reflexivity|].
  simpl. unfold step. rewrite E. reflexivity.
Qed.

Lemma EngineLog_final w req : EngineLog req (engineLog w req).
Proof. apply EngineLog_reachable. Qed.

Lemma blankText_nonBlank req i : blankText req i -> nonBlank req i = false.
Proof. intros (s & Es & Et). unfold nonBlank. rewrite Es, Et. reflexivity. Qed.

Lemma accepted_sameButEngine w w' req :
  sameButEngine w w' -> accepted w req -> accepted w' req.
Proof.
  intros (_ & _ & _ & _ & Ea & Ep) (Hb & Hv & Ha).
  split; [exact Hb|]. split; [exact Hv|]. rewrite Ea, Ep. exact Ha.
Qed.

Lemma commandOf_sameButEngine w w' req i :
  sameButEngine w w' -> commandOf w' req i = commandOf w req i.
Proof.
  intros (_ & Ej & Ed & Eu & _). unfold commandOf, outputPath, filename, batchId.
  rewrite Ej, Ed, Eu. reflexivity.
Qed.

(** The record of a job depends on the engine through the call of that job
    alone. *)
Lemma expectedResult_local w w' req i :
  sameButEngine w w' ->
  execSync w' (commandOf w req i) = execSync w (commandOf w req i) ->
  expectedResult w' req i = expectedResult w req i.
Proof.
  intros Hw He.
  destruct (sentence req i) as [| | | |s| |] eqn:Es;
    try (unfold expectedResult; rewrite Es;
         destruct Hw as (-> & _); reflexivity).
  destruct (trim s) as [|c r] eqn:Et.
  - rewrite !(expectedResult_blank _ req i s Es Et). reflexivity.
  - rewrite !(expectedResult_engine _ req i s c r Es Et).
    rewrite (commandOf_sameButEngine w w' req i Hw), He.
    destruct Hw as (_ & _ & _ & Eu & _).
    unfold successResult, filename, batchId. rewrite Eu. reflexivity.
Qed.

(** ** Which jobs stand in [executing] *)

Lemma tracks_fold_then {A} (f : A -> pid) (g : A -> reaction) l st :
  results (fold_left (fun s a => then_ (f a) (g a) s) l st) = results st
  /\ executing (fold_left (fun s a => then_ (f a) (g a) s) l st)
     = executing st.
Proof.
  revert st. induction l as [|a l IH]; intros st; simpl; auto.
  destruct (IH (then_ (f a) (g a) st)) as [-> ->].
  rewrite results_then, executing_then. auto.
Qed.

Lemma tracks_limitReturn st :
  results (limitReturn st) = results st
  /\ executing (limitReturn st) = executing st.
Proof.
  unfold limitReturn, allSettled.
  rewrite results_enqueue, executing_enqueue.
  destruct (_ =? 0); rewrite ?results_settle, ?executing_settle;
    destruct (tracks_fold_then snd (fun ip => RAllElement (fst ip))
                (combine (seq 0 (List.length (results st))) (results st))
                (set_all (repeat None (List.length (results st)))
                         (List.length (results st)) st)) as [-> ->];
    split; reflexivity.
Qed.

Section Slots.

Variable w : World.
Variable req : Request.
Variable limit : nat.
Variable sorting : bool.

Lemma tracks_callTask k st :
  results (callTask w req k st) = results st
  /\ executing (callTask w req k st) = executing st.
Proof.
  unfold callTask. rewrite results_enqueue, executing_enqueue.
  destruct (sentence req k); autorewrite with eff; auto.
  destruct (trim s); autorewrite with eff; auto.
  destruct (generateAudio _ _ _ _ _ _). autorewrite with eff. auto.
Qed.

Lemma tracks_resumeTask k o st :
  results (resumeTask w req k o st) = results st
  /\ executing (resumeTask w req k o st) = executing st.
Proof. unfold resumeTask. destruct o; autorewrite with eff; auto. Qed.

Lemma tracks_allElement k o st :
  results (allElement k o st) = results st
  /\ executing (allElement k o st) = executing st.
Proof.
  unfold allElement. destruct (_ =? 0); autorewrite with eff; auto.
Qed.

Lemma tracks_resumeHandler o st :
  results (resumeHandler w req sorting o st) = results st
  /\ executing (resumeHandler w req sorting o st) = executing st.
Proof.
  unfold resumeHandler. destruct o as [[]|]; auto.
  destruct (collect _ _ _); auto.
Qed.

Lemma tracks_limitLoop_off rest :
  tracking req limit = false ->
  forall k st,
    executing (limitLoop req limit rest k st) = executing st.
Proof.
  intros Ht. unfold tracking, total in Ht.
  induction rest as [|a rest IH]; intros k st; cbn [limitLoop].
  - apply tracks_limitReturn.
  - rewrite Ht. rewrite IH. reflexivity.
Qed.

(** A batch shorter than the limit: [executing] stays empty. *)
Lemma untracked_step st st' :
  tracking req limit = false -> executing st = [] ->
  step w req limit sorting st = Some st' -> executing st' = [].
Proof.
  intros Ht He. unfold step. destruct (queue st) as [|j q]; [discriminate|].
  intros [= <-].
  assert (He' : executing (set_queue q st) = []) by exact He.
  revert He'. generalize (set_queue q st). clear He st. intros st He.
  destruct j as [r o|x t]; cbn [runJob].
  - destruct r; cbn [react].
    + rewrite (proj2 (tracks_callTask _ _)). exact He.
    + rewrite (proj2 (tracks_resumeTask _ _ _)). exact He.
    + rewrite executing_settle. exact He.
    + unfold spliceExecuting. destruct o.
      * rewrite He. unfold splice1.
        rewrite executing_settle. cbn [executing set_executing fst snd].
        rewrite firstn_nil, skipn_nil. reflexivity.
      * rewrite executing_settle. exact He.
    + rewrite executing_settle. exact He.
    + unfold resumeLimit. destruct o.
      * rewrite (tracks_limitLoop_off _ Ht). exact He.
      * rewrite executing_settle. exact He.
    + rewrite (proj2 (tracks_allElement _ _ _)). exact He.
    + rewrite (proj2 (tracks_resumeHandler _ _)). exact He.
  - rewrite executing_then. exact He.
Qed.

Lemma untracked_run fuel :
  tracking req limit = false ->
  forall st, executing st = [] ->
             executing (run w req limit sorting fuel st) = [].
Proof.
  intros Ht. induction fuel as [|fuel IH]; intros st He; cbn [run]; auto.
  destruct (step w req limit sorting st) as [st'|] eqn:Es; auto.
  apply IH. eapply untracked_step; eauto.
Qed.

Lemma untracked_handlerStart :
  tracking req limit = false -> executing (handlerStart w req limit) = [].
Proof.
  intros Ht. unfold handlerStart.
  destruct (body_sentences req) as [| | | | |[|first more]|]; try reflexivity.
  destruct (negb _); [reflexivity|].
  destruct (negb _); [reflexivity|].
  unfold await, parallelLimit.
  rewrite executing_then, (tracks_limitLoop_off _ Ht). reflexivity.
Qed.

(** A batch that is tracked: a job is put into [executing] in the very step
    that puts its promise into [results]. *)
Lemma paired_limitLoop i rest :
  tracking req limit = true ->
  forall k st, paired i st -> paired i (limitLoop req limit rest k st).
Proof.
  intros Ht. unfold tracking, total in Ht.
  induction rest as [|a rest IH]; intros k st Hp; cbn [limitLoop].
  - unfold paired. destruct (tracks_limitReturn st) as [-> ->]. exact Hp.
  - rewrite Ht.
    set (st4 := set_executing _ _).
    assert (Hp4 : paired i st4).
    { unfold paired, st4. cbn [results executing set_executing].
      rewrite results_then, executing_then.
      cbn [results executing set_results].
      rewrite results_enqueue, executing_enqueue.
      intros Hin. apply in_or_app. apply in_app_or in Hin.
      destruct Hin as [Hin|[[= <-]|[]]]; [left; apply Hp; exact Hin|].
      right. left. reflexivity. }
    destruct (limit <=? List.length (executing st4)).
    + unfold paired, await.
      rewrite results_then, executing_then, results_race, executing_race.
      exact Hp4.
    + apply IH. exact Hp4.
Qed.

Lemma tracked_step i st st' :
  tracking req limit = true -> ~ In (PResult i) (results st) ->
  step w req limit sorting st = Some st' ->
  In (PResult i) (results st') -> In (PExec i) (executing st').
Proof.
  intros Ht Hn. unfold step. destruct (queue st) as [|j q]; [discriminate|].
  intros [= <-].
  assert (Hn' : ~ In (PResult i) (results (set_queue q st))) by exact Hn.
  revert Hn'. generalize (set_queue q st). clear Hn st. intros st Hn.
  destruct j as [r o|x t]; cbn [runJob].
  - destruct r; cbn [react].
    + rewrite (proj1 (tracks_callTask _ _)). contradiction.
    + rewrite (proj1 (tracks_resumeTask _ _ _)). contradiction.
    + rewrite results_settle. contradiction.
    + unfold spliceExecuting. destruct o.
      * destruct (splice1 _ _). rewrite results_settle. contradiction.
      * rewrite results_settle. contradiction.
    + rewrite results_settle. contradiction.
    + unfold resumeLimit. destruct o.
      * apply (paired_limitLoop i _ Ht). intros H. contradiction.
      * rewrite results_settle. contradiction.
    + rewrite (proj1 (tracks_allElement _ _ _)). contradiction.
    + rewrite (proj1 (tracks_resumeHandler _ _)). contradiction.
  - rewrite results_then. contradiction.
Qed.

Lemma tracked_run i fuel :
  tracking req limit = true ->
  forall st,
    ~ In (PResult i) (results st) ->
    In (PResult i) (results (run w req limit sorting fuel st)) ->
    exists f, In (PExec i) (executing (run w req limit sorting f st)).
Proof.
  intros Ht. induction fuel as [|fuel IH]; intros st Hn; cbn [run].
  - contradiction.
  - destruct (step w req limit sorting st) as [st'|] eqn:Es; [|contradiction].
    intros Hin.
    destruct (in_dec pid_eq_dec (PResult i) (results st')) as [H|H].
    + exists 1. cbn [run]. rewrite Es.
      apply (tracked_step i st st' Ht Hn Es H).
    + destruct (IH st' H Hin) as (f & Hf).
      exists (S f). cbn [run]. rewrite Es. exact Hf.
Qed.

Hypothesis strings_when_tracking :
  tracking req limit = true ->
  forall k, k < total req -> isString (sentence req k) = true.

Lemma handlerEnd_results first more :
  body_sentences req = JArray (first :: more) ->
  voiceKnown (voice req) = true ->
  (edgeTtsAvailable w || checkEdgeTts (versionProbe w) = true)%bool ->
  results (handlerEnd w req limit sorting)
  = map PResult (seq 0 (total req)).
Proof.
  intros Eb Hv Ha. unfold handlerEnd, drain, handlerStart.
  rewrite Eb, Hv, Ha. simpl negb. cbv iota.
  destruct (Inv_limitLoop w req limit sorting strings_when_tracking
              0 (sentences req) 0 initial
              (Inv_initial w req limit sorting) eq_refl)
    as (ms & Hs & HI).
  fold (parallelLimit req limit initial) in HI.
  apply Inv_await_limit in HI.
  destruct (run_drains w req limit sorting strings_when_tracking
              _ ms _ HI Hs (Nat.le_refl _)) as (ms' & Hs' & HI' & Hq).
  fold (total req).
  pose proof (Inv_drained _ _ _ _ _ _ HI' Hs' Hq) as ->.
  apply (inv_results _ _ _ _ _ _ _ HI').
Qed.

(** Every job of a tracked batch stands in [executing] at some time. *)
Lemma tracked_handler i first more :
  body_sentences req = JArray (first :: more) ->
  voiceKnown (voice req) = true ->
  (edgeTtsAvailable w || checkEdgeTts (versionProbe w) = true)%bool ->
  tracking req limit = true -> i < total req ->
  exists fuel,
    In (PExec i)
       (executing (run w req limit sorting fuel (handlerStart w req limit))).
Proof.
  intros Eb Hv Ha Ht Hi.
  destruct (in_dec pid_eq_dec (PResult i)
                   (results (handlerStart w req limit))) as [H|H].
  - exists 0. cbn [run]. revert H. unfold handlerStart.
    rewrite Eb, Hv, Ha. simpl negb. cbv iota. unfold await, parallelLimit.
    rewrite results_then, executing_then.
    apply (paired_limitLoop i _ Ht). intros [].
  - apply (tracked_run i (potential (total req) (handlerStart w req limit))
                       Ht _ H).
    change (In (PResult i) (results (handlerEnd w req limit sorting))).
    rewrite (handlerEnd_results first more Eb Hv Ha).
    apply in_map, in_seq. lia.
Qed.

End Slots.

(** ** The claims *)

(** C1.  For every accepted list of sentences the response carries exactly
    one record per job: the results are as many as the sentences, whatever
    the engine does with each of them. *)
Theorem one_result_per_job w req :
  accepted w req -> allStrings req ->
  exists batch count results,
    generateBatch w req
    = Some (BatchOk batch (List.length (sentences req)) count results)
    /\ List.length results = List.length (sentences req).
Proof.
  intros Ha Hs. unfold generateBatch.
  rewrite (accepted_batch_response w req _ _ Ha Hs).
  do 3 eexists. split; [reflexivity|].
  unfold expectedResults. rewrite length_map, length_seq. reflexivity.
Qed.

Lemma one_result_per_job_witness :
  exists batch count results,
    generateBatch (sampleWorld failsOnSecond) (sampleRequest fourSentences)
    = Some (BatchOk batch 4 count results)
    /\ List.length results = 4.
Proof.
  apply (one_result_per_job (sampleWorld failsOnSecond)
                            (sampleRequest fourSentences)).
  - apply accepted_sample.
  - repeat constructor.
Defined.

(** C2.  The results of an accepted batch stand in input order: the record
    at position [i] has index [i] and is the record of sentence [i]. *)
Theorem results_follow_input_order w req :
  accepted w req -> allStrings req ->
  exists batch count results,
    generateBatch w req = Some (BatchOk batch (total req) count results)
    /\ List.length results = total req
    /\ forall i, i < total req ->
         exists r, nth_error results i = Some r
                   /\ index r = i /\ r = expectedResult w req i.
Proof.
  intros Ha Hs. unfold generateBatch.
  rewrite (accepted_batch_response w req _ _ Ha Hs).
  do 3 eexists. split; [reflexivity|]. split.
  - unfold expectedResults. rewrite length_map, length_seq. reflexivity.
  - intros i Hi. exists (expectedResult w req i).
    rewrite nth_error_expectedResults by exact Hi.
    repeat split. apply index_expectedResult.
Qed.

Lemma results_follow_input_order_witness :
  exists batch count results,
    generateBatch (sampleWorld engineOk) (sampleRequest threeSentences)
    = Some (BatchOk batch 3 count results)
    /\ List.length results = 3
    /\ forall i, i < 3 ->
         exists r, nth_error results i = Some r
                   /\ index r = i
                   /\ r = expectedResult (sampleWorld engineOk)
                                         (sampleRequest threeSentences) i.
Proof.
  apply (results_follow_input_order (sampleWorld engineOk)
                                    (sampleRequest threeSentences)).
  - apply accepted_sample.
  - repeat constructor.
Defined.

(** C3.  Whatever the limit (at least one), at every instant of a run the
    engine calls started and not yet ended are at most [limit]: in every
    prefix of the call log of every reachable state, the starts exceed the
    ends by no more than [limit]. *)
Theorem engine_calls_within_limit w req limit sorting fuel p rest :
  1 <= limit ->
  log (run w req limit sorting fuel (handlerStart w req limit)) = p ++ rest ->
  startedCount p <= endedCount p + limit.
Proof.
  intros Hl E.
  pose proof (EngineLog_prefix req _
                (EngineLog_reachable w req limit sorting fuel) p rest E).
  lia.
Qed.

Lemma engine_calls_within_limit_witness :
  List.length oneAtATimeLog = 10
  /\ startedCount (firstn 5 oneAtATimeLog)
     <= endedCount (firstn 5 oneAtATimeLog) + 1.
Proof.
  split; [vm_compute; reflexivity|].
  apply (engine_calls_within_limit
           (sampleWorld engineOk) (sampleRequest fiveSentences) 1 true 200
           (firstn 5 oneAtATimeLog) (skipn 5 oneAtATimeLog)).
  - lia.
  - vm_compute. reflexivity.
Defined.

(** C4 (as it stands in the code).  A job whose text is blank once trimmed is
    never handed to the engine, so no timeout window opens for it, and its
    record is the failure with the fixed message.  It takes no slot when the
    batch has fewer than [MAX_CONCURRENT] jobs, for then no job is tracked;
    in a batch of [MAX_CONCURRENT] jobs or more its tracking promise is put
    into [executing] as for any other job. *)
Theorem blank_job_fails_without_engine w req i :
  accepted w req -> allStrings req -> i < total req -> blankText req i ->
  ~ dispatched i (engineLog w req)
  /\ (exists batch count results,
        generateBatch w req = Some (BatchOk batch (total req) count results)
        /\ nth_error results i
           = Some {| index := i; text := JString []; audioPath := None;
                     success := false; error := Some MSG_EMPTY_TEXT |})
  /\ (total req < MAX_CONCURRENT -> holdsNoSlot w req i)
  /\ (MAX_CONCURRENT <= total req -> holdsSlot w req i).
Proof.
  intros Ha Hs Hi Hb. split; [|split; [|split]].
  - intros (e & Hin & <-).
    pose proof (EngineLog_jobs req _ (EngineLog_final w req) e Hin) as Hn.
    rewrite (blankText_nonBlank req _ Hb) in Hn. discriminate.
  - unfold generateBatch.
    rewrite (accepted_batch_response w req _ _ Ha Hs).
    do 3 eexists. split; [reflexivity|].
    rewrite nth_error_expectedResults by exact Hi.
    destruct Hb as (s & Es & Et).
    rewrite (expectedResult_blank w req i s Es Et). reflexivity.
  - intros Hshort fuel.
    assert (Ht : tracking req MAX_CONCURRENT = false)
      by (apply Nat.leb_gt; exact Hshort).
    rewrite (untracked_run w req MAX_CONCURRENT true fuel Ht _
               (untracked_handlerStart w req MAX_CONCURRENT Ht)).
    intros [].
  - intros Hlong.
    destruct Ha as ((first & more & Eb) & Hv & Hav).
    apply (tracked_handler w req MAX_CONCURRENT true
             (fun _ k Hk => allStrings_sentence req k Hs Hk)
             i first more Eb Hv Hav); [|exact Hi].
    apply Nat.leb_le. exact Hlong.
Qed.

Lemma blank_job_fails_without_engine_witness :
  ~ dispatched 1 (engineLog (sampleWorld engineOk)
                            (sampleRequest threeSentences))
  /\ (exists batch count results,
        generateBatch (sampleWorld engineOk) (sampleRequest threeSentences)
        = Some (BatchOk batch 3 count results)
        /\ nth_error results 1
           = Some {| index := 1; text := JString []; audioPath := None;
                     success := false; error := Some (js "空文本") |})
  /\ (3 < MAX_CONCURRENT ->
      holdsNoSlot (sampleWorld engineOk) (sampleRequest threeSentences) 1)
  /\ (MAX_CONCURRENT <= 3 ->
      holdsSlot (sampleWorld engineOk) (sampleRequest threeSentences) 1).
Proof.
  apply (blank_job_fails_without_engine
           (sampleWorld engineOk) (sampleRequest threeSentences) 1).
  - apply accepted_sample.
  - repeat constructor.
  - vm_compute. lia.
  - exists []. split; reflexivity.
Defined.

(** C4, the counterexample.  Five blank sentences followed by a sixth: the
    tracking promise of the first blank job stands in [executing], and the
    five of them fill the window, so the loop waits before it admits the
    sixth job. *)
Lemma blank_jobs_hold_slots :
  ~ (forall w req i,
        accepted w req -> allStrings req -> blankText req i ->
        holdsNoSlot w req i).
Proof.
  intros H.
  apply (H (sampleWorld engineOk) (sampleRequest sixWithBlanks) 0
           (accepted_sample _ _ _)
           ltac:(repeat constructor)
           ltac:(exists []; split; reflexivity)
           0).
  vm_compute. left. reflexivity.
Qed.

(** C5 (as it stands in the code).  A body whose [sentences] is not a
    non-empty array, the empty array included, is answered 400 with the
    invalid-argument message before any engine call; a non-empty array of
    strings, with a known voice and the engine installed, is answered with a
    batch outcome. *)
Theorem empty_or_malformed_list_is_rejected w req :
  ((forall first more, body_sentences req <> JArray (first :: more)) ->
   generateBatch w req = Some (BadRequest MSG_BAD_SENTENCES None)
   /\ engineLog w req = [])
  /\ (accepted w req -> allStrings req ->
      exists batch count results,
        generateBatch w req
        = Some (BatchOk batch (total req) count results)).
Proof.
  split.
  - intros Hn. unfold generateBatch, engineLog, handlerEnd, drain.
    assert (E : handlerStart w req MAX_CONCURRENT
                = set_response (BadRequest MSG_BAD_SENTENCES None) initial).
    { unfold handlerStart.
      destruct (body_sentences req) as [| | | | |[|first more]|];
        try reflexivity.
      exfalso. apply (Hn first more). reflexivity. }
    rewrite E, run_idle by reflexivity. split; reflexivity.
  - intros Ha Hs. unfold generateBatch.
    rewrite (accepted_batch_response w req _ _ Ha Hs).
    do 3 eexists. reflexivity.
Qed.

Lemma empty_or_malformed_list_is_rejected_witness :
  (generateBatch (sampleWorld engineOk)
                 {| body_sentences := JUndefined; body_voice := None;
                    body_rate := None |}
   = Some (BadRequest MSG_BAD_SENTENCES None)
   /\ engineLog (sampleWorld engineOk)
                {| body_sentences := JUndefined; body_voice := None;
                   body_rate := None |} = [])
  /\ exists batch count results,
       generateBatch (sampleWorld engineOk) (sampleRequest threeSentences)
       = Some (BatchOk batch 3 count results).
Proof.
  split.
  - apply (proj1 (empty_or_malformed_list_is_rejected
                    (sampleWorld engineOk)
                    {| body_sentences := JUndefined; body_voice := None;
                       body_rate := None |})).
    intros first more. simpl. discriminate.
  - apply (proj2 (empty_or_malformed_list_is_rejected
                    (sampleWorld engineOk) (sampleRequest threeSentences))).
    + apply accepted_sample.
    + repeat constructor.
Defined.

(** C5, the counterexample.  The empty array is answered 400, not with an
    empty outcome. *)
Lemma empty_list_is_rejected :
  generateBatch (sampleWorld engineOk) (sampleRequest [])
  = Some (BadRequest (js "请提供有效的句子数组") None)
  /\ forall batch,
       generateBatch (sampleWorld engineOk) (sampleRequest [])
       <> Some (BatchOk batch 0 0 []).
Proof.
  split; [vm_compute; reflexivity|].
  intros batch. vm_compute. discriminate.
Qed.

(** C6.  A job whose engine call throws (a non-zero exit, or the timeout
    [execSync] is given), or leaves no file or an empty one, gets a failed
    record with the message of that failure; the call still answers with a
    batch outcome, and the record of a job is the same in every world where
    the engine treats the command of that job the same way, whatever it does
    with the other jobs. *)
Theorem job_failures_stay_local w req :
  accepted w req -> allStrings req ->
  exists count results,
    generateBatch w req = Some (BatchOk (uuidv4 w) (total req) count results)
    /\ (forall i s,
           i < total req -> sentence req i = JString s -> trim s <> [] ->
           exists r,
             nth_error results i = Some r /\ index r = i
             /\ match execSync w (commandOf w req i) with
                | ExecThrows m =>
                    success r = false
                    /\ error r = Some (MSG_EXEC_FAILED ++ m)
                | ExecReturns FileMissing =>
                    success r = false /\ error r = Some MSG_NO_FILE
                | ExecReturns (FileSize size) =>
                    if (0 <? size)%N then success r = true
                    else success r = false /\ error r = Some MSG_EMPTY_FILE
                end)
    /\ (forall w' i,
           sameButEngine w w' -> i < total req ->
           execSync w' (commandOf w req i) = execSync w (commandOf w req i) ->
           exists count' results',
             generateBatch w' req
             = Some (BatchOk (uuidv4 w) (total req) count' results')
             /\ nth_error results' i = nth_error results i).
Proof.
  intros Ha Hs. unfold generateBatch.
  rewrite (accepted_batch_response w req _ _ Ha Hs).
  do 2 eexists. split; [reflexivity|]. split.
  - intros i s Hi Es Et. exists (expectedResult w req i).
    rewrite nth_error_expectedResults by exact Hi.
    split; [reflexivity|]. split; [apply index_expectedResult|].
    destruct (trim s) as [|c r] eqn:E; [congruence|].
    rewrite (expectedResult_engine w req i s c r Es E).
    destruct (execSync w (commandOf w req i)) as [m|[|size]];
      try (split; reflexivity).
    destruct (0 <? size)%N; [reflexivity|split; reflexivity].
  - intros w' i Hw Hi He.
    rewrite (accepted_batch_response w' req _ _
               (accepted_sameButEngine w w' req Hw Ha) Hs).
    destruct Hw as (Et & Ej & Ed & Eu & Hrest). rewrite Eu.
    do 2 eexists. split; [reflexivity|].
    rewrite !nth_error_expectedResults by exact Hi.
    f_equal. apply expectedResult_local; [|exact He].
    repeat split; tauto.
Qed.

Lemma job_failures_stay_local_witness :
  exists count results,
    generateBatch (sampleWorld failsOnSecond) (sampleRequest fourSentences)
    = Some (BatchOk (js "batchXYZ") 4 count results)
    /\ nth_error (map success results) 1 = Some false
    /\ nth_error (map success results) 2 = Some true.
Proof.
  destruct (job_failures_stay_local
              (sampleWorld failsOnSecond) (sampleRequest fourSentences)
              (accepted_sample _ _ _) ltac:(repeat constructor))
    as (count & results & E & Hjob & _).
  exists count, results. split; [exact E|].
  destruct (Hjob 1 (js "Two.") ltac:(vm_compute; lia) eq_refl
                 ltac:(vm_compute; discriminate))
    as (r1 & E1 & _ & H1).
  destruct (Hjob 2 (js "Three.") ltac:(vm_compute; lia) eq_refl
                 ltac:(vm_compute; discriminate))
    as (r2 & E2 & _ & H2).
  assert (T1 : execSync (sampleWorld failsOnSecond)
                 (commandOf (sampleWorld failsOnSecond)
                            (sampleRequest fourSentences) 1)
               = ExecThrows (js "Command failed"))
    by (vm_compute; reflexivity).
  assert (T2 : execSync (sampleWorld failsOnSecond)
                 (commandOf (sampleWorld failsOnSecond)
                            (sampleRequest fourSentences) 2)
               = ExecReturns (FileSize 2048))
    by (vm_compute; reflexivity).
  rewrite T1 in H1. rewrite T2 in H2. change (success r2 = true) in H2.
  destruct H1 as [H1 _].
  rewrite !nth_error_map, E1, E2. simpl. rewrite H1, H2.
  split; reflexivity.
Defined.

(** C7.  The success count of an accepted batch is the number of records
    flagged successful, hence at most the number of jobs. *)
Theorem success_count_matches_flags w req :
  accepted w req -> allStrings req ->
  exists batch count results,
    generateBatch w req = Some (BatchOk batch (total req) count results)
    /\ count = List.length (filter success results)
    /\ count <= total req.
Proof.
  intros Ha Hs. unfold generateBatch.
  rewrite (accepted_batch_response w req _ _ Ha Hs).
  do 3 eexists. split; [reflexivity|]. split; [reflexivity|].
  unfold successCountOf.
  pose proof (filter_length_le success (expectedResults w req)) as H.
  unfold expectedResults in H at 2. rewrite length_map, length_seq in H.
  exact H.
Qed.

Lemma success_count_matches_flags_witness :
  exists batch count results,
    generateBatch (sampleWorld engineOk) (sampleRequest threeSentences)
    = Some (BatchOk batch 3 count results)
    /\ count = List.length (filter success results)
    /\ count <= 3.
Proof.
  apply (success_count_matches_flags (sampleWorld engineOk)
                                     (sampleRequest threeSentences)).
  - apply accepted_sample.
  - repeat constructor.
Defined.

(** C8.  The audio of a successful job at position [i] is named by the batch
    identifier, an underscore, [i + 1] in decimal padded with zeros to three
    digits, and [.mp3]: that is the name in the record, and the file the
    engine was told to write and was found to have written is the one of
    that name in the audio directory.  The digits read back as [i + 1], they
    are three as long as [i + 1] is below 1000, and two jobs of a batch
    never share a name. *)
Theorem audio_file_names w req :
  accepted w req -> allStrings req ->
  exists batch count results,
    generateBatch w req = Some (BatchOk batch (total req) count results)
    /\ batch = uuidv4 w
    /\ forall i r,
         nth_error results i = Some r -> success r = true ->
         audioPath r
         = Some (js "/audio/" ++ batch ++ js "_"
                 ++ padStart 3 DIGIT_ZERO (String_of_nat (i + 1))
                 ++ js ".mp3")
         /\ (exists s size,
                sentence req i = JString s
                /\ execSync w (commandLine (cleanText (trim s)) (voice req)
                                           (rate req)
                                           (pathJoin w (audioDir w)
                                                     (filename w i)))
                   = ExecReturns (FileSize size)
                /\ (0 < size)%N)
         /\ digits_value (padStart 3 DIGIT_ZERO (String_of_nat (i + 1)))
            = i + 1
         /\ (i + 1 < 1000 ->
             List.length (padStart 3 DIGIT_ZERO (String_of_nat (i + 1))) = 3)
         /\ forall j, filename w i = filename w j -> i = j.
Proof.
  intros Ha Hs. unfold generateBatch.
  rewrite (accepted_batch_response w req _ _ Ha Hs).
  do 3 eexists. split; [reflexivity|]. split; [reflexivity|].
  intros i r Hn Hr.
  assert (Hi : i < total req).
  { assert (H : nth_error (expectedResults w req) i <> None) by congruence.
    apply nth_error_Some in H. unfold expectedResults in H.
    rewrite length_map, length_seq in H. exact H. }
  rewrite nth_error_expectedResults in Hn by exact Hi.
  injection Hn as <-.
  destruct (sentence req i) as [| | | |s| |] eqn:Es;
    try (unfold expectedResult in Hr; rewrite Es in Hr; discriminate).
  destruct (trim s) as [|c t] eqn:Et.
  { rewrite (expectedResult_blank w req i s Es Et) in Hr. discriminate. }
  rewrite (expectedResult_engine w req i s c t Es Et) in Hr |- *.
  unfold commandOf in Hr |- *. rewrite Es in Hr |- *.
  fold (outputPath w i).
  destruct (execSync w _) as [m|[|size]] eqn:Ee; try discriminate.
  destruct (0 <? size)%N eqn:E0; [|discriminate].
  split; [reflexivity|]. split; [|split; [|split]].
  - exists s, size. split; [reflexivity|]. split; [exact Ee|].
    apply N.ltb_lt. exact E0.
  - apply digits_value_padStart.
  - intros Hlt. rewrite padStart_length.
    pose proof (String_of_nat_short (i + 1) Hlt). lia.
  - intros j. apply filename_injective.
Qed.

Lemma audio_file_names_witness :
  exists batch count results,
    generateBatch (sampleWorld engineOk) (sampleRequest threeSentences)
    = Some (BatchOk batch 3 count results)
    /\ batch = js "batchXYZ"
    /\ forall i r,
         nth_error results i = Some r -> success r = true ->
         audioPath r
         = Some (js "/audio/" ++ batch ++ js "_"
                 ++ padStart 3 DIGIT_ZERO (String_of_nat (i + 1))
                 ++ js ".mp3")
         /\ (exists s size,
                sentence (sampleRequest threeSentences) i = JString s
                /\ engineOk (commandLine (cleanText (trim s))
                                DEFAULT_VOICE DEFAULT_RATE
                                (js "/srv/backend/public/audio" ++ js "/"
                                 ++ filename (sampleWorld engineOk) i))
                   = ExecReturns (FileSize size)
                /\ (0 < size)%N)
         /\ digits_value (padStart 3 DIGIT_ZERO (String_of_nat (i + 1)))
            = i + 1
         /\ (i + 1 < 1000 ->
             List.length (padStart 3 DIGIT_ZERO (String_of_nat (i + 1))) = 3)
         /\ forall j, filename (sampleWorld engineOk) i
                      = filename (sampleWorld engineOk) j -> i = j.
Proof.
  apply (audio_file_names (sampleWorld engineOk)
                          (sampleRequest threeSentences)).
  - apply accepted_sample.
  - repeat constructor.
Defined.

(** C9.  The records [parallelLimit] hands back already stand at the
    positions of their jobs, so the final sort moves nothing: the route
    answers the same with the sort and without it. *)
Theorem final_sort_changes_nothing w req :
  accepted w req -> allStrings req ->
  generateBatchUnsorted w req = generateBatch w req
  /\ exists batch count results,
       generateBatchUnsorted w req
       = Some (BatchOk batch (total req) count results)
       /\ (forall i, i < total req ->
             nth_error results i = Some (expectedResult w req i))
       /\ sort_by_index results = results.
Proof.
  intros Ha Hs. unfold generateBatchUnsorted, generateBatch.
  rewrite !(accepted_batch_response w req _ _ Ha Hs).
  split; [reflexivity|]. do 3 eexists. split; [reflexivity|]. split.
  - intros i Hi. apply nth_error_expectedResults. exact Hi.
  - apply sort_by_index_expected.
Qed.

Lemma final_sort_changes_nothing_witness :
  generateBatchUnsorted (sampleWorld failsOnSecond)
                        (sampleRequest fourSentences)
  = generateBatch (sampleWorld failsOnSecond) (sampleRequest fourSentences).
Proof.
  apply (final_sort_changes_nothing (sampleWorld failsOnSecond)
                                    (sampleRequest fourSentences)).
  - apply accepted_sample.
  - repeat constructor.
Defined.

(** C10 (what the code does).  Five sentences that are numbers: the task of
    the first throws, its tracking promise rejects, the [await] on the race
    throws inside [parallelLimit], and the handler answers 500 with the
    message of the type error instead of five failed records. *)
Theorem non_string_batch_is_refused w :
  (edgeTtsAvailable w || checkEdgeTts (versionProbe w))%bool = true ->
  generateBatch w (sampleRequest fiveNumbers)
  = Some (ServerError MSG_BATCH_FAILED (typeErrorMessage w (JNumber 1))).
Proof.
  intros Ha. unfold generateBatch, handlerEnd, drain, handlerStart.
  cbn [body_sentences sampleRequest fiveNumbers].
  rewrite Ha. vm_compute. reflexivity.
Qed.

Lemma non_string_batch_is_refused_witness :
  generateBatch (sampleWorld engineOk) (sampleRequest fiveNumbers)
  = Some (ServerError (js "批量TTS生成失败")
                      (js "sentence.trim is not a function")).
Proof.
  refine (eq_trans (non_string_batch_is_refused (sampleWorld engineOk)
                                                 eq_refl) _).
  vm_compute. reflexivity.
Defined.

(** ** Further properties of the route *)

(** X1.  A batch shorter than the limit is not tracked in [executing]: a task
    that throws on a sentence that is no string is absorbed by [allSettled], and
    the handler turns its settlement into a failed record at its position,
    with the element itself as text. *)
Theorem short_batch_absorbs_non_strings w req :
  accepted w req -> total req < MAX_CONCURRENT ->
  exists count results,
    generateBatch w req = Some (BatchOk (uuidv4 w) (total req) count results)
    /\ List.length results = total req
    /\ forall i,
         i < total req -> isString (sentence req i) = false ->
         nth_error results i
         = Some {| index := i; text := sentence req i; audioPath := None;
                   success := false;
                   error := Some match typeErrorMessage w (sentence req i) with
                                 | [] => MSG_UNKNOWN
                                 | c :: m => c :: m
                                 end |}.
Proof.
  intros Ha Hn. unfold generateBatch.
  rewrite (short_batch_response w req _ _ Ha Hn).
  do 2 eexists. split; [reflexivity|]. split.
  - unfold expectedResults. rewrite length_map, length_seq. reflexivity.
  - intros i Hi Hs. rewrite nth_error_expectedResults by exact Hi.
    unfold expectedResult.
    destruct (sentence req i); try reflexivity. discriminate.
Qed.

Lemma short_batch_absorbs_non_strings_witness :
  exists count results,
    generateBatch (sampleWorld engineOk) (sampleRequest mixedShort)
    = Some (BatchOk (uuidv4 (sampleWorld engineOk))
                    (total (sampleRequest mixedShort)) count results)
    /\ List.length results = total (sampleRequest mixedShort)
    /\ forall i,
         i < total (sampleRequest mixedShort) ->
         isString (sentence (sampleRequest mixedShort) i) = false ->
         nth_error results i
         = Some {| index := i; text := sentence (sampleRequest mixedShort) i;
                   audioPath := None; success := false;
                   error := Some match typeErrorMessage
                                         (sampleWorld engineOk)
                                         (sentence (sampleRequest mixedShort) i)
                                 with
                                 | [] => MSG_UNKNOWN
                                 | c :: m => c :: m
                                 end |}.
Proof.
  apply (short_batch_absorbs_non_strings (sampleWorld engineOk)
                                         (sampleRequest mixedShort)).
  - apply accepted_sample.
  - vm_compute. lia.
Defined.

(** The first scenario of the specification, run with a limit of two. *)
Example hello_world_batch :
  response (handlerEnd (sampleWorld engineOk) (sampleRequest threeSentences)
                       2 true)
  = Some (BatchOk (js "batchXYZ") 3 2
            [ {| index := 0; text := JString (js "Hello world.");
                 audioPath := Some (js "/audio/batchXYZ_001.mp3");
                 success := true; error := None |};
              {| index := 1; text := JString []; audioPath := None;
                 success := false; error := Some (js "空文本") |};
              {| index := 2; text := JString (js "Second sentence.");
                 audioPath := Some (js "/audio/batchXYZ_003.mp3");
                 success := true; error := None |} ]).
Proof. vm_compute. reflexivity. Qed.

(** X2.  The engine is called exactly once for every job with a text and
    never for a blank one, each call with the command line of its job, and the
    calls follow the order of the sentences. *)
Theorem engine_calls_follow_input_order w req :
  accepted w req -> allStrings req ->
  engineLog w req
  = flat_map (fun k => if nonBlank req k
                       then [ExecStart k (commandOf w req k); ExecEnd k]
                       else [])
             (seq 0 (List.length (sentences req))).
Proof.
  intros Ha Hs. unfold engineLog.
  rewrite (accepted_batch_log w req _ _ Ha Hs). reflexivity.
Qed.

Lemma engine_calls_follow_input_order_witness :
  engineLog (sampleWorld engineOk) (sampleRequest threeSentences)
  = [ExecStart 0 (commandOf (sampleWorld engineOk)
                            (sampleRequest threeSentences) 0);
     ExecEnd 0;
     ExecStart 2 (commandOf (sampleWorld engineOk)
                            (sampleRequest threeSentences) 2);
     ExecEnd 2].
Proof.
  rewrite (engine_calls_follow_input_order
             (sampleWorld engineOk) (sampleRequest threeSentences)
             (accepted_sample _ _ _) ltac:(repeat constructor)).
  reflexivity.
Defined.

(** X5.  The microtask queue of an accepted batch of strings is empty when
    the fuel of [drain] is spent, and the response has been sent. *)
Theorem microtask_queue_drains w req :
  accepted w req -> allStrings req ->
  queue (handlerEnd w req MAX_CONCURRENT true) = []
  /\ exists r, generateBatch w req = Some r.
Proof.
  intros ((first & more & Eb) & Hv & Ha) Hs.
  destruct (handler_responds w req MAX_CONCURRENT true
              (fun _ k Hk => allStrings_sentence req k Hs Hk)
              first more Eb Hv Ha) as [Hr Hq].
  split; [exact Hq|]. eexists. exact Hr.
Qed.

Lemma microtask_queue_drains_witness :
  queue (handlerEnd (sampleWorld failsOnSecond) (sampleRequest fourSentences)
                    MAX_CONCURRENT true) = []
  /\ exists r,
       generateBatch (sampleWorld failsOnSecond) (sampleRequest fourSentences)
       = Some r.
Proof.
  apply (microtask_queue_drains (sampleWorld failsOnSecond)
                                (sampleRequest fourSentences)).
  - apply accepted_sample.
  - repeat constructor.
Defined.

(** ** Strings: what [trim] keeps *)

Lemma allWhite_app a b : allWhite (a ++ b) = allWhite a && allWhite b.
Proof. apply forallb_app. Qed.

Lemma allWhite_rev a : allWhite (rev a) = allWhite a.
Proof.
  induction a as [|c a IH]; [reflexivity|].
  cbn [rev]. rewrite allWhite_app, IH. cbn. rewrite andb_true_r.
  apply andb_comm.
Qed.

Lemma trimStart_split s :
  exists a, s = a ++ trimStart s /\ allWhite a = true.
Proof.
  induction s as [|c s (a & E & Ha)]; [exists []; auto|].
  cbn [trimStart]. destruct (isWhiteSpace c) eqn:Hc.
  - exists (c :: a). split; [cbn; congruence|]. cbn. rewrite Hc. exact Ha.
  - exists []. auto.
Qed.

Lemma trimStart_allWhite a m :
  allWhite a = true -> trimStart (a ++ m) = trimStart m.
Proof.
  induction a as [|c a IH]; [reflexivity|]. cbn.
  destruct (isWhiteSpace c); [exact IH|discriminate].
Qed.

Lemma trimStart_nil a : allWhite a = true -> trimStart a = [].
Proof.
  intros H. rewrite <- (app_nil_r a). rewrite trimStart_allWhite; auto.
Qed.

Lemma trimEnd_split s :
  exists b, s = trimEnd s ++ b /\ allWhite b = true.
Proof.
  unfold trimEnd. destruct (trimStart_split (rev s)) as (a & E & Ha).
  exists (rev a). split; [|rewrite allWhite_rev; exact Ha].
  rewrite <- rev_app_distr, <- E, rev_involutive. reflexivity.
Qed.

Lemma trimEnd_allWhite m b :
  allWhite b = true -> trimEnd (m ++ b) = trimEnd m.
Proof.
  intros H. unfold trimEnd. rewrite rev_app_distr, trimStart_allWhite; auto.
  rewrite allWhite_rev. exact H.
Qed.

Lemma trim_unique a m b :
  allWhite a = true -> allWhite b = true -> edged m ->
  trim (a ++ m ++ b) = m.
Proof.
  intros Ha Hb [Hh Hl]. unfold trim. rewrite trimStart_allWhite by exact Ha.
  destruct m as [|c m].
  - cbn [app]. rewrite trimStart_nil by exact Hb. reflexivity.
  - cbn [app trimStart]. rewrite Hh.
    change (c :: m ++ b) with ((c :: m) ++ b).
    rewrite trimEnd_allWhite by exact Hb.
    unfold trimEnd. destruct (rev (c :: m)) as [|d r] eqn:E.
    + apply (f_equal (@List.length N)) in E. rewrite length_rev in E.
      discriminate.
    + cbn [trimStart]. rewrite Hl. rewrite <- E. apply rev_involutive.
Qed.

Lemma trim_split s :
  exists a b, s = a ++ trim s ++ b /\ allWhite a = true /\ allWhite b = true.
Proof.
  destruct (trimStart_split s) as (a & E & Ha).
  destruct (trimEnd_split (trimStart s)) as (b & E' & Hb).
  exists a, b. unfold trim. rewrite <- E', <- E. auto.
Qed.

Lemma trim_edged s : edged (trim s).
Proof.
  split.
  - destruct (trim s) as [|c r] eqn:E; [exact I|].
    apply (trim_head s c r E).
  - unfold trim, trimEnd. rewrite rev_involutive.
    destruct (trimStart (rev (trimStart s))) as [|c r] eqn:E; [exact I|].
    apply (trimStart_head _ _ _ E).
Qed.

Lemma trim_edged_id m : edged m -> trim m = m.
Proof.
  intros H. rewrite <- (app_nil_r m) at 1.
  apply (trim_unique [] m [] eq_refl eq_refl H).
Qed.

Lemma trim_idempotent s : trim (trim s) = trim s.
Proof. apply trim_edged_id, trim_edged. Qed.

Lemma trim_nil_iff s : trim s = [] <-> allWhite s = true.
Proof.
  split; intros H.
  - destruct (trim_split s) as (a & b & E & Ha & Hb).
    rewrite H in E. cbn [app] in E.
    rewrite E, allWhite_app, Ha, Hb. reflexivity.
  - rewrite <- (app_nil_r s).
    apply (trim_unique s [] [] H eq_refl). split; exact I.
Qed.

(** ** The clean-up of [generateAudio] *)

Lemma rewriteText_app a b :
  rewriteText (a ++ b) = rewriteText a ++ rewriteText b.
Proof.
  unfold rewriteText, removeAll, replaceAll.
  rewrite !map_app, filter_app. reflexivity.
Qed.

Lemma rewriteText_rev a : rewriteText (rev a) = rev (rewriteText a).
Proof.
  induction a as [|c a IH]; [reflexivity|].
  cbn [rev]. rewrite rewriteText_app, IH.
  change (c :: a) with ([c] ++ a). rewrite rewriteText_app, rev_app_distr.
  f_equal. unfold rewriteText, removeAll, replaceAll. cbn.
  destruct (negb _); reflexivity.
Qed.

Lemma rewriteText_white c :
  isWhiteSpace c = true -> allWhite (rewriteText [c]) = true.
Proof.
  intros Hc. unfold rewriteText, removeAll, replaceAll. cbn.
  destruct (N.eqb_spec c QUOTE) as [->|_]; [discriminate|].
  destruct (N.eqb_spec c LF) as [->|_]; [reflexivity|].
  destruct (N.eqb_spec c CR) as [->|_]; [reflexivity|].
  cbn. rewrite Hc. reflexivity.
Qed.

Lemma rewriteText_allWhite a :
  allWhite a = true -> allWhite (rewriteText a) = true.
Proof.
  induction a as [|c a IH]; [reflexivity|]. cbn [allWhite forallb].
  intros H. apply andb_prop in H. destruct H as [Hc Ha].
  change (c :: a) with ([c] ++ a).
  rewrite rewriteText_app, allWhite_app, (rewriteText_white c Hc).
  apply IH. exact Ha.
Qed.

Lemma rewriteText_head c r :
  isWhiteSpace c = false ->
  exists c', isWhiteSpace c' = false
             /\ rewriteText (c :: r) = c' :: rewriteText r.
Proof.
  intros Hc. unfold rewriteText, removeAll, replaceAll. cbn [map].
  set (c1 := if (c =? QUOTE)%N then APOSTROPHE else c).
  assert (H1 : isWhiteSpace c1 = false).
  { unfold c1. destruct (c =? QUOTE)%N; [reflexivity|exact Hc]. }
  assert (H2 : (c1 =? LF)%N = false).
  { destruct (N.eqb_spec c1 LF) as [E1|]; [|reflexivity].
    rewrite E1 in H1. discriminate. }
  assert (H3 : (c1 =? CR)%N = false).
  { destruct (N.eqb_spec c1 CR) as [E1|]; [|reflexivity].
    rewrite E1 in H1. discriminate. }
  rewrite H2. cbn [filter]. rewrite H3. cbn [negb]. eauto.
Qed.

Lemma rewriteText_edged m : edged m -> edged (rewriteText m).
Proof.
  intros [Hh Hl]. split.
  - destruct m as [|c r]; [exact I|].
    destruct (rewriteText_head c r Hh) as (c' & Hc' & ->). exact Hc'.
  - rewrite <- rewriteText_rev. destruct (rev m) as [|c r]; [exact I|].
    destruct (rewriteText_head c r Hl) as (c' & Hc' & ->). exact Hc'.
Qed.

(** The clean-up trims by itself: it gives the same text for a sentence and
    for the sentence already trimmed. *)
Lemma cleanText_rewrite s : cleanText s = rewriteText (trim s).
Proof.
  destruct (trim_split s) as (a & b & E & Ha & Hb).
  unfold cleanText. fold (rewriteText s). rewrite E at 1.
  rewrite !rewriteText_app.
  apply trim_unique; auto using rewriteText_allWhite.
  apply rewriteText_edged, trim_edged.
Qed.

Lemma cleanText_trim s : cleanText (trim s) = cleanText s.
Proof. rewrite !cleanText_rewrite, trim_idempotent. reflexivity. Qed.

Lemma cleanText_nil_iff s : cleanText s = [] <-> trim s = [].
Proof.
  rewrite cleanText_rewrite. split; intros H; [|rewrite H; reflexivity].
  destruct (trim s) as [|c r] eqn:E; [reflexivity|].
  destruct (rewriteText_head c r (trim_head s c r E)) as (c' & _ & E').
  rewrite E' in H. discriminate.
Qed.

(** ** generateAudio, as its callers see it *)

Lemma generateAudio_blank w job s v p r :
  trim s = [] ->
  generateAudio w job s v p r = ([], Rejected (VError MSG_EMPTY_CONTENT)).
Proof.
  intros H. apply (proj2 (cleanText_nil_iff s)) in H. unfold generateAudio.
  rewrite H. reflexivity.
Qed.

Lemma generateAudio_nonblank w job s v p r :
  trim s <> [] ->
  generateAudio w job s v p r
  = ([ExecStart job (commandLine (cleanText s) v r p); ExecEnd job],
     match execSync w (commandLine (cleanText s) v r p) with
     | ExecReturns (FileSize size) =>
         if (0 <? size)%N then Fulfilled (VString p)
         else Rejected (VError MSG_EMPTY_FILE)
     | ExecReturns FileMissing => Rejected (VError MSG_NO_FILE)
     | ExecThrows m => Rejected (VError (MSG_EXEC_FAILED ++ m))
     end).
Proof.
  intros H. unfold generateAudio.
  destruct (cleanText s) as [|c t] eqn:E; [|reflexivity].
  apply (proj1 (cleanText_nil_iff s)) in E. contradiction.
Qed.

Lemma trim_nonblank_cons s : trim s <> [] -> exists c t, s = c :: t.
Proof. destruct s as [|c t]; [intros H; elim H; reflexivity|eauto]. Qed.

(** ** POST /generate *)

(** X6.  POST /generate answers 200 exactly when the text is a string that
    is not blank, the voice passes the check and the engine leaves a file
    that is not empty; the answer then carries the text as it was sent, not
    trimmed, the path of the file named by the fresh identifier and the
    display name of the voice. *)
Theorem generate_answers_ok_iff w r p t v :
  snd (generate w r) = GenerateOk p t v
  <-> body_text r = JString t /\ trim t <> []
      /\ voiceKnown (generateVoice r) = true
      /\ (exists size,
             execSync w (commandLine (cleanText t) (generateVoice r)
                                     (generateRate r) (generateOutputPath w))
             = ExecReturns (FileSize size)
             /\ (0 < size)%N)
      /\ p = js "/audio/" ++ uuidv4 w ++ js ".mp3"
      /\ v = voiceName (generateVoice r).
Proof.
  unfold generate. split.
  - destruct (body_text r) as [| | | |[|c s]| |]; try discriminate.
    destruct (voiceKnown (generateVoice r)) eqn:Hv; [|discriminate].
    cbn [negb]. destruct (trim (c :: s)) as [|c' s'] eqn:Et.
    + rewrite (generateAudio_blank _ _ _ _ _ _ Et). discriminate.
    + assert (Hn : trim (c :: s) <> []) by congruence.
      rewrite (generateAudio_nonblank _ _ _ _ _ _ Hn). cbn [snd].
      destruct (execSync w _) as [m|[|size]] eqn:Ee; try discriminate.
      destruct (0 <? size)%N eqn:E0; [|discriminate].
      intros [= <- <- <-]. rewrite Et.
      repeat split; try congruence.
      exists size. split; [exact Ee|]. apply N.ltb_lt. exact E0.
  - intros (Et & Hn & Hv & (size & Ee & Hs) & -> & ->). rewrite Et.
    destruct (trim_nonblank_cons t Hn) as (c & s & ->).
    rewrite Hv. cbn [negb].
    rewrite (generateAudio_nonblank _ _ _ _ _ _ Hn). cbn [snd].
    rewrite Ee. apply N.ltb_lt in Hs. rewrite Hs. reflexivity.
Qed.

Lemma generate_answers_ok_iff_witness :
  snd (generate (sampleWorld engineOk)
                (sampleGenerate (js "  Hello world. ") None))
  = GenerateOk (js "/audio/batchXYZ.mp3") (js "  Hello world. ")
               (Some (js "Jenny (美式女声)")).
Proof.
  apply (generate_answers_ok_iff (sampleWorld engineOk)).
  split; [reflexivity|]. split; [vm_compute; discriminate|].
  split; [reflexivity|]. split; [exists 2048%N; split; reflexivity|].
  split; vm_compute; reflexivity.
Defined.

(** A request that fails a guard leaves the handler with its answer and
    nothing else. *)
Lemma handlerEnd_refused w req limit sorting :
  ~ accepted w req ->
  handlerEnd w req limit sorting
  = set_response
      match body_sentences req with
      | JArray (_ :: _) =>
          if voiceKnown (voice req)
          then ServerError MSG_NOT_INSTALLED MSG_PLEASE_INSTALL
          else BadRequest MSG_BAD_VOICE (Some VOICE_OPTIONS)
      | _ => BadRequest MSG_BAD_SENTENCES None
      end initial.
Proof.
  intros Hn. unfold handlerEnd, drain.
  assert (E : handlerStart w req limit
              = set_response
                  match body_sentences req with
                  | JArray (_ :: _) =>
                      if voiceKnown (voice req)
                      then ServerError MSG_NOT_INSTALLED MSG_PLEASE_INSTALL
                      else BadRequest MSG_BAD_VOICE (Some VOICE_OPTIONS)
                  | _ => BadRequest MSG_BAD_SENTENCES None
                  end initial).
  { unfold handlerStart.
    destruct (body_sentences req) as [| | | | |[|first more]|] eqn:Eb;
      try reflexivity.
    destruct (voiceKnown (voice req)) eqn:Hv; [|reflexivity]. cbn [negb].
    destruct (edgeTtsAvailable w || checkEdgeTts (versionProbe w))%bool
      eqn:Ha; [|reflexivity].
    elim Hn. split; [exists first, more; exact Eb|]. split; auto. }
  rewrite E. apply run_idle. reflexivity.
Qed.

Lemma accepted_single w s v r :
  voiceKnown (match v with Some x => x | None => DEFAULT_VOICE end) = true ->
  (edgeTtsAvailable w || checkEdgeTts (versionProbe w))%bool = true ->
  accepted w {| body_sentences := JArray [JString s]; body_voice := v;
                body_rate := r |}.
Proof.
  intros Hv Ha. split; [exists (JString s), []; reflexivity|]. split; auto.
Qed.

(** X7.  A sentence sent alone to /generate and the same sentence sent as a
    batch of one reach the engine with the same cleaned text, voice and
    rate; the two command lines differ in the output file only. *)
Theorem single_and_batch_send_the_same_text w s v r :
  trim s <> [] ->
  voiceKnown (match v with Some x => x | None => DEFAULT_VOICE end) = true ->
  (edgeTtsAvailable w || checkEdgeTts (versionProbe w))%bool = true ->
  exists text' voice' rate',
    commandsOf (fst (generate w {| body_text := JString s;
                                   generate_voice := v;
                                   generate_rate := r |}))
    = [commandLine text' voice' rate' (generateOutputPath w)]
    /\ commandsOf (engineLog w {| body_sentences := JArray [JString s];
                                  body_voice := v; body_rate := r |})
       = [commandLine text' voice' rate' (outputPath w 0)].
Proof.
  intros Hn Hv Ha.
  exists (cleanText s), (match v with Some x => x | None => DEFAULT_VOICE end),
         (match r with Some x => x | None => DEFAULT_RATE end).
  split.
  - unfold generate. cbn [body_text].
    destruct (trim_nonblank_cons s Hn) as (c & t & ->).
    unfold generateVoice, generateRate. cbn [generate_voice generate_rate].
    rewrite Hv. cbn [negb].
    rewrite (generateAudio_nonblank _ _ _ _ _ _ Hn). reflexivity.
  - unfold engineLog.
    rewrite (accepted_batch_log w _ _ _ (accepted_single w s v r Hv Ha)
                                ltac:(repeat constructor)).
    unfold total, sentences. cbn [body_sentences List.length seq].
    unfold expectedLog. cbn [seq flat_map]. rewrite app_nil_r.
    unfold callEvents, nonBlank, commandOf, sentence, sentences.
    cbn [body_sentences nth].
    destruct (trim s) as [|c t] eqn:Et; [contradiction|].
    rewrite <- Et, cleanText_trim. reflexivity.
Qed.

Lemma single_and_batch_send_the_same_text_witness :
  exists text' voice' rate',
    commandsOf (fst (generate (sampleWorld engineOk)
                       {| body_text := JString quotedSentence;
                          generate_voice := None;
                          generate_rate := Some (js "-10%") |}))
    = [commandLine text' voice' rate'
                   (generateOutputPath (sampleWorld engineOk))]
    /\ commandsOf (engineLog (sampleWorld engineOk)
                     {| body_sentences := JArray [JString quotedSentence];
                        body_voice := None;
                        body_rate := Some (js "-10%") |})
       = [commandLine text' voice' rate' (outputPath (sampleWorld engineOk) 0)].
Proof.
  apply (single_and_batch_send_the_same_text (sampleWorld engineOk)).
  - vm_compute. discriminate.
  - reflexivity.
  - reflexivity.
Defined.

(** X8.  Only the batch route looks at the engine check: on a server where
    no command answered [--version], /generate-batch refuses with 500
    before any call, while /generate still runs the engine on the text. *)
Theorem generate_skips_the_engine_check w s v r :
  edgeTtsAvailable w = false -> checkEdgeTts (versionProbe w) = false ->
  trim s <> [] ->
  voiceKnown (match v with Some x => x | None => DEFAULT_VOICE end) = true ->
  generateBatch w {| body_sentences := JArray [JString s]; body_voice := v;
                     body_rate := r |}
  = Some (ServerError MSG_NOT_INSTALLED MSG_PLEASE_INSTALL)
  /\ engineLog w {| body_sentences := JArray [JString s]; body_voice := v;
                    body_rate := r |} = []
  /\ exists command,
       fst (generate w {| body_text := JString s; generate_voice := v;
                          generate_rate := r |})
       = [ExecStart 0 command; ExecEnd 0].
Proof.
  intros Hf Hp Hn Hv.
  assert (Hr : ~ accepted w {| body_sentences := JArray [JString s];
                               body_voice := v; body_rate := r |}).
  { intros (_ & _ & H). rewrite Hf, Hp in H. discriminate. }
  unfold generateBatch, engineLog.
  rewrite (handlerEnd_refused w _ _ _ Hr). cbn [body_sentences].
  unfold voice. cbn [body_voice]. rewrite Hv.
  split; [reflexivity|]. split; [reflexivity|].
  unfold generate. cbn [body_text].
  destruct (trim_nonblank_cons s Hn) as (c & t & ->).
  unfold generateVoice. cbn [generate_voice]. rewrite Hv. cbn [negb].
  rewrite (generateAudio_nonblank _ _ _ _ _ _ Hn). eexists. reflexivity.
Qed.

Lemma generate_skips_the_engine_check_witness :
  generateBatch noEngine {| body_sentences := JArray [JString (js "Hi.")];
                            body_voice := None; body_rate := None |}
  = Some (ServerError MSG_NOT_INSTALLED MSG_PLEASE_INSTALL)
  /\ engineLog noEngine {| body_sentences := JArray [JString (js "Hi.")];
                           body_voice := None; body_rate := None |} = []
  /\ exists command,
       fst (generate noEngine {| body_text := JString (js "Hi.");
                                 generate_voice := None;
                                 generate_rate := None |})
       = [ExecStart 0 command; ExecEnd 0].
Proof.
  apply (generate_skips_the_engine_check noEngine (js "Hi.") None None).
  - reflexivity.
  - reflexivity.
  - vm_compute. discriminate.
  - reflexivity.
Defined.

(** ** POST /generate-word *)

(** X9.  Whatever the word, the file of its audio is [word_], then units
    that are lower-case ASCII letters, digits or underscores, one for each
    unit of the lower-cased word, then [.mp3]: the name holds no path
    separator and no dot but the one of the extension. *)
Theorem word_file_name_is_plain rt word :
  wordFilename rt word = js "word_" ++ safeWord rt word ++ js ".mp3"
  /\ List.length (safeWord rt word) = List.length (toLowerCase rt word)
  /\ Forall (fun c => isLowerAlnum c = true \/ c = LOW_LINE)
            (safeWord rt word)
  /\ ~ In SOLIDUS (safeWord rt word)
  /\ ~ In REVERSE_SOLIDUS (safeWord rt word)
  /\ ~ In FULL_STOP (safeWord rt word).
Proof.
  assert (H : Forall (fun c => isLowerAlnum c = true \/ c = LOW_LINE)
                     (safeWord rt word)).
  { unfold safeWord, underscoreOthers. apply Forall_map, Forall_forall.
    intros c _. destruct (isLowerAlnum c) eqn:E; auto. }
  split; [reflexivity|].
  split; [unfold safeWord, underscoreOthers; apply length_map|].
  split; [exact H|].
  rewrite Forall_forall in H.
  repeat split; intros Hin; destruct (H _ Hin) as [E|E]; discriminate.
Qed.

(** X10.  /generate-word answers from the file whenever one of that name
    exists: two words with the same safe name share it, so the second is
    answered, without any engine call, with the audio made for the first. *)
Theorem words_with_one_safe_name_share_the_file w rt word1 word2 v :
  word2 <> [] ->
  safeWord rt word1 = safeWord rt word2 ->
  existsSync rt (wordOutputPath w rt word1) = true ->
  generateWord w rt {| body_word := JString word2; word_voice := v |}
  = ([], WordOk (js "/audio/" ++ wordFilename rt word1) word2 true).
Proof.
  intros Hn Hs He. unfold generateWord. cbn [body_word].
  destruct word2 as [|c t]; [elim Hn; reflexivity|].
  unfold wordOutputPath, wordFilename in *. rewrite <- Hs, He. reflexivity.
Qed.

Lemma words_with_one_safe_name_share_the_file_witness :
  generateWord (sampleWorld engineOk)
               (sampleRuntime [js "/srv/backend/public/audio/word_can_t.mp3"])
               (sampleWord (js "Can t") None)
  = ([], WordOk (js "/audio/" ++ wordFilename (sampleRuntime []) (js "can't"))
                (js "Can t") true).
Proof.
  apply (words_with_one_safe_name_share_the_file
           (sampleWorld engineOk)
           (sampleRuntime [js "/srv/backend/public/audio/word_can_t.mp3"])
           (js "can't") (js "Can t") None).
  - vm_compute. discriminate.
  - vm_compute. reflexivity.
  - vm_compute. reflexivity.
Defined.

(** X11.  /generate-word does not check the voice: a voice that /generate
    refuses with 400 is put on the command line of the engine by
    /generate-word. *)
Theorem generate_word_takes_any_voice w rt word v :
  voiceKnown v = false -> trim word <> [] ->
  existsSync rt (wordOutputPath w rt word) = false ->
  generate w {| body_text := JString word; generate_voice := Some v;
                generate_rate := None |}
  = ([], GenerateBad MSG_BAD_VOICE (Some VOICE_OPTIONS))
  /\ fst (generateWord w rt {| body_word := JString word;
                               word_voice := Some v |})
     = [ExecStart 0 (commandLine (cleanText word) v (js "+0%")
                                 (wordOutputPath w rt word));
        ExecEnd 0].
Proof.
  intros Hv Hn He. destruct (trim_nonblank_cons word Hn) as (c & t & ->).
  split.
  - unfold generate, generateVoice. cbn [body_text generate_voice].
    rewrite Hv. reflexivity.
  - unfold generateWord, wordVoice. cbn [body_word word_voice]. rewrite He.
    rewrite (generateAudio_nonblank _ _ _ _ _ _ Hn). reflexivity.
Qed.

Lemma generate_word_takes_any_voice_witness :
  generate (sampleWorld engineOk)
           {| body_text := JString (js "apple");
              generate_voice := Some (js "xx-XX-Nobody");
              generate_rate := None |}
  = ([], GenerateBad MSG_BAD_VOICE (Some VOICE_OPTIONS))
  /\ fst (generateWord (sampleWorld engineOk) (sampleRuntime [])
                       {| body_word := JString (js "apple");
                          word_voice := Some (js "xx-XX-Nobody") |})
     = [ExecStart 0 (commandLine (cleanText (js "apple")) (js "xx-XX-Nobody")
                                 (js "+0%")
                                 (wordOutputPath (sampleWorld engineOk)
                                                 (sampleRuntime [])
                                                 (js "apple")));
        ExecEnd 0].
Proof.
  apply (generate_word_takes_any_voice (sampleWorld engineOk)
                                       (sampleRuntime [])).
  - vm_compute. reflexivity.
  - vm_compute. discriminate.
  - reflexivity.
Defined.

(** ** checkEdgeTts and the command line *)

Lemma find_first {A} (f : A -> bool) l :
  match find f l with
  | Some x =>
      exists before after,
        l = before ++ x :: after
        /\ Forall (fun y => f y = false) before /\ f x = true
  | None => Forall (fun y => f y = false) l
  end.
Proof.
  induction l as [|a l IH]; cbn [find]; [constructor|].
  destruct (f a) eqn:E.
  - exists [], l. repeat split; auto.
  - destruct (find f l) as [x|].
    + destruct IH as (before & after & -> & Hb & Hx).
      exists (a :: before), after. repeat split; auto.
    + constructor; auto.
Qed.

Lemma find_existsb {A} (f : A -> bool) l :
  existsb f l = match find f l with Some _ => true | None => false end.
Proof.
  induction l as [|a l IH]; [reflexivity|]. cbn.
  destruct (f a); [reflexivity|exact IH].
Qed.

(** X12.  [checkEdgeTts] answers true exactly when one of the three commands
    runs; it then records the first of them that does, in the order of the
    list, and otherwise leaves both variables of the module as they were. *)
Theorem checkEdgeTts_keeps_the_first_working_command probe st :
  fst (checkEdgeTtsState probe st) = checkEdgeTts probe
  /\ (checkEdgeTts probe = false -> snd (checkEdgeTtsState probe st) = st)
  /\ (checkEdgeTts probe = true ->
      exists before cmd after,
        possiblePaths = before ++ cmd :: after
        /\ Forall (fun c => probe c = false) before
        /\ probe cmd = true
        /\ snd (checkEdgeTtsState probe st)
           = {| stateAvailable := true; statePath := cmd |}).
Proof.
  unfold checkEdgeTtsState, checkEdgeTts. rewrite find_existsb.
  pose proof (find_first probe possiblePaths) as H.
  destruct (find probe possiblePaths) as [cmd|].
  - split; [reflexivity|]. split; [discriminate|]. intros _.
    destruct H as (before & after & E & Hb & Hc).
    exists before, cmd, after. auto.
  - split; [reflexivity|]. split; [reflexivity|discriminate].
Qed.

Lemma commandsOf_app a b : commandsOf (a ++ b) = commandsOf a ++ commandsOf b.
Proof. apply flat_map_app. Qed.

Lemma commandsOf_expectedLog w req c :
  Forall (fun cmd => exists rest, cmd = js "edge-tts --text " ++ rest)
         (commandsOf (expectedLog w req c)).
Proof.
  induction c as [|c IH]; [constructor|].
  rewrite expectedLog_succ, commandsOf_app. apply Forall_app. split; [exact IH|].
  unfold callEvents, nonBlank, commandOf.
  destruct (sentence req c) as [| | | |s| |]; try constructor.
  destruct (trim s); constructor; [|constructor].
  unfold commandLine. eexists. reflexivity.
Qed.

(** X13.  The command [checkEdgeTts] found is what /status reports, but it
    is never what is run: every engine call of an accepted batch starts with
    the literal [edge-tts --text], also when the command found is another
    one. *)
Theorem engine_is_always_called_as_edge_tts w req cmd :
  accepted w req -> allStrings req ->
  find (versionProbe w) possiblePaths = Some cmd ->
  status_command
    (statusRoute (snd (checkEdgeTtsState (versionProbe w) engineStateAtLoad)))
  = cmd
  /\ Forall (fun c => exists rest, c = js "edge-tts --text " ++ rest)
            (commandsOf (engineLog w req)).
Proof.
  intros Ha Hs Hf. split.
  - unfold checkEdgeTtsState. rewrite Hf. reflexivity.
  - unfold engineLog. rewrite (accepted_batch_log w req _ _ Ha Hs).
    apply commandsOf_expectedLog.
Qed.

Lemma engine_is_always_called_as_edge_tts_witness :
  status_command
    (statusRoute (snd (checkEdgeTtsState (versionProbe (pythonOnly engineOk))
                                         engineStateAtLoad)))
  = js "python -m edge_tts"
  /\ Forall (fun c => exists rest, c = js "edge-tts --text " ++ rest)
            (commandsOf (engineLog (pythonOnly engineOk)
                                   (sampleRequest threeSentences))).
Proof.
  apply (engine_is_always_called_as_edge_tts
           (pythonOnly engineOk) (sampleRequest threeSentences)).
  - split; [do 2 eexists; reflexivity|]. split; reflexivity.
  - repeat constructor.
  - reflexivity.
Defined.

(** ** The guards of POST /generate-batch *)

(** X14.  A batch request that fails a guard is answered by the first guard
    it fails, in the order: sentences (400), voice (400 with the list of
    voices), engine (500); nothing is queued and the engine is not called. *)
Theorem refused_batch_runs_nothing w req :
  ~ accepted w req ->
  generateBatch w req
  = Some match body_sentences req with
         | JArray (_ :: _) =>
             if voiceKnown (voice req)
             then ServerError MSG_NOT_INSTALLED MSG_PLEASE_INSTALL
             else BadRequest MSG_BAD_VOICE (Some VOICE_OPTIONS)
         | _ => BadRequest MSG_BAD_SENTENCES None
         end
  /\ engineLog w req = []
  /\ queue (handlerEnd w req MAX_CONCURRENT true) = [].
Proof.
  intros Hn. unfold generateBatch, engineLog.
  rewrite (handlerEnd_refused w req _ _ Hn). repeat split.
Qed.

Lemma refused_batch_runs_nothing_witness :
  generateBatch noEngine
    {| body_sentences := JArray [JString (js "Hi.")];
       body_voice := Some (js "xx-XX-Nobody"); body_rate := None |}
  = Some (BadRequest MSG_BAD_VOICE (Some VOICE_OPTIONS))
  /\ engineLog noEngine
       {| body_sentences := JArray [JString (js "Hi.")];
          body_voice := Some (js "xx-XX-Nobody"); body_rate := None |} = []
  /\ queue (handlerEnd noEngine
              {| body_sentences := JArray [JString (js "Hi.")];
                 body_voice := Some (js "xx-XX-Nobody"); body_rate := None |}
              MAX_CONCURRENT true) = [].
Proof.
  apply (refused_batch_runs_nothing noEngine
           {| body_sentences := JArray [JString (js "Hi.")];
              body_voice := Some (js "xx-XX-Nobody"); body_rate := None |}).
  intros (_ & Hv & _). vm_compute in Hv. discriminate.
Defined.

(** X4.  [parallelLimit] itself, given no task, resolves with an empty array
    of settlements after three microtasks, whatever the limit; the handler
    never calls it so, because it refuses the empty list first. *)
Theorem parallelLimit_of_no_task_resolves_empty w req limit sorting :
  sentences req = [] ->
  heap (run w req limit sorting 3 (parallelLimit req limit initial)) PLimit
  = Settled (Fulfilled (VArray []))
  /\ queue (run w req limit sorting 3 (parallelLimit req limit initial)) = [].
Proof.
  intros H. unfold parallelLimit. rewrite H. cbn [limitLoop].
  vm_compute. split; reflexivity.
Qed.

Lemma parallelLimit_of_no_task_resolves_empty_witness :
  heap (run (sampleWorld engineOk) (sampleRequest []) MAX_CONCURRENT true 3
            (parallelLimit (sampleRequest []) MAX_CONCURRENT initial)) PLimit
  = Settled (Fulfilled (VArray []))
  /\ queue (run (sampleWorld engineOk) (sampleRequest []) MAX_CONCURRENT true 3
                (parallelLimit (sampleRequest []) MAX_CONCURRENT initial))
     = [].
Proof.
  apply (parallelLimit_of_no_task_resolves_empty
           (sampleWorld engineOk) (sampleRequest []) MAX_CONCURRENT true).
  reflexivity.
Defined.

(** ** Words of a text *)

Lemma tokensFrom_white cur c b :
  isWhiteSpace c = true ->
  tokensFrom cur (c :: b) = tokensFrom cur [] ++ tokensFrom [] b.
Proof. intros H. cbn. rewrite H. destruct cur; reflexivity. Qed.

Lemma tokensFrom_app_white cur a c b :
  isWhiteSpace c = true ->
  tokensFrom cur (a ++ c :: b) = tokensFrom cur a ++ tokensFrom [] b.
Proof.
  intros H. revert cur. induction a as [|x a IH]; intros cur.
  - apply tokensFrom_white. exact H.
  - cbn [app tokensFrom]. destruct (isWhiteSpace x).
    + destruct cur; rewrite IH; reflexivity.
    + apply IH.
Qed.

Lemma tokensFrom_black cur w :
  Forall (fun c => isWhiteSpace c = false) w ->
  forall rest, tokensFrom cur (w ++ rest) = tokensFrom (rev w ++ cur) rest.
Proof.
  intros H. revert cur. induction H as [|c w Hc _ IH]; intros cur rest;
    [reflexivity|].
  cbn [app tokensFrom rev]. rewrite Hc, IH, <- app_assoc. reflexivity.
Qed.

Lemma tokens_word w : isWord w -> tokens w = [w].
Proof.
  intros [Hn Hw]. unfold tokens.
  rewrite <- (app_nil_r w) at 1. rewrite (tokensFrom_black [] w Hw).
  rewrite app_nil_r. cbn. destruct (rev w) as [|c r] eqn:E.
  - apply (f_equal (@rev N)) in E. rewrite rev_involutive in E.
    contradiction.
  - rewrite <- E, rev_involutive. reflexivity.
Qed.

Lemma tokensFrom_allWhite a m :
  allWhite a = true -> tokensFrom [] (a ++ m) = tokensFrom [] m.
Proof.
  induction a as [|c a IH]; [reflexivity|]. cbn.
  destruct (isWhiteSpace c); [exact IH|discriminate].
Qed.

Lemma tokensFrom_end_white b :
  allWhite b = true -> forall cur m,
  tokensFrom cur (m ++ b) = tokensFrom cur m.
Proof.
  intros Hb cur m. revert cur. induction m as [|x m IH]; intros cur.
  - cbn [app]. revert cur. induction b as [|c b IHb]; intros cur;
      [reflexivity|].
    cbn in Hb. apply andb_prop in Hb. destruct Hb as [Hc Hb].
    rewrite (tokensFrom_white cur c b Hc).
    rewrite (IHb Hb []). cbn. apply app_nil_r.
  - cbn [app tokensFrom]. destruct (isWhiteSpace x).
    + destruct cur; rewrite IH; reflexivity.
    + apply IH.
Qed.

Lemma tokens_trim s : tokens (trim s) = tokens s.
Proof.
  destruct (trim_split s) as (a & b & E & Ha & Hb).
  unfold tokens. rewrite E at 2.
  rewrite (tokensFrom_allWhite a _ Ha), (tokensFrom_end_white b Hb).
  reflexivity.
Qed.

Lemma tokensFrom_words s :
  forall cur, Forall (fun c => isWhiteSpace c = false) cur ->
              Forall isWord (tokensFrom cur s).
Proof.
  assert (W : forall cur, cur <> [] ->
                Forall (fun c => isWhiteSpace c = false) cur ->
                isWord (rev cur)).
  { intros cur Hn Hc. split.
    - intros E. apply Hn. apply (f_equal (@rev N)) in E.
      rewrite rev_involutive in E. exact E.
    - apply Forall_rev. exact Hc. }
  induction s as [|c s IH]; intros cur Hc; cbn [tokensFrom].
  - destruct cur as [|x cur]; constructor; [|constructor].
    apply W; [discriminate|exact Hc].
  - destruct (isWhiteSpace c) eqn:E.
    + destruct cur as [|x cur]; [apply IH; constructor|].
      constructor; [apply W; [discriminate|exact Hc]|apply IH; constructor].
    + apply IH. constructor; auto.
Qed.

Lemma tokens_words s : Forall isWord (tokens s).
Proof. apply tokensFrom_words. constructor. Qed.

Lemma tokens_nil_iff s : tokens s = [] <-> allWhite s = true.
Proof.
  unfold tokens. split.
  - assert (G : forall cur, tokensFrom cur s = [] ->
                            cur = [] /\ allWhite s = true).
    { induction s as [|c s IH]; intros cur; cbn [tokensFrom].
      - destruct cur; [auto|discriminate].
      - cbn. destruct (isWhiteSpace c).
        + destruct cur; [|discriminate]. intros H.
          destruct (IH [] H). auto.
        + intros H. destruct (IH _ H). discriminate. }
    intros H. apply (G [] H).
  - intros H. rewrite <- (app_nil_r s). rewrite tokensFrom_allWhite; auto.
Qed.

(** ** The clean-up of splitIntoSentences keeps the words *)

Lemma replaceCRLF_pair c d r :
  replaceCRLF (c :: d :: r)
  = if ((c =? CR)%N && (d =? LF)%N)%bool then SPACE :: replaceCRLF r
    else c :: replaceCRLF (d :: r).
Proof. reflexivity. Qed.

Lemma tokensFrom_replaceCRLF n :
  forall s, List.length s <= n ->
            forall cur, tokensFrom cur (replaceCRLF s) = tokensFrom cur s.
Proof.
  induction n as [|n IH]; intros s Hs cur.
  - destruct s; [reflexivity|cbn in Hs; lia].
  - destruct s as [|c [|d r]]; try reflexivity.
    rewrite replaceCRLF_pair.
    destruct (N.eqb_spec c CR) as [->|Hc];
      [destruct (N.eqb_spec d LF) as [->|Hd]|]; cbn [andb].
    + rewrite (tokensFrom_white cur SPACE _ eq_refl).
      rewrite (tokensFrom_white cur CR _ eq_refl).
      rewrite (tokensFrom_white [] LF _ eq_refl).
      rewrite IH by (cbn in Hs; lia). reflexivity.
    + cbn [tokensFrom]. change (isWhiteSpace CR) with true. cbv iota.
      destruct cur; rewrite IH by (cbn in Hs |- *; lia); reflexivity.
    + cbn [tokensFrom]. destruct (isWhiteSpace c).
      * destruct cur; rewrite IH by (cbn in Hs |- *; lia); reflexivity.
      * rewrite IH by (cbn in Hs |- *; lia). reflexivity.
Qed.

Lemma tokensFrom_replaceLF s :
  forall cur, tokensFrom cur (replaceAll LF SPACE s) = tokensFrom cur s.
Proof.
  induction s as [|c s IH]; intros cur; [reflexivity|].
  unfold replaceAll in *. cbn [map tokensFrom].
  destruct (N.eqb_spec c LF) as [->|_].
  - change (isWhiteSpace SPACE) with true. change (isWhiteSpace LF) with true.
    cbv iota. destruct cur; rewrite IH; reflexivity.
  - destruct (isWhiteSpace c); [destruct cur|]; rewrite IH; reflexivity.
Qed.

Lemma tokensFrom_collapse s :
  (forall cur, tokensFrom cur (collapseWhiteSpace false s) = tokensFrom cur s)
  /\ tokensFrom [] (collapseWhiteSpace true s) = tokensFrom [] s.
Proof.
  induction s as [|c s [IH1 IH2]]; [split; reflexivity|].
  split; [intros cur|]; cbn [collapseWhiteSpace tokensFrom];
    destruct (isWhiteSpace c) eqn:E.
  - rewrite (tokensFrom_white cur SPACE _ eq_refl), IH2.
    destruct cur; reflexivity.
  - cbn [tokensFrom]. rewrite E. apply IH1.
  - exact IH2.
  - cbn [tokensFrom]. rewrite E. apply IH1.
Qed.

Lemma tokens_cleanedText s : tokens (cleanedText s) = tokens s.
Proof.
  unfold cleanedText. rewrite tokens_trim. unfold tokens.
  rewrite (proj1 (tokensFrom_collapse _)), tokensFrom_replaceLF.
  apply (tokensFrom_replaceCRLF (List.length s)). lia.
Qed.

(** ** Single spaces *)

Lemma singleSpaced_collapse s :
  forall inRun, singleSpaced inRun (collapseWhiteSpace inRun s) = true.
Proof.
  induction s as [|c s IH]; intros inRun; [reflexivity|].
  cbn [collapseWhiteSpace]. destruct (isWhiteSpace c) eqn:E.
  - destruct inRun; [apply IH|].
    cbn [singleSpaced]. change (isWhiteSpace SPACE) with true. cbv iota.
    rewrite IH. reflexivity.
  - cbn [singleSpaced]. rewrite E. apply IH.
Qed.

Lemma singleSpaced_weaken s :
  singleSpaced true s = true -> singleSpaced false s = true.
Proof.
  destruct s as [|c s]; [reflexivity|]. cbn.
  destruct (isWhiteSpace c); [|auto].
  rewrite andb_false_r. discriminate.
Qed.

Lemma singleSpaced_suffix a m :
  forall p, singleSpaced p (a ++ m) = true -> singleSpaced false m = true.
Proof.
  induction a as [|c a IH]; intros p H.
  - destruct p; [apply singleSpaced_weaken|]; exact H.
  - cbn in H. destruct (isWhiteSpace c).
    + apply andb_prop in H. destruct H as [_ H]. apply (IH _ H).
    + apply (IH _ H).
Qed.

Lemma singleSpaced_prefix m b :
  forall p, singleSpaced p (m ++ b) = true -> singleSpaced p m = true.
Proof.
  induction m as [|c m IH]; intros p H; [reflexivity|].
  cbn in H |- *. destruct (isWhiteSpace c).
  - apply andb_prop in H. destruct H as [H1 H2].
    rewrite H1, (IH _ H2). reflexivity.
  - apply (IH _ H).
Qed.

Lemma singleSpaced_cleanedText s : singleSpaced false (cleanedText s) = true.
Proof.
  unfold cleanedText.
  destruct (trim_split (collapseWhiteSpace false
                          (replaceAll LF SPACE (replaceCRLF s))))
    as (a & b & E & _ & _).
  pose proof (singleSpaced_collapse (replaceAll LF SPACE (replaceCRLF s))
                                    false) as H.
  rewrite E in H. apply singleSpaced_suffix in H.
  apply (singleSpaced_prefix _ b _ H).
Qed.

Lemma endsBlack_cons c r : r <> [] -> endsBlack (c :: r) -> endsBlack r.
Proof.
  unfold endsBlack. cbn [rev]. intros Hn H.
  destruct (rev r) as [|d t] eqn:E; [exact I|exact H].
Qed.

Lemma endsBlack_single c : endsBlack [c] -> isWhiteSpace c = false.
Proof. intros H. exact H. Qed.

Lemma unwords_cons w T : T <> [] -> unwords (w :: T) = w ++ SPACE :: unwords T.
Proof. destruct T; [intros H; elim H; reflexivity|reflexivity]. Qed.

(** A text without white space at its ends, and with single spaces inside,
    is its words joined by spaces. *)
Lemma unwords_tokensFrom m :
  forall cur,
    singleSpaced false m = true -> endsBlack m ->
    (cur = [] -> startsBlack m) ->
    unwords (tokensFrom cur m) = rev cur ++ m.
Proof.
  induction m as [|c r IH]; intros cur Hs He Hb.
  - cbn. destruct cur; [reflexivity|]. cbn [unwords]. rewrite app_nil_r.
    reflexivity.
  - cbn [tokensFrom]. cbn [singleSpaced] in Hs.
    destruct (isWhiteSpace c) eqn:E.
    + apply andb_prop in Hs. destruct Hs as [Hs Hr].
      apply andb_prop in Hs. destruct Hs as [Hc _].
      apply N.eqb_eq in Hc. subst c.
      destruct cur as [|x cur].
      { specialize (Hb eq_refl). cbn in Hb. congruence. }
      destruct r as [|d r'].
      { apply endsBlack_single in He. congruence. }
      assert (Hd : startsBlack (d :: r')).
      { cbn in Hr |- *. destruct (isWhiteSpace d); [|reflexivity].
        rewrite andb_false_r in Hr. discriminate. }
      pose proof (IH [] (singleSpaced_weaken _ Hr)
                     (endsBlack_cons SPACE (d :: r') ltac:(discriminate) He)
                     (fun _ => Hd)) as H.
      cbn [rev app] in H.
      rewrite unwords_cons.
      * rewrite H. reflexivity.
      * intros E0. rewrite E0 in H. discriminate.
    + assert (He' : endsBlack r).
      { destruct r as [|d r']; [exact I|].
        apply (endsBlack_cons c); [discriminate|exact He]. }
      rewrite (IH (c :: cur) Hs He' ltac:(discriminate)).
      cbn [rev]. rewrite <- app_assoc. reflexivity.
Qed.

Lemma unwords_tokens_cleanedText s :
  unwords (tokens (cleanedText s)) = cleanedText s.
Proof.
  pose proof (trim_edged (collapseWhiteSpace false
                            (replaceAll LF SPACE (replaceCRLF s))))
    as [Hh Hl].
  fold (cleanedText s) in Hh, Hl.
  apply (unwords_tokensFrom (cleanedText s) []);
    [apply singleSpaced_cleanedText|exact Hl|intros _; exact Hh].
Qed.

(** The cleaned text is the words of the text joined by single spaces. *)
Lemma cleanedText_unwords s : cleanedText s = unwords (tokens s).
Proof. rewrite <- unwords_tokens_cleanedText, tokens_cleanedText. reflexivity. Qed.

(** ** The split, word by word *)

Lemma splitFrom_black w :
  Forall (fun c => isWhiteSpace c = false) w ->
  forall p cur rest,
    splitFrom false p cur (w ++ rest)
    = splitFrom false (match rev w with c :: _ => isStop c | [] => p end)
                (rev w ++ cur) rest.
Proof.
  induction 1 as [|c w Hc _ IH]; intros p cur rest; [reflexivity|].
  cbn [app splitFrom]. rewrite Hc, andb_false_r, IH.
  cbn [rev]. rewrite <- app_assoc. cbn [app].
  destruct (rev w); reflexivity.
Qed.

Lemma splitFrom_run_black c r p cur :
  isWhiteSpace c = false ->
  splitFrom true p cur (c :: r) = splitFrom false false [] (c :: r).
Proof. intros H. cbn. rewrite H. reflexivity. Qed.

Lemma spaced_app P w :
  spaced P ++ w = match P with [] => w | _ => P ++ SPACE :: w end.
Proof.
  destruct P as [|c P]; [reflexivity|].
  unfold spaced. rewrite <- app_assoc. reflexivity.
Qed.

Lemma word_head w : isWord w -> exists c r, w = c :: r /\ isWhiteSpace c = false.
Proof.
  intros [Hn Hw]. destruct w as [|c r]; [contradiction|].
  exists c, r. split; [reflexivity|]. inversion Hw; assumption.
Qed.

Lemma word_last w :
  isWord w -> exists c r, rev w = c :: r /\ isWhiteSpace c = false.
Proof.
  intros [Hn Hw]. destruct (rev w) as [|c r] eqn:E.
  - apply (f_equal (@rev N)) in E. rewrite rev_involutive in E. contradiction.
  - exists c, r. split; [reflexivity|].
    apply Forall_rev in Hw. rewrite E in Hw. inversion Hw; assumption.
Qed.

Lemma unwords_head w r :
  isWord w -> exists c t, unwords (w :: r) = c :: t /\ isWhiteSpace c = false.
Proof.
  intros Hw. destruct (word_head w Hw) as (c & t & -> & Hc).
  destruct r; cbn; eauto.
Qed.

(** A sentence being closed: it is kept as it is by [trim] and by the
    filter. *)
Lemma sentence_kept P w :
  startsBlack P -> isWord w ->
  trim (spaced P ++ w) = spaced P ++ w /\ spaced P ++ w <> []
  /\ startsBlack (spaced P ++ w).
Proof.
  intros HP Hw.
  destruct (word_head w Hw) as (c & t & E & Hc).
  destruct (word_last w Hw) as (d & u & E' & Hd).
  assert (Hs : startsBlack (spaced P ++ w)).
  { destruct P as [|x P]; [rewrite E; exact Hc|exact HP]. }
  split; [|split; [|exact Hs]].
  - apply trim_edged_id. split; [exact Hs|].
    rewrite rev_app_distr, E'. exact Hd.
  - rewrite E. destruct (spaced P); discriminate.
Qed.

Lemma split_sentences ws :
  Forall isWord ws -> ws <> [] ->
  forall P,
    startsBlack P ->
    filter (fun s => negb (List.length s =? 0))
           (map trim (splitFrom false false (rev (spaced P)) (unwords ws)))
    = sentencesOf P ws.
Proof.
  induction 1 as [|w r Hw Hr IH]; intros Hn P HP; [contradiction|].
  destruct (sentence_kept P w HP Hw) as (Ht & Hne & Hs).
  assert (Hlen : negb (List.length (spaced P ++ w) =? 0) = true).
  { destruct (spaced P ++ w); [contradiction|reflexivity]. }
  destruct Hw as [Hwn Hwb].
  cbn [sentencesOf]. rewrite <- spaced_app.
  destruct r as [|w2 r'].
  - cbn [unwords]. rewrite <- (app_nil_r w) at 1.
    rewrite (splitFrom_black w Hwb). cbn [splitFrom map filter].
    rewrite rev_app_distr, !rev_involutive, Ht, Hlen.
    destruct (endsWithStop w); cbn [sentencesOf]; [reflexivity|].
    destruct (spaced P ++ w); [contradiction|reflexivity].
  - rewrite unwords_cons by discriminate.
    rewrite (splitFrom_black w Hwb).
    fold (endsWithStop w).
    inversion Hr as [|? ? Hw2 Hr']; subst.
    destruct (unwords_head w2 r' Hw2) as (c & t & Eu & Hc).
    cbn [splitFrom]. change (isWhiteSpace SPACE) with true.
    rewrite andb_true_r. destruct (endsWithStop w).
    + rewrite Eu, (splitFrom_run_black c t false [] Hc), <- Eu.
      cbn [map filter].
      rewrite rev_app_distr, !rev_involutive, Ht, Hlen. f_equal.
      apply (IH ltac:(discriminate) [] I).
    + change (isStop SPACE) with false.
      replace (SPACE :: rev w ++ rev (spaced P))
        with (rev (spaced (spaced P ++ w))).
      * apply (IH ltac:(discriminate) _ Hs).
      * unfold spaced at 1. destruct (spaced P ++ w) eqn:E0; [contradiction|].
        rewrite <- E0, !rev_app_distr. reflexivity.
Qed.

(** ** What splitIntoSentences returns *)

Lemma splitIntoSentences_words text' :
  splitIntoSentences text' = sentencesOf [] (tokens text').
Proof.
  unfold splitIntoSentences, splitAfterStop. rewrite cleanedText_unwords.
  destruct (tokens text') as [|w r] eqn:E; [reflexivity|].
  assert (Hw : Forall isWord (w :: r)) by (rewrite <- E; apply tokens_words).
  exact (split_sentences (w :: r) Hw ltac:(discriminate) [] I).
Qed.

(** X15.  splitIntoSentences returns the words of the text (its maximal
    runs of units that are not white space) joined by single spaces into
    sentences, a sentence being closed after every word that ends with a
    full stop, an exclamation mark or a question mark. *)
Theorem sentences_are_the_words_grouped text' :
  splitIntoSentences text' = sentencesOf [] (tokens text').
Proof. exact (splitIntoSentences_words text'). Qed.

Lemma tokens_spaced_app P w :
  isWord w -> tokens (spaced P ++ w) = tokens P ++ [w].
Proof.
  intros Hw. rewrite spaced_app. destruct P as [|c P].
  - apply tokens_word. exact Hw.
  - unfold tokens.
    rewrite (tokensFrom_app_white [] (c :: P) SPACE w eq_refl).
    f_equal. apply tokens_word. exact Hw.
Qed.

Lemma tokens_sentencesOf ws :
  Forall isWord ws ->
  forall P, flat_map tokens (sentencesOf P ws) = tokens P ++ ws.
Proof.
  induction 1 as [|w r Hw _ IH]; intros P.
  - cbn [sentencesOf]. destruct P; cbn [flat_map]; rewrite !app_nil_r;
      reflexivity.
  - cbn [sentencesOf]. rewrite <- spaced_app.
    destruct (endsWithStop w); cbn [flat_map]; rewrite IH.
    + rewrite (tokens_spaced_app P w Hw), <- app_assoc. reflexivity.
    + rewrite (tokens_spaced_app P w Hw), <- app_assoc. reflexivity.
Qed.

Lemma splitIntoSentences_tokens text' :
  flat_map tokens (splitIntoSentences text') = tokens text'.
Proof.
  rewrite splitIntoSentences_words.
  apply (tokens_sentencesOf (tokens text') (tokens_words text') []).
Qed.

(** X16.  No word is lost, repeated or moved: the words of the sentences,
    read in order, are the words of the text. *)
Theorem sentences_keep_every_word text' :
  flat_map tokens (splitIntoSentences text') = tokens text'.
Proof. exact (splitIntoSentences_tokens text'). Qed.

Lemma splitIntoSentences_nil_iff text' :
  splitIntoSentences text' = [] <-> allWhite text' = true.
Proof.
  rewrite <- tokens_nil_iff. split; intros H.
  - rewrite <- splitIntoSentences_tokens, H. reflexivity.
  - rewrite splitIntoSentences_words, H. reflexivity.
Qed.

(** X17.  A text gives no sentence exactly when it is blank. *)
Theorem no_sentence_iff_blank text' :
  splitIntoSentences text' = [] <-> allWhite text' = true.
Proof. exact (splitIntoSentences_nil_iff text'). Qed.

Lemma unwords_snoc T w :
  T <> [] -> unwords (T ++ [w]) = unwords T ++ SPACE :: w.
Proof.
  induction T as [|x T IH]; intros Hn; [contradiction|].
  destruct T as [|y T]; [reflexivity|].
  change ((x :: y :: T) ++ [w]) with (x :: (y :: T) ++ [w]).
  rewrite (unwords_cons x ((y :: T) ++ [w])) by discriminate.
  rewrite IH by discriminate.
  rewrite (unwords_cons x (y :: T)) by discriminate.
  rewrite <- app_assoc. reflexivity.
Qed.

Lemma endsWithStop_app a w : w <> [] -> endsWithStop (a ++ w) = endsWithStop w.
Proof.
  intros Hn. unfold endsWithStop. rewrite rev_app_distr.
  destruct (rev w) as [|c r] eqn:E; [|reflexivity].
  apply (f_equal (@rev N)) in E. rewrite rev_involutive in E. contradiction.
Qed.

Lemma In_removelast {A} (x : A) l : In x (removelast l) -> In x l.
Proof.
  induction l as [|a l IH]; [auto|]. cbn [removelast].
  destruct l as [|b l]; [contradiction|].
  intros [->|H]; [left; reflexivity|right; apply IH; exact H].
Qed.

(** What holds of the sentence being gathered, and of those returned. *)
Lemma shape_sentencesOf ws :
  Forall isWord ws ->
  forall P,
    (P <> [] -> unwords (tokens P) = P) ->
    Forall (fun w => endsWithStop w = false) (tokens P) ->
    Forall (fun s => s <> [] /\ unwords (tokens s) = s
                     /\ Forall (fun w => endsWithStop w = false)
                               (removelast (tokens s)))
           (sentencesOf P ws)
    /\ Forall (fun s => endsWithStop s = true) (removelast (sentencesOf P ws)).
Proof.
  induction 1 as [|w r Hw _ IH]; intros P HP HT.
  - cbn [sentencesOf]. destruct P as [|c P].
    { split; constructor. }
    split; [|constructor].
    constructor; [|constructor].
    split; [discriminate|]. split; [apply HP; discriminate|].
    apply Forall_forall. intros x Hx. rewrite Forall_forall in HT.
    apply HT. apply In_removelast. exact Hx.
  - cbn [sentencesOf]. rewrite <- spaced_app.
    assert (Hne : spaced P ++ w <> []).
    { destruct Hw as [Hn _]. destruct w; [contradiction|].
      destruct (spaced P); discriminate. }
    assert (Hu : unwords (tokens (spaced P ++ w)) = spaced P ++ w).
    { rewrite (tokens_spaced_app P w Hw), spaced_app.
      destruct P as [|c P]; [reflexivity|].
      rewrite unwords_snoc.
      - rewrite HP by discriminate. reflexivity.
      - intros E. specialize (HP ltac:(discriminate)).
        rewrite E in HP. discriminate. }
    destruct (endsWithStop w) eqn:Ew.
    + destruct (IH [] ltac:(intros H; elim H; reflexivity)
                   ltac:(constructor)) as [H1 H2].
      split.
      * constructor; [|exact H1]. split; [exact Hne|]. split; [exact Hu|].
        rewrite (tokens_spaced_app P w Hw), removelast_last. exact HT.
      * cbn [removelast]. destruct (sentencesOf [] r) eqn:E; constructor.
        -- rewrite endsWithStop_app; [exact Ew|]. destruct Hw; assumption.
        -- exact H2.
    + apply IH; [intros _; exact Hu|].
      rewrite (tokens_spaced_app P w Hw). apply Forall_app. split; [exact HT|].
      constructor; [exact Ew|constructor].
Qed.

Lemma splitIntoSentences_shape text' :
  Forall (fun s => s <> [] /\ unwords (tokens s) = s /\ trim s = s)
         (splitIntoSentences text')
  /\ Forall (fun s => endsWithStop s = true)
            (removelast (splitIntoSentences text')).
Proof.
  split.
  - apply Forall_forall. intros s Hs. split; [|split].
    + pose proof Hs as Hs'. rewrite splitIntoSentences_words in Hs'.
      destruct (shape_sentencesOf (tokens text') (tokens_words text') []
                  ltac:(intros H; elim H; reflexivity) ltac:(constructor))
        as [H _].
      rewrite Forall_forall in H. apply (H s Hs').
    + pose proof Hs as Hs'. rewrite splitIntoSentences_words in Hs'.
      destruct (shape_sentencesOf (tokens text') (tokens_words text') []
                  ltac:(intros H; elim H; reflexivity) ltac:(constructor))
        as [H _].
      rewrite Forall_forall in H. apply (H s Hs').
    + unfold splitIntoSentences in Hs. apply filter_In in Hs.
      destruct Hs as [Hs _]. apply in_map_iff in Hs.
      destruct Hs as (y & <- & _). apply trim_idempotent.
  - rewrite splitIntoSentences_words.
    apply (shape_sentencesOf (tokens text') (tokens_words text') []);
      [intros H; elim H; reflexivity|constructor].
Qed.

(** X18.  Every sentence returned is not empty and is its own words joined
    by single spaces, so it has no white space at either end and none inside
    but single spaces; and every sentence but the last ends with a full
    stop, an exclamation mark or a question mark. *)
Theorem sentences_are_trimmed_and_single_spaced text' :
  Forall (fun s => s <> [] /\ unwords (tokens s) = s /\ trim s = s)
         (splitIntoSentences text')
  /\ Forall (fun s => endsWithStop s = true)
            (removelast (splitIntoSentences text')).
Proof. exact (splitIntoSentences_shape text'). Qed.

Lemma sentencesOf_single T :
  Forall isWord T -> T <> [] ->
  Forall (fun w => endsWithStop w = false) (removelast T) ->
  forall P, sentencesOf P T = [spaced P ++ unwords T].
Proof.
  induction 1 as [|w r Hw _ IH]; intros Hn Hs P; [contradiction|].
  assert (Hne : spaced P ++ w <> []).
  { destruct Hw as [Hw _]. destruct w; [contradiction|].
    destruct (spaced P); discriminate. }
  cbn [sentencesOf]. rewrite <- spaced_app. destruct r as [|w2 r'].
  - cbn [unwords sentencesOf].
    destruct (endsWithStop w); [reflexivity|].
    destruct (spaced P ++ w); [contradiction|reflexivity].
  - change (removelast (w :: w2 :: r')) with (w :: removelast (w2 :: r')) in Hs.
    inversion Hs as [|? ? Hw0 Hs']; subst. rewrite Hw0.
    rewrite (IH ltac:(discriminate) Hs').
    rewrite (unwords_cons w (w2 :: r')) by discriminate. f_equal.
    unfold spaced at 1. destruct (spaced P ++ w) eqn:E; [contradiction|].
    rewrite <- E, <- !app_assoc. reflexivity.
Qed.

(** X19.  Splitting is stable: a sentence that was returned, split again,
    gives that sentence alone. *)
Theorem a_sentence_splits_into_itself text' s :
  In s (splitIntoSentences text') -> splitIntoSentences s = [s].
Proof.
  intros Hs. rewrite splitIntoSentences_words in Hs.
  destruct (shape_sentencesOf (tokens text') (tokens_words text') []
              ltac:(intros H; elim H; reflexivity) ltac:(constructor))
    as [H _].
  rewrite Forall_forall in H. destruct (H s Hs) as (Hn & Hu & Hl).
  rewrite splitIntoSentences_words.
  rewrite (sentencesOf_single (tokens s) (tokens_words s)); [| |exact Hl].
  - cbn [spaced app]. rewrite Hu. reflexivity.
  - intros E. rewrite E in Hu. cbn in Hu. congruence.
Qed.

Lemma a_sentence_splits_into_itself_witness :
  splitIntoSentences (js "How are you?") = [js "How are you?"].
Proof.
  apply (a_sentence_splits_into_itself
           (js "  Hello   world.  How are   you? Fine!")).
  vm_compute. right. left. reflexivity.
Defined.

(** ** From the parsed text to the engine *)

Lemma unwords_spaces T :
  Forall isWord T ->
  Forall (fun c => isWhiteSpace c = true -> c = SPACE) (unwords T).
Proof.
  induction 1 as [|w r [_ Hw] Hr IH]; [constructor|].
  assert (H : Forall (fun c => isWhiteSpace c = true -> c = SPACE) w).
  { eapply Forall_impl; [|exact Hw]. cbn. intros c Hc E. congruence. }
  destruct r as [|w2 r']; [exact H|].
  rewrite unwords_cons by discriminate.
  apply Forall_app. split; [exact H|]. constructor; [auto|exact IH].
Qed.

Lemma rewriteText_plain s :
  Forall (fun c => isWhiteSpace c = true -> c = SPACE) s ->
  rewriteText s = replaceAll QUOTE APOSTROPHE s.
Proof.
  unfold rewriteText, removeAll, replaceAll.
  induction 1 as [|c s Hc _ IH]; [reflexivity|]. cbn [map filter].
  assert (H1 : ((if (c =? QUOTE)%N then APOSTROPHE else c) =? LF)%N = false).
  { destruct (N.eqb_spec c QUOTE); [reflexivity|].
    destruct (N.eqb_spec c LF) as [->|]; [|reflexivity].
    specialize (Hc eq_refl). discriminate. }
  rewrite H1.
  assert (H2 : ((if (c =? QUOTE)%N then APOSTROPHE else c) =? CR)%N = false).
  { destruct (N.eqb_spec c QUOTE); [reflexivity|].
    destruct (N.eqb_spec c CR) as [->|]; [|reflexivity].
    specialize (Hc eq_refl). discriminate. }
  rewrite H2. cbn [negb]. f_equal. exact IH.
Qed.

Lemma flat_map_ext_in {A B} (f g : A -> list B) l :
  (forall a, In a l -> f a = g a) -> flat_map f l = flat_map g l.
Proof.
  induction l as [|a l IH]; intros H; [reflexivity|]. cbn.
  rewrite (H a (or_introl eq_refl)). f_equal.
  apply IH. intros b Hb. apply H. right. exact Hb.
Qed.

(** X20.  Every sentence of a parsed text, sent on as a batch, is spoken:
    none is skipped as blank, and the engine is given each sentence as it
    was returned, its double quotes turned into apostrophes and nothing
    else changed, once and in order. *)
Theorem parsed_sentences_are_all_spoken w text' v r :
  allWhite text' = false ->
  voiceKnown (match v with Some x => x | None => DEFAULT_VOICE end) = true ->
  (edgeTtsAvailable w || checkEdgeTts (versionProbe w))%bool = true ->
  engineLog w (batchOf (splitIntoSentences text') v r)
  = flat_map
      (fun k =>
         [ExecStart k
            (commandLine
               (replaceAll QUOTE APOSTROPHE
                           (nth k (splitIntoSentences text') []))
               (match v with Some x => x | None => DEFAULT_VOICE end)
               (match r with Some x => x | None => DEFAULT_RATE end)
               (outputPath w k));
          ExecEnd k])
      (seq 0 (List.length (splitIntoSentences text'))).
Proof.
  intros Hb Hv Ha.
  set (sents := splitIntoSentences text').
  assert (Hn : sents <> []).
  { intros E. apply splitIntoSentences_nil_iff in E. congruence. }
  assert (Hacc : accepted w (batchOf sents v r)).
  { split; [|split; assumption].
    destruct sents as [|s0 more]; [contradiction|].
    exists (JString s0), (map JString more). reflexivity. }
  assert (Hstr : allStrings (batchOf sents v r)).
  { unfold allStrings, sentences. cbn [batchOf body_sentences].
    apply Forall_map, Forall_forall. reflexivity. }
  unfold engineLog. rewrite (accepted_batch_log w _ _ _ Hacc Hstr).
  unfold total, sentences. cbn [batchOf body_sentences].
  rewrite length_map. unfold expectedLog. apply flat_map_ext_in.
  intros k Hk. apply in_seq in Hk. cbn in Hk.
  destruct (splitIntoSentences_shape text') as [Hshape _].
  rewrite Forall_forall in Hshape.
  assert (Hk' : k < List.length sents) by lia.
  assert (Hin : In (nth k sents []) sents) by (apply nth_In; exact Hk').
  destruct (Hshape _ Hin) as (Hne & Hu & Ht).
  assert (Es : sentence (batchOf sents v r) k = JString (nth k sents [])).
  { unfold sentence, sentences. cbn [batchOf body_sentences].
    rewrite (nth_indep _ JUndefined (JString []))
      by (rewrite length_map; lia).
    apply (map_nth JString). }
  unfold callEvents, nonBlank, commandOf. rewrite Es, Ht.
  destruct (nth k sents []) as [|c t] eqn:E; [contradiction|].
  rewrite cleanText_rewrite, Ht, rewriteText_plain; [reflexivity|].
  rewrite <- Hu. apply unwords_spaces, tokens_words.
Qed.

Lemma parsed_sentences_are_all_spoken_witness :
  engineLog (sampleWorld engineOk)
            (batchOf (splitIntoSentences (js " Hello   world.  How are you? "))
                     None None)
  = flat_map
      (fun k =>
         [ExecStart k
            (commandLine
               (replaceAll QUOTE APOSTROPHE
                  (nth k (splitIntoSentences
                            (js " Hello   world.  How are you? ")) []))
               DEFAULT_VOICE DEFAULT_RATE
               (outputPath (sampleWorld engineOk) k));
          ExecEnd k])
      (seq 0 (List.length (splitIntoSentences
                             (js " Hello   world.  How are you? ")))).
Proof.
  apply (parsed_sentences_are_all_spoken
           (sampleWorld engineOk) (js " Hello   world.  How are you? ")
           None None).
  - vm_compute. reflexivity.
  - reflexivity.
  - reflexivity.
Defined.

(** X21.  POST /parse-text refuses only a text that is missing, empty or
    not a string; a text of white space alone is answered with no sentence,
    and that empty list is what POST /generate-batch then refuses with 400,
    before any engine call. *)
Theorem blank_text_parses_to_a_list_the_batch_refuses w s v r :
  s <> [] -> allWhite s = true ->
  parseText (JString s) = ParseOk 0 []
  /\ generateBatch w (batchOf [] v r)
     = Some (BadRequest MSG_BAD_SENTENCES None)
  /\ engineLog w (batchOf [] v r) = [].
Proof.
  intros Hn Hb. split.
  - unfold parseText. destruct s as [|c t]; [contradiction|].
    rewrite (proj2 (splitIntoSentences_nil_iff (c :: t)) Hb). reflexivity.
  - assert (Hr : ~ accepted w (batchOf [] v r)).
    { intros ((first & more & E) & _). discriminate. }
    unfold generateBatch, engineLog.
    rewrite (handlerEnd_refused w _ _ _ Hr). split; reflexivity.
Qed.

Lemma blank_text_parses_to_a_list_the_batch_refuses_witness :
  parseText (JString (js "   ")) = ParseOk 0 []
  /\ generateBatch (sampleWorld engineOk) (batchOf [] None None)
     = Some (BadRequest MSG_BAD_SENTENCES None)
  /\ engineLog (sampleWorld engineOk) (batchOf [] None None) = [].
Proof.
  apply (blank_text_parses_to_a_list_the_batch_refuses
           (sampleWorld engineOk) (js "   ") None None).
  - vm_compute. discriminate.
  - reflexivity.
Defined.

(** ** The client and the batch route *)








(** ** Continuous playback *)

Lemma searchAudio_first items count :
  forall from,
    searchAudio items from count = hd_error (audioIndices items from count).
Proof.
  unfold audioIndices.
  induction count as [|n IH]; intros from; [reflexivity|].
  cbn [searchAudio seq filter].
  destruct (hasAudioAt items from); [reflexivity|apply IH].
Qed.

(** The two searches of [handleAudioEnded], read as one list. *)
Lemma handleAudioEnded_next items current :
  handleAudioEnded true items (Some current)
  = match audioIndices items (current + 1)
                       (List.length items - (current + 1))
          ++ audioIndices items 0 current with
    | next :: _ => PlayIndex next
    | [] => if hasAudioAt items current then Retrigger current
            else KeepSilent
    end.
Proof.
  unfold handleAudioEnded. cbn [negb]. rewrite !searchAudio_first.
  destruct (audioIndices items (current + 1) _) as [|i l]; [|reflexivity].
  cbn [hd_error app].
  destruct (audioIndices items 0 current); reflexivity.
Qed.

(** X23.  When a sentence ends in continuous playback, the one played next
    is the first with audio after it in the list, going round from the end
    to the start; if no other has audio the same one is played again, and
    playback stops only if none has. *)
Theorem next_sentence_is_the_cyclic_successor items current :
  handleAudioEnded true items (Some current)
  = match audioIndices items (current + 1)
                       (List.length items - (current + 1))
          ++ audioIndices items 0 current with
    | next :: _ => PlayIndex next
    | [] => if hasAudioAt items current then Retrigger current
            else KeepSilent
    end.
Proof. apply handleAudioEnded_next. Qed.

Lemma hasAudioAt_lt items i :
  hasAudioAt items i = true -> i < List.length items.
Proof.
  unfold hasAudioAt. destruct (nth_error items i) eqn:E; [|discriminate].
  intros _. apply nth_error_Some. congruence.
Qed.

Lemma audioIndices_In items from count i :
  In i (audioIndices items from count)
  <-> from <= i < from + count /\ hasAudioAt items i = true.
Proof.
  unfold audioIndices. rewrite filter_In, in_seq. tauto.
Qed.

(** X24.  Continuous playback goes on as long as any sentence has audio:
    the answer to an ended sentence is then never silence, and the index it
    names is in the list, has audio and, unless playback is retriggered,
    differs from the one that ended. *)
Theorem auto_play_goes_on_while_any_audio_exists items current j :
  hasAudioAt items j = true ->
  handleAudioEnded true items (Some current) <> KeepSilent
  /\ forall i,
       (handleAudioEnded true items (Some current) = PlayIndex i ->
        hasAudioAt items i = true /\ i < List.length items /\ i <> current)
       /\ (handleAudioEnded true items (Some current) = Retrigger i ->
           i = current /\ hasAudioAt items i = true).
Proof.
  intros Hj. rewrite handleAudioEnded_next.
  pose proof (hasAudioAt_lt items j Hj) as Hlt.
  destruct (audioIndices items (current + 1) _ ++ audioIndices items 0 current)
    as [|next l] eqn:E.
  - apply app_eq_nil in E. destruct E as [E1 E2].
    assert (Hc : j = current).
    { destruct (Nat.lt_trichotomy j current) as [H|[H|H]]; [|exact H|].
      - assert (Hin : In j (audioIndices items 0 current))
          by (apply audioIndices_In; split; [lia|exact Hj]).
        rewrite E2 in Hin. contradiction.
      - assert (Hin : In j (audioIndices items (current + 1)
                              (List.length items - (current + 1))))
          by (apply audioIndices_In; split; [lia|exact Hj]).
        rewrite E1 in Hin. contradiction. }
    subst j. rewrite Hj. split; [discriminate|].
    intros i. split; [discriminate|]. intros [= <-]. auto.
  - split; [discriminate|]. intros i. split; [|discriminate].
    intros [= <-].
    assert (Hin : In next (audioIndices items (current + 1)
                             (List.length items - (current + 1))
                           ++ audioIndices items 0 current))
      by (rewrite E; left; reflexivity).
    apply in_app_or in Hin.
    destruct Hin as [Hin|Hin]; apply audioIndices_In in Hin;
      destruct Hin as [Hr Ha]; (split; [exact Ha|]);
      (split; [apply hasAudioAt_lt; exact Ha|lia]).
Qed.

Lemma auto_play_goes_on_while_any_audio_exists_witness :
  handleAudioEnded true
    (handleGenerateAll (sampleWorld engineOk) DEFAULT_VOICE DEFAULT_RATE
                       sampleItems) (Some 2)
  <> KeepSilent.
Proof.
  apply (auto_play_goes_on_while_any_audio_exists
           (handleGenerateAll (sampleWorld engineOk) DEFAULT_VOICE
                              DEFAULT_RATE sampleItems) 2 0).
  vm_compute. reflexivity.
Defined.

(** ** The bound of the list *)

Lemma combine_map_snd {A B} (l : list A) (l' : list B) :
  List.length l = List.length l' -> map snd (combine l l') = l'.
Proof.
  revert l'. induction l as [|a l IH]; intros [|b l'] H; try discriminate;
    [reflexivity|].
  cbn. f_equal. apply IH. cbn in H. lia.
Qed.

(** X25.  New sentences go to the head of the list and the list is cut at
    twenty items: the texts are then the new sentences followed by the old
    ones, the first twenty of them, so that twenty new sentences or more
    push out every older item, with its notes and its audio; and a list
    within the bound stays within it. *)
Theorem new_sentences_push_out_the_oldest ids inputs prev :
  List.length ids = List.length inputs -> inputs <> [] ->
  map item_text (addSentences ids inputs prev)
  = firstn MAX_HISTORY (inputs ++ map item_text prev)
  /\ List.length (addSentences ids inputs prev) <= MAX_HISTORY
  /\ (MAX_HISTORY <= List.length inputs ->
      map item_text (addSentences ids inputs prev)
      = firstn MAX_HISTORY inputs).
Proof.
  intros Hl Hn. unfold addSentences.
  destruct inputs as [|s0 more] eqn:Ei; [contradiction|].
  rewrite <- Ei in *. clear Ei.
  assert (Hm : map item_text
                   (map (fun p => newItem (fst p) (snd p))
                        (combine ids inputs)) = inputs).
  { rewrite map_map. cbn [newItem item_text].
    apply (combine_map_snd ids inputs Hl). }
  assert (E : map item_text
                (firstn MAX_HISTORY
                   (map (fun p => newItem (fst p) (snd p))
                        (combine ids inputs) ++ prev))
              = firstn MAX_HISTORY (inputs ++ map item_text prev)).
  { rewrite <- Hm at 2. rewrite <- map_app. symmetry. apply firstn_map. }
  split; [exact E|]. split.
  - rewrite length_firstn. lia.
  - intros Hge. rewrite E, firstn_app.
    replace (MAX_HISTORY - List.length inputs) with 0 by lia.
    cbn [firstn]. apply app_nil_r.
Qed.

Lemma new_sentences_push_out_the_oldest_witness :
  map item_text (addSentences [js "a"; js "b"] [js "One."; js "Two."]
                              sampleItems)
  = firstn MAX_HISTORY ([js "One."; js "Two."] ++ map item_text sampleItems).
Proof.
  apply (new_sentences_push_out_the_oldest
           [js "a"; js "b"] [js "One."; js "Two."] sampleItems).
  - reflexivity.
  - discriminate.
Defined.

(** X26.  Saving an edit under a non-empty id takes the audio of the edited
    sentence away and leaves every other item as it was, so continuous
    playback passes the edited sentence over until audio is generated for it
    again.  Without an id to edit ([null] or the empty string) the list is
    left as it is. *)
Theorem an_edited_sentence_is_not_played items j item id text' note current :
  id <> [] ->
  nth_error items j = Some item ->
  nth_error (saveEdit (Some id) text' note items) j
  = Some (if jsstring_eqb (item_id item) id
          then {| item_id := item_id item; item_text := text';
                  item_explanation := note; item_audioPath := None;
                  item_hasAudio := false |}
          else item)
  /\ (jsstring_eqb (item_id item) id = true ->
      handleAudioEnded true (saveEdit (Some id) text' note items)
                       (Some current)
      <> PlayIndex j)
  /\ saveEdit None text' note items = items
  /\ saveEdit (Some []) text' note items = items.
Proof.
  intros Hid0 Hj.
  assert (E : nth_error (saveEdit (Some id) text' note items) j
              = Some (if jsstring_eqb (item_id item) id
                      then {| item_id := item_id item; item_text := text';
                              item_explanation := note;
                              item_audioPath := None;
                              item_hasAudio := false |}
                      else item)).
  { unfold saveEdit. destruct id as [|c id]; [elim Hid0; reflexivity|].
    rewrite nth_error_map, Hj. reflexivity. }
  split; [exact E|]. split; [|split; reflexivity]. intros Hid Hp.
  assert (Ha : hasAudioAt (saveEdit (Some id) text' note items) j = false).
  { unfold hasAudioAt. rewrite E, Hid. reflexivity. }
  rewrite handleAudioEnded_next in Hp.
  destruct (audioIndices _ (current + 1) _ ++ audioIndices _ 0 current)
    as [|next l] eqn:El.
  - destruct (hasAudioAt _ current); discriminate.
  - injection Hp as ->.
    assert (Hin : In j (audioIndices (saveEdit (Some id) text' note items)
                          (current + 1)
                          (List.length (saveEdit (Some id) text' note items)
                           - (current + 1))
                        ++ audioIndices (saveEdit (Some id) text' note items)
                             0 current))
      by (rewrite El; left; reflexivity).
    apply in_app_or in Hin.
    destruct Hin as [Hin|Hin]; apply audioIndices_In in Hin;
      destruct Hin as [_ Hin]; congruence.
Qed.

Lemma an_edited_sentence_is_not_played_witness :
  handleAudioEnded true
    (saveEdit (Some (js "s3")) (js "Changed.") []
       (handleGenerateAll (sampleWorld engineOk) DEFAULT_VOICE DEFAULT_RATE
                          sampleItems))
    (Some 0)
  <> PlayIndex 2.
Proof.
  refine (proj1 (proj2 (an_edited_sentence_is_not_played
           (handleGenerateAll (sampleWorld engineOk) DEFAULT_VOICE
                              DEFAULT_RATE sampleItems)
           2 (withAudio (newItem (js "s3") (js "Second sentence."))
                        (Some (js "/audio/batchXYZ_002.mp3")))
           (js "s3") (js "Changed.") [] 0 _ _)) _).
  - vm_compute. discriminate.
  - vm_compute. reflexivity.
  - vm_compute. reflexivity.
Defined.

(** ** extractWord *)

Lemma letter_not_white c : isLetter c = true -> isWhiteSpace c = false.
Proof.
  unfold isLetter, isWhiteSpace. cbn [existsb]. intros H.
  repeat match goal with
         | |- context [(c =? ?k)%N] =>
             destruct (N.eqb_spec c k) as [->|?]; [discriminate|]
         end.
  cbn [orb].
  destruct (N.leb_spec 8192 c); [|reflexivity].
  apply orb_prop in H. destruct H as [H|H]; apply andb_prop in H;
    destruct H as [_ H]; apply N.leb_le in H; lia.
Qed.

Lemma asciiLower_letter c :
  isLetter c = true ->
  (97 <= asciiLower c <= 122)%N /\ isLetter (asciiLower c) = true
  /\ asciiLower (asciiLower c) = asciiLower c.
Proof.
  unfold isLetter, asciiLower. intros H.
  destruct (N.leb_spec 65 c), (N.leb_spec c 90), (N.leb_spec 97 c),
    (N.leb_spec c 122); cbn in H; try discriminate; cbn [andb];
    repeat split; try lia;
    repeat match goal with
           | |- context [(?a <=? ?b)%N] => destruct (N.leb_spec a b)
           end; cbn; try reflexivity; try lia.
Qed.

Lemma firstPiece_letters s : forallb isLetter s = true -> firstPiece s = s.
Proof.
  induction s as [|c s IH]; [reflexivity|]. cbn. intros H.
  apply andb_prop in H. destruct H as [Hc Hs].
  rewrite (letter_not_white c Hc), (IH Hs). reflexivity.
Qed.

Lemma forallb_rev {A} (f : A -> bool) l : forallb f (rev l) = forallb f l.
Proof.
  induction l as [|a l IH]; [reflexivity|]. cbn.
  rewrite forallb_app, IH. cbn. rewrite andb_true_r. apply andb_comm.
Qed.

Lemma dropNonLetters_letters s :
  forallb isLetter s = true -> dropNonLetters s = s.
Proof. destruct s as [|c s]; [reflexivity|]. cbn. intros H.
  apply andb_prop in H. destruct H as [-> _]. reflexivity. Qed.

Lemma trim_letters s : forallb isLetter s = true -> trim s = s.
Proof.
  intros H. apply trim_edged_id. split.
  - destruct s as [|c s]; [exact I|]. cbn in H. apply andb_prop in H.
    apply letter_not_white. tauto.
  - rewrite <- forallb_rev in H. destruct (rev s) as [|c r]; [exact I|].
    cbn in H. apply andb_prop in H. apply letter_not_white. tauto.
Qed.

(** X27.  A word that extractWord returns has at least two units, all of
    them lower-case ASCII letters, and is a fixed point: extracting from it
    returns it again. *)
Theorem extracted_word_is_lower_case_letters text' word :
  extractWord text' = Some word ->
  2 <= List.length word
  /\ Forall (fun c => (97 <= c <= 122)%N) word
  /\ extractWord word = Some word.
Proof.
  unfold extractWord at 1.
  destruct (stripNonLetters (trim text')) as [|c0 cleaned]; [discriminate|].
  set (fw := firstPiece (c0 :: cleaned)).
  destruct (forallb isLetter fw) eqn:Hl; [|discriminate].
  destruct (2 <=? List.length fw) eqn:Hn; [|discriminate].
  cbn [andb]. intros [= <-]. apply Nat.leb_le in Hn.
  assert (Hlow : Forall (fun c => (97 <= c <= 122)%N /\ isLetter c = true
                                  /\ asciiLower c = c) (lowerLetters fw)).
  { unfold lowerLetters. apply Forall_map. rewrite forallb_forall in Hl.
    apply Forall_forall. intros c Hc.
    destruct (asciiLower_letter c (Hl c Hc)) as (H1 & H2 & H3). auto. }
  assert (Hlen : List.length (lowerLetters fw) = List.length fw)
    by apply length_map.
  split; [lia|]. split.
  - eapply Forall_impl; [|exact Hlow]. cbn. tauto.
  - assert (Hall : forallb isLetter (lowerLetters fw) = true).
    { apply forallb_forall. rewrite Forall_forall in Hlow.
      intros c Hc. apply (Hlow c Hc). }
    unfold extractWord. rewrite (trim_letters _ Hall).
    unfold stripNonLetters.
    rewrite (dropNonLetters_letters _ Hall).
    rewrite dropNonLetters_letters by (rewrite forallb_rev; exact Hall).
    rewrite rev_involutive.
    destruct (lowerLetters fw) as [|c1 rest] eqn:E;
      [exfalso; cbn [List.length] in Hlen; lia|].
    rewrite <- E in *. rewrite (firstPiece_letters _ Hall), Hall.
    rewrite (proj2 (Nat.leb_le 2 _)) by lia. cbn [andb]. f_equal.
    unfold lowerLetters at 1. rewrite <- (map_id (lowerLetters fw)) at 2.
    apply map_ext_in. rewrite Forall_forall in Hlow.
    intros c Hc. apply (Hlow c Hc).
Qed.

Lemma extracted_word_is_lower_case_letters_witness :
  2 <= List.length (js "apple")
  /\ Forall (fun c => (97 <= c <= 122)%N) (js "apple")
  /\ extractWord (js "apple") = Some (js "apple").
Proof.
  apply (extracted_word_is_lower_case_letters (js " (Apple) ")).
  vm_compute. reflexivity.
Defined.

(** * The word book *)

Lemma jsstring_eqb_true a b : jsstring_eqb a b = true <-> a = b.
Proof.
  unfold jsstring_eqb. destruct (list_eq_dec N.eq_dec a b); split; intros H;
    try reflexivity; try assumption; try discriminate; contradiction.
Qed.

Lemma jsstring_eqb_false a b : jsstring_eqb a b = false <-> a <> b.
Proof.
  unfold jsstring_eqb. destruct (list_eq_dec N.eq_dec a b); split; intros H;
    try reflexivity; try assumption; try discriminate; contradiction.
Qed.

Lemma sameWord_true rt target e :
  sameWord rt target e = true <-> wordKey rt e = toLowerCase rt target.
Proof. apply jsstring_eqb_true. Qed.

Lemma sameWord_false rt target e :
  sameWord rt target e = false <-> wordKey rt e <> toLowerCase rt target.
Proof. apply jsstring_eqb_false. Qed.

(** [findIndex] finds the first element that passes, and says where. *)
Lemma findIndex_None {A} (p : A -> bool) l :
  findIndex p l = None <-> (forall a, In a l -> p a = false).
Proof.
  induction l as [|a l IH]; cbn.
  - split; [intros _ a []|reflexivity].
  - destruct (p a) eqn:E.
    + split; [discriminate|]. intros H. rewrite (H a) in E by auto.
      discriminate.
    + destruct (findIndex p l) as [i|] eqn:Ef; cbn.
      * split; [discriminate|]. intros H.
        assert (Hn : Some i = None); [|discriminate].
        apply IH. intros b Hb. apply H. auto.
      * split; [|reflexivity]. intros _ b [<-|Hb]; [exact E|].
        apply (proj1 IH eq_refl b Hb).
Qed.

Lemma findIndex_Some {A} (p : A -> bool) l i :
  findIndex p l = Some i <->
  exists l1 a l2, l = l1 ++ a :: l2 /\ List.length l1 = i /\ p a = true
                  /\ (forall b, In b l1 -> p b = false).
Proof.
  revert i. induction l as [|a l IH]; intros i; cbn.
  - split; [discriminate|]. intros (l1 & a & l2 & E & _).
    destruct l1; discriminate.
  - destruct (p a) eqn:E.
    + split.
      * intros [= <-]. exists [], a, l. repeat split; auto. intros b [].
      * intros (l1 & b & l2 & El & Hi & Hb & Hl1).
        destruct l1 as [|c l1]; [cbn in Hi; congruence|].
        injection El as <- _. rewrite (Hl1 a) in E by (left; reflexivity).
        discriminate.
    + split.
      * destruct (findIndex p l) as [j|] eqn:Ej; [|discriminate].
        cbn. intros [= <-].
        destruct (proj1 (IH j) eq_refl) as (l1 & b & l2 & El & Hi & Hb & Hl1).
        exists (a :: l1), b, l2. subst l. repeat split; cbn; auto.
        intros c [<-|Hc]; auto.
      * intros (l1 & b & l2 & El & Hi & Hb & Hl1).
        destruct l1 as [|c l1].
        { injection El as <- _. congruence. }
        injection El as <- El. cbn in Hi. destruct i as [|j]; [discriminate|].
        injection Hi as Hi.
        rewrite (proj2 (IH j)); [reflexivity|].
        exists l1, b, l2. repeat split; auto. intros d Hd. apply Hl1.
        right. exact Hd.
Qed.

Lemma setAt_middle {A} (x a : A) l1 l2 :
  setAt (List.length l1) x (l1 ++ a :: l2) = l1 ++ x :: l2.
Proof. induction l1 as [|b l1 IH]; cbn; [reflexivity|]. now rewrite IH. Qed.

Lemma removeAt_middle {A} (a : A) l1 l2 :
  removeAt (List.length l1) (l1 ++ a :: l2) = l1 ++ l2.
Proof. induction l1 as [|b l1 IH]; cbn; [reflexivity|]. now rewrite IH. Qed.

Lemma nth_error_middle {A} (a : A) l1 l2 :
  nth_error (l1 ++ a :: l2) (List.length l1) = Some a.
Proof. induction l1 as [|b l1 IH]; cbn; [reflexivity|]. exact IH. Qed.

Lemma existsb_findIndex {A} (p : A -> bool) l :
  existsb p l = match findIndex p l with Some _ => true | None => false end.
Proof.
  induction l as [|a l IH]; cbn; [reflexivity|].
  destruct (p a); cbn; [reflexivity|]. rewrite IH.
  destruct (findIndex p l); reflexivity.
Qed.

Lemma audio_prefix : js "/audio/word_" = js "/audio/" ++ js "word_".
Proof. vm_compute. reflexivity. Qed.

Lemma wordAudioPath_wordFilename rt word :
  wordAudioPath rt word = js "/audio/" ++ wordFilename rt word.
Proof.
  unfold wordAudioPath, wordFilename, safeWord.
  rewrite audio_prefix, <- app_assoc. reflexivity.
Qed.

(** X3.  POST / with a word that is its own trim and a meaning, both
    non-empty strings, answers with the entry it saved; the entry is then
    the one the book finds for that word, its [audioPath] is the path
    /generate-word answers for the word, the book has grown by one entry
    exactly when it had none for the word, and a book whose words were
    distinct still has distinct words. *)
Theorem posted_word_is_kept_once rt file body word meaning :
  add_word body = JString word -> add_meaning body = JString meaning ->
  word <> [] -> meaning <> [] -> trim word = word ->
  exists entry words',
    addWord rt file body
    = (Some words',
       BookChanged (if existsb (sameWord rt word) (readWordBook file)
                    then MSG_WORD_UPDATED else MSG_WORD_ADDED) entry)
    /\ entry_word entry = word
    /\ entry_audioPath entry = JString (js "/audio/" ++ wordFilename rt word)
    /\ (exists i, findIndex (sameWord rt word) words' = Some i
                  /\ nth_error words' i = Some entry)
    /\ List.length words'
       = List.length (readWordBook file)
         + (if existsb (sameWord rt word) (readWordBook file) then 0 else 1)
    /\ (distinctWords rt (readWordBook file) -> distinctWords rt words').
Proof.
  intros Hw Hm Hwn Hmn Ht. unfold addWord. rewrite Hw, Hm.
  destruct word as [|c word]; [elim Hwn; reflexivity|].
  destruct meaning as [|d meaning]; [elim Hmn; reflexivity|].
  cbn [truthy negb orb]. cbv zeta. rewrite existsb_findIndex.
  set (words := readWordBook file) in *.
  set (entry := {| entry_word := trim (c :: word);
                   entry_phonetic := orElse (add_phonetic body) (JString []);
                   entry_meaning := JString (trim (d :: meaning));
                   entry_source := orElse (add_source body) (JString []);
                   entry_addedAt := JString (nowISOString rt);
                   entry_audioPath := JString (wordAudioPath rt (c :: word))
                |}).
  assert (Hk : wordKey rt entry = toLowerCase rt (c :: word))
    by (unfold wordKey, entry; cbn [entry_word]; rewrite Ht; reflexivity).
  exists entry.
  destruct (findIndex (sameWord rt (c :: word)) words) as [i|] eqn:Ef.
  - destruct (proj1 (findIndex_Some _ _ _) Ef)
      as (l1 & a & l2 & El & Hi & Ha & Hl1).
    exists (setAt i entry words). rewrite El, <- Hi, setAt_middle.
    split; [reflexivity|]. split; [exact Ht|].
    split; [cbn [entry entry_audioPath];
            rewrite wordAudioPath_wordFilename; reflexivity|].
    split.
    { exists (List.length l1). split; [|apply nth_error_middle].
      apply findIndex_Some. exists l1, entry, l2. repeat split; auto.
      apply sameWord_true. exact Hk. }
    split; [rewrite !length_app; cbn; lia|].
    intros Hd. unfold distinctWords in *.
    rewrite map_app in *. cbn [map] in *.
    apply sameWord_true in Ha. rewrite Hk, <- Ha. exact Hd.
  - exists (words ++ [entry]).
    split; [reflexivity|]. split; [exact Ht|].
    split; [cbn [entry entry_audioPath];
            rewrite wordAudioPath_wordFilename; reflexivity|].
    split.
    { exists (List.length words). split.
      - apply findIndex_Some. exists words, entry, []. repeat split; auto.
        + apply sameWord_true. exact Hk.
        + apply findIndex_None. exact Ef.
      - apply nth_error_middle. }
    split; [rewrite length_app; reflexivity|].
    intros Hd. unfold distinctWords in *. rewrite map_app. cbn [map].
    apply NoDup_app; [exact Hd|repeat constructor; intros []|].
    intros k Hin [<-|[]]. apply in_map_iff in Hin.
    destruct Hin as (e & He & Hine).
    apply (proj1 (findIndex_None _ _) Ef) in Hine.
    apply sameWord_false in Hine. congruence.
Qed.

Lemma posted_word_is_kept_once_witness :
  exists entry words',
    addWord (sampleRuntime []) None (sampleAdd (js "apple") (js "fruit"))
    = (Some words',
       BookChanged (if existsb (sameWord (sampleRuntime []) (js "apple"))
                                (readWordBook None)
                    then MSG_WORD_UPDATED else MSG_WORD_ADDED) entry)
    /\ entry_word entry = js "apple"
    /\ entry_audioPath entry
       = JString (js "/audio/" ++ wordFilename (sampleRuntime []) (js "apple"))
    /\ (exists i, findIndex (sameWord (sampleRuntime []) (js "apple")) words'
                  = Some i
                  /\ nth_error words' i = Some entry)
    /\ List.length words'
       = List.length (readWordBook None)
         + (if existsb (sameWord (sampleRuntime []) (js "apple"))
                       (readWordBook None) then 0 else 1)
    /\ (distinctWords (sampleRuntime []) (readWordBook None) ->
        distinctWords (sampleRuntime []) words').
Proof.
  apply (posted_word_is_kept_once (sampleRuntime []) None
           (sampleAdd (js "apple") (js "fruit")) (js "apple") (js "fruit")).
  - reflexivity.
  - reflexivity.
  - vm_compute. discriminate.
  - vm_compute. discriminate.
  - vm_compute. reflexivity.
Defined.

(** A word with white space around it is looked up as it came and saved
    trimmed: posted twice, it is in the book twice. *)
Example untrimmed_word_is_added_twice :
  let rt := sampleRuntime [] in
  let body := sampleAdd (js " apple ") (js "fruit") in
  map entry_word (readWordBook (fst (addWord rt (fst (addWord rt None body))
                                             body)))
  = [js "apple"; js "apple"].
Proof. vm_compute. reflexivity. Qed.

Lemma NoDup_key_unique {A B} (f : A -> B) l a b :
  NoDup (map f l) -> In a l -> In b l -> f a = f b -> a = b.
Proof.
  induction l as [|c l IH]; cbn; [intros _ []|].
  intros Hn Ha Hb E. inversion Hn as [|? ? Hc Hl]; subst.
  destruct Ha as [<-|Ha], Hb as [<-|Hb]; auto.
  - elim Hc. rewrite E. apply in_map. exact Hb.
  - elim Hc. rewrite <- E. apply in_map. exact Ha.
Qed.

Lemma filter_all {A} (p : A -> bool) l :
  (forall a, In a l -> p a = true) -> filter p l = l.
Proof.
  induction l as [|a l IH]; cbn; [reflexivity|]. intros H.
  rewrite (H a) by auto. rewrite IH; auto.
Qed.

(** X28.  DELETE /:word on a book of distinct words: when an entry has the
    word (letter case apart) the route answers with that entry and saves the
    book without it, the other entries in their order; asked again, it
    answers 404 and leaves the file alone. *)
Theorem deleted_word_is_gone rt file target e :
  distinctWords rt (readWordBook file) ->
  In e (readWordBook file) -> sameWord rt target e = true ->
  let rest :=
    filter (fun w => negb (sameWord rt target w)) (readWordBook file) in
  deleteWord rt file target = (Some rest, BookChanged MSG_WORD_DELETED e)
  /\ List.length rest + 1 = List.length (readWordBook file)
  /\ (forall w, In w rest <-> In w (readWordBook file) /\ w <> e)
  /\ deleteWord rt (Some rest) target
     = (Some rest, BookRejected 404 MSG_NO_SUCH_WORD).
Proof.
  intros Hd He Hs rest. unfold deleteWord.
  set (words := readWordBook file) in *.
  destruct (findIndex (sameWord rt target) words) as [i|] eqn:Ef.
  2:{ rewrite (proj1 (findIndex_None _ _) Ef e He) in Hs. discriminate. }
  destruct (proj1 (findIndex_Some _ _ _) Ef)
    as (l1 & a & l2 & El & Hi & Ha & Hl1).
  assert (Hae : a = e).
  { apply (NoDup_key_unique (wordKey rt) words); auto.
    - rewrite El. apply in_or_app. right. left. reflexivity.
    - apply sameWord_true in Ha, Hs. congruence. }
  subst a.
  assert (Hl2 : forall b, In b l2 -> sameWord rt target b = false).
  { intros b Hb. apply sameWord_false. intros Hk.
    unfold distinctWords in Hd. rewrite El, map_app in Hd. cbn [map] in Hd.
    apply NoDup_remove_2 in Hd. apply Hd. apply in_or_app. right.
    apply sameWord_true in Ha. rewrite Ha, <- Hk. apply in_map. exact Hb. }
  assert (Er : rest = l1 ++ l2).
  { unfold rest. rewrite El, filter_app. cbn [filter]. rewrite Ha.
    cbn [negb]. rewrite !filter_all; [reflexivity| |].
    - intros b Hb. rewrite (Hl2 b Hb). reflexivity.
    - intros b Hb. rewrite (Hl1 b Hb). reflexivity. }
  assert (En : nth_error words i = Some e)
    by (rewrite El, <- Hi; apply nth_error_middle).
  assert (Em : removeAt i words = rest)
    by (rewrite Er, El, <- Hi; apply removeAt_middle).
  rewrite En, Em.
  split; [reflexivity|].
  split; [rewrite Er, El, !length_app; cbn; lia|].
  split.
  - intros w. unfold rest. rewrite filter_In. split.
    + intros [Hw Hn]. split; [exact Hw|]. intros ->. rewrite Hs in Hn.
      discriminate.
    + intros [Hw Hn]. split; [exact Hw|].
      rewrite El in Hw. apply in_app_or in Hw.
      destruct Hw as [Hw|[Hw|Hw]].
      * rewrite (Hl1 w Hw). reflexivity.
      * elim Hn. auto.
      * rewrite (Hl2 w Hw). reflexivity.
  - cbn [readWordBook].
    assert (Enone : findIndex (sameWord rt target) rest = None).
    { apply findIndex_None. intros b Hb. unfold rest in Hb.
      apply filter_In in Hb. destruct Hb as [_ Hb].
      destruct (sameWord rt target b); [discriminate|reflexivity]. }
    rewrite Enone. reflexivity.
Qed.

Lemma deleted_word_is_gone_witness :
  let rt := sampleRuntime [] in
  let file := Some [sampleEntry rt (js "apple") (js "fruit");
                    sampleEntry rt (js "pear") (js "fruit")] in
  let rest :=
    filter (fun w => negb (sameWord rt (js "Apple") w)) (readWordBook file) in
  deleteWord rt file (js "Apple")
  = (Some rest,
     BookChanged MSG_WORD_DELETED (sampleEntry rt (js "apple") (js "fruit")))
  /\ List.length rest + 1 = List.length (readWordBook file)
  /\ (forall w, In w rest
                <-> In w (readWordBook file)
                    /\ w <> sampleEntry rt (js "apple") (js "fruit"))
  /\ deleteWord rt (Some rest) (js "Apple")
     = (Some rest, BookRejected 404 MSG_NO_SUCH_WORD).
Proof.
  intros rt file.
  apply (deleted_word_is_gone rt file (js "Apple")
           (sampleEntry rt (js "apple") (js "fruit"))).
  - unfold distinctWords. vm_compute.
    repeat constructor; cbn; intros H; repeat destruct H as [H|H];
      try discriminate; exact H.
  - left. reflexivity.
  - vm_compute. reflexivity.
Defined.

(** ** POST /import *)

Lemma setAt_length {A} i (x : A) l :
  List.length (setAt i x l) = List.length l.
Proof.
  revert i. induction l as [|a l IH]; intros [|i]; cbn; auto.
Qed.

Lemma importOne_counts rt st x st' :
  importOne rt st x = Some st' ->
  addedCount st' + updatedCount st'
  = addedCount st + updatedCount st + (if usable x then 1 else 0)
  /\ List.length (currentWords st') + addedCount st
     = List.length (currentWords st) + addedCount st'.
Proof.
  unfold importOne, usable.
  destruct (getProp (js "word") x) as [word|]; [|discriminate].
  destruct (getProp (js "meaning") x) as [meaning|]; [|discriminate].
  destruct (getProp (js "phonetic") x) as [phonetic|]; [|discriminate].
  destruct (getProp (js "source") x) as [source|]; [|discriminate].
  destruct (getProp (js "addedAt") x) as [addedAt|]; [|discriminate].
  destruct (getProp (js "audioPath") x) as [audioPath'|]; [|discriminate].
  destruct (truthy word) eqn:Tw; cbn [negb orb andb].
  2:{ intros [= <-]. lia. }
  destruct (truthy meaning) eqn:Tm; cbn [negb].
  2:{ intros [= <-]. lia. }
  destruct word as [| | | |w| |]; try discriminate.
  destruct meaning as [| | | |m| |]; try discriminate.
  destruct (findIndex _ _); intros [= <-];
    cbn [currentWords addedCount updatedCount].
  - rewrite setAt_length. lia.
  - rewrite length_app. cbn. lia.
Qed.

Lemma importEach_counts rt items : forall st st',
  importEach rt st items = Some st' ->
  addedCount st' + updatedCount st'
  = addedCount st + updatedCount st + List.length (filter usable items)
  /\ List.length (currentWords st') + addedCount st
     = List.length (currentWords st) + addedCount st'.
Proof.
  induction items as [|x items IH]; intros st st'; cbn [importEach filter].
  - intros [= <-]. cbn. lia.
  - destruct (importOne rt st x) as [st1|] eqn:E1; [|discriminate].
    intros E. apply IH in E. apply importOne_counts in E1.
    destruct (usable x); cbn [List.length]; lia.
Qed.

(** X29.  POST /import either answers with its counts, and then "added"
    plus "updated" is the number of items that have a word and a meaning,
    the total is the number of entries it started from plus "added", and the
    saved book has that many entries; or it answers an error and leaves the
    file as it was, whatever part of the list it had gone through. *)
Theorem import_counts_add_up rt file body file' response :
  importWords rt file body = (file', response) ->
  match response with
  | BookImported message total =>
      exists items added updated words',
        import_words body = JArray items
        /\ message = importMessage added updated
        /\ added + updated = List.length (filter usable items)
        /\ total
           = List.length (if mergeOf body then readWordBook file else [])
             + added
        /\ file' = Some words' /\ List.length words' = total
  | _ => file' = file
  end.
Proof.
  unfold importWords.
  destruct (import_words body) as [| | | | |items|] eqn:Ei;
    try (intros [= <- <-]; reflexivity).
  destruct (importEach rt (importStart file body) items) as [st|] eqn:E.
  - intros [= <- <-].
    exists items, (addedCount st), (updatedCount st), (currentWords st).
    apply importEach_counts in E. cbn in E.
    repeat split; try reflexivity; lia.
  - intros [= <- <-]. reflexivity.
Qed.

Lemma import_counts_add_up_witness :
  exists items added updated words',
    import_words sampleImport = JArray items
    /\ importMessage 1 1 = importMessage added updated
    /\ added + updated = List.length (filter usable items)
    /\ 2 = List.length (if mergeOf sampleImport
                        then readWordBook (Some [sampleApple]) else [])
           + added
    /\ Some [sampleApple;
             {| entry_word := js "Pear"; entry_phonetic := JString [];
                entry_meaning := JString (js "tree");
                entry_source := JString [];
                entry_addedAt := JString (nowISOString (sampleRuntime []));
                entry_audioPath := JString (js "/audio/word_pear.mp3") |}]
       = Some words'
    /\ List.length words' = 2.
Proof.
  apply (import_counts_add_up (sampleRuntime []) (Some [sampleApple])
           sampleImport
           (Some [sampleApple;
                  {| entry_word := js "Pear"; entry_phonetic := JString [];
                     entry_meaning := JString (js "tree");
                     entry_source := JString [];
                     entry_addedAt :=
                       JString (nowISOString (sampleRuntime []));
                     entry_audioPath :=
                       JString (js "/audio/word_pear.mp3") |}])
           (BookImported (importMessage 1 1) 2)).
  vm_compute. reflexivity.
Defined.

(** ** The export read back *)

Lemma getProp_entryJson e :
  getProp (js "word") (entryJson e) = Some (JString (entry_word e))
  /\ getProp (js "meaning") (entryJson e) = Some (entry_meaning e)
  /\ getProp (js "phonetic") (entryJson e) = Some (entry_phonetic e)
  /\ getProp (js "source") (entryJson e) = Some (entry_source e)
  /\ getProp (js "addedAt") (entryJson e) = Some (entry_addedAt e)
  /\ getProp (js "audioPath") (entryJson e) = Some (entry_audioPath e).
Proof. destruct e. vm_compute. repeat split. Qed.

Lemma importOne_own_export rt st e :
  importsAsItself e = true ->
  ~ In (wordKey rt e) (map (wordKey rt) (currentWords st)) ->
  importOne rt st (entryJson e)
  = Some {| currentWords := currentWords st ++ [e];
            addedCount := S (addedCount st);
            updatedCount := updatedCount st |}.
Proof.
  intros Hi Hn. unfold importOne.
  destruct (getProp_entryJson e) as (-> & -> & -> & -> & -> & ->).
  destruct e as [w p m s a ap]. unfold importsAsItself in Hi.
  cbn [entry_word entry_meaning entry_phonetic entry_source entry_addedAt
       entry_audioPath] in *.
  repeat (apply andb_prop in Hi; destruct Hi as [Hi ?]).
  destruct w as [|c w]; [discriminate|].
  destruct m as [| | | |[|d m]| |]; try discriminate.
  cbn [truthy negb orb].
  assert (Ef : findIndex (sameWord rt (c :: w)) (currentWords st) = None).
  { apply findIndex_None. intros b Hb. apply sameWord_false. intros Hk.
    apply Hn. unfold wordKey at 1. cbn [entry_word]. rewrite <- Hk.
    apply in_map. exact Hb. }
  rewrite Ef.
  repeat match goal with
         | H : jsstring_eqb _ _ = true |- _ => apply jsstring_eqb_true in H
         end.
  assert (Ep : orElse p (JString []) = p).
  { unfold orElse. destruct p as [| | | |[|? ?]| |]; cbn in *;
      try reflexivity; try discriminate;
      match goal with H : ?b = true |- _ => rewrite H; reflexivity end. }
  assert (Es : orElse s (JString []) = s).
  { unfold orElse. destruct s as [| | | |[|? ?]| |]; cbn in *;
      try reflexivity; try discriminate;
      match goal with H : ?b = true |- _ => rewrite H; reflexivity end. }
  assert (Ea : forall d', orElse a d' = a)
    by (intros d'; unfold orElse;
        match goal with H : truthy a = true |- _ => rewrite H end;
        reflexivity).
  assert (Eap : forall d', orElse ap d' = ap)
    by (intros d'; unfold orElse;
        match goal with H : truthy ap = true |- _ => rewrite H end;
        reflexivity).
  rewrite Ep, Es, Ea, Eap.
  repeat match goal with H : trim _ = _ |- _ => rewrite H; clear H end.
  reflexivity.
Qed.

Lemma importEach_own_export rt words : forall st,
  Forall (fun e => importsAsItself e = true) words ->
  NoDup (map (wordKey rt) (currentWords st ++ words)) ->
  importEach rt st (map entryJson words)
  = Some {| currentWords := currentWords st ++ words;
            addedCount := addedCount st + List.length words;
            updatedCount := updatedCount st |}.
Proof.
  induction words as [|e words IH]; intros st Hall Hn; cbn [map importEach].
  - rewrite app_nil_r, Nat.add_0_r. destruct st; reflexivity.
  - inversion Hall as [|? ? He Hw]; subst.
    rewrite importOne_own_export; [|exact He|].
    + rewrite IH; [|exact Hw|].
      * cbn [currentWords addedCount updatedCount List.length].
        rewrite <- app_assoc. cbn [app].
        f_equal. f_equal. lia.
      * cbn [currentWords]. rewrite <- app_assoc. exact Hn.
    + rewrite map_app in Hn. cbn [map] in Hn. apply NoDup_remove_2 in Hn.
      intros Hin. apply Hn. apply in_or_app. left. exact Hin.
Qed.

(** X30.  A book of distinct words whose entries have a non-empty trimmed
    word and meaning and truthy [addedAt] and [audioPath] survives the round
    trip: its export, imported with [merge: false] whatever the file then
    holds, is saved as the very same book, every entry counted as added. *)
Theorem export_then_import_restores_the_book rt file other :
  Forall (fun e => importsAsItself e = true) (readWordBook file) ->
  distinctWords rt (readWordBook file) ->
  importWords rt other {| import_words := exportJson file;
                          import_merge := JBool false |}
  = (Some (readWordBook file),
     BookImported (importMessage (List.length (readWordBook file)) 0)
                  (List.length (readWordBook file))).
Proof.
  intros Hall Hd. unfold importWords, exportJson. cbn [import_words].
  rewrite importEach_own_export; [reflexivity|exact Hall|exact Hd].
Qed.

Lemma export_then_import_restores_the_book_witness :
  importWords (sampleRuntime [])
    (Some [sampleEntry (sampleRuntime []) (js "fig") (js "fruit")])
    {| import_words :=
         exportJson
           (Some [sampleEntry (sampleRuntime []) (js "apple") (js "fruit");
                  sampleEntry (sampleRuntime []) (js "pear") (js "fruit")]);
       import_merge := JBool false |}
  = (Some [sampleEntry (sampleRuntime []) (js "apple") (js "fruit");
           sampleEntry (sampleRuntime []) (js "pear") (js "fruit")],
     BookImported (importMessage 2 0) 2).
Proof.
  apply (export_then_import_restores_the_book (sampleRuntime [])
           (Some [sampleEntry (sampleRuntime []) (js "apple") (js "fruit");
                  sampleEntry (sampleRuntime []) (js "pear") (js "fruit")])).
  - repeat constructor.
  - unfold distinctWords. vm_compute.
    repeat constructor; cbn; intros H; repeat destruct H as [H|H];
      try discriminate; exact H.
Defined.
